(** * A shallow embedding of ludusavi's release task runner ([tasks.py])

    Text is modelled at the byte level: a Python [str] read from a UTF-8
    file is the list of its bytes ([list ascii]); decoding checks that the
    bytes are valid UTF-8 and raises [UnicodeDecodeError] otherwise.  The
    text operations the script uses ([str.splitlines], [str.strip],
    [str.lower], [str.replace], [str.startswith], [textwrap.indent],
    [re.sub]) are written out below for that representation.  [str.replace],
    [str.startswith] and [re.sub] with the script's patterns act on the
    bytes of valid UTF-8 text as on its characters.  The line boundaries,
    white space and case of characters outside ASCII are not modelled:
    [splitlines] agrees with Python on valid UTF-8 text without U+0085,
    U+2028 and U+2029, and [strip] and [lower] agree with it on ASCII text;
    the theorems that depend on it assume so. *)

From Stdlib Require Import Ascii String List Bool Arith NArith Lia.
From stdpp Require Import base list gmap strings.

Open Scope list_scope.

(** ** Text helpers (Python [str] methods) *)
Module Text.

Definition text := list ascii.

Definition s2l (s : string) : text := list_ascii_of_string s.

Definition LF : ascii := Ascii.ascii_of_nat 10.
Definition CR : ascii := Ascii.ascii_of_nat 13.
Definition DQ : ascii := Ascii.ascii_of_nat 34.
Definition BS : ascii := Ascii.ascii_of_nat 92.

(** The ASCII line boundaries of [str.splitlines]: \n, \r, \v, \f,
    \x1c, \x1d, \x1e. *)
Definition is_linebreak (c : ascii) : bool :=
  let n := nat_of_ascii c in
  (n =? 10) || (n =? 13) || (n =? 11) || (n =? 12)
  || (n =? 28) || (n =? 29) || (n =? 30).

(** [str.isspace] on one ASCII character: \t \n \v \f \r, \x1c-\x1f,
    space. *)
Definition py_isspace (c : ascii) : bool :=
  let n := nat_of_ascii c in
  ((9 <=? n) && (n <=? 13)) || ((28 <=? n) && (n <=? 32)).

(** [str.splitlines(keepends=True)] as (line, line ending) pairs; a
    \r\n pair is one boundary. *)
Fixpoint splitlines_go (s : text) (cur : text) : list (text * text) :=
  match s with
  | [] => match cur with [] => [] | _ => [(rev cur, [])] end
  | c :: t =>
      if Ascii.eqb c CR then
        match t with
        | d :: t' =>
            if Ascii.eqb d LF then (rev cur, [c; d]) :: splitlines_go t' []
            else (rev cur, [c]) :: splitlines_go t []
        | [] => [(rev cur, [c])]
        end
      else if is_linebreak c then (rev cur, [c]) :: splitlines_go t []
      else splitlines_go t (c :: cur)
  end.

(** [str.splitlines()] *)
Definition splitlines (s : text) : list text := map fst (splitlines_go s []).

(** [str.splitlines(True)] *)
Definition splitlines_keepends (s : text) : list text :=
  map (fun '(l, e) => l ++ e) (splitlines_go s []).

(** [s.startswith(p)] *)
Fixpoint starts_with (p s : text) : bool :=
  match p, s with
  | [], _ => true
  | c :: p', d :: s' => Ascii.eqb c d && starts_with p' s'
  | _ :: _, [] => false
  end.

(** [p in s] (substring test) *)
Fixpoint is_infix (p s : text) : bool :=
  starts_with p s || match s with [] => false | _ :: s' => is_infix p s' end.

(** [s.endswith(p)] *)
Definition ends_with (p s : text) : bool := starts_with (rev p) (rev s).

(** [s.replace(old, new)]: every non-overlapping occurrence, left to right
    ([old] is non-empty at every call site of the script). *)
Fixpoint replace_fuel (fuel : nat) (old new s : text) : text :=
  match fuel with
  | 0 => s
  | S f =>
      match s with
      | [] => []
      | c :: t =>
          if starts_with old s then new ++ replace_fuel f old new (drop (length old) s)
          else c :: replace_fuel f old new t
      end
  end.

Definition py_replace (old new s : text) : text :=
  replace_fuel (S (length s)) old new s.

(** [s.strip(chars)] with an explicit character predicate. *)
Fixpoint lstrip_by (p : ascii -> bool) (s : text) : text :=
  match s with
  | c :: t => if p c then lstrip_by p t else s
  | [] => []
  end.

Definition rstrip_by (p : ascii -> bool) (s : text) : text :=
  rev (lstrip_by p (rev s)).

Definition strip_by (p : ascii -> bool) (s : text) : text :=
  rstrip_by p (lstrip_by p s).

(** [s.strip()], [s.rstrip()], [s.strip] with the double quote as argument *)
Definition py_strip := strip_by py_isspace.
Definition py_rstrip := rstrip_by py_isspace.
Definition strip_quotes := strip_by (fun c => Ascii.eqb c DQ).

(** [sep.join(ls)] *)
Fixpoint join (sep : text) (ls : list text) : text :=
  match ls with
  | [] => []
  | [l] => l
  | l :: r => l ++ sep ++ join sep r
  end.

(** [s.lower()] on ASCII letters *)
Definition lower_char (c : ascii) : ascii :=
  let n := nat_of_ascii c in
  if (65 <=? n) && (n <=? 90) then ascii_of_nat (n + 32) else c.

Definition py_lower (s : text) : text := map lower_char s.

(** [textwrap.indent(text, prefix)]: the prefix is added to every line
    that is not made of white space only. *)
Definition indent (s prefix : text) : text :=
  concat (map (fun l => if forallb py_isspace l then l else prefix ++ l)
              (splitlines_keepends s)).

Definition in_range (lo hi : nat) (c : ascii) : bool :=
  let n := nat_of_ascii c in (lo <=? n) && (n <=? hi).

(** Strict UTF-8, as [bytes.decode("utf-8")] checks it: no overlong
    form, no surrogate (U+D800 to U+DFFF), nothing above U+10FFFF. *)
Fixpoint utf8_valid (s : text) : bool :=
  match s with
  | [] => true
  | c :: t =>
      if in_range 0 127 c then utf8_valid t
      else if in_range 194 223 c then
        match t with
        | c1 :: t1 => in_range 128 191 c1 && utf8_valid t1
        | [] => false
        end
      else if in_range 224 239 c then
        match t with
        | c1 :: c2 :: t2 =>
            in_range (if nat_of_ascii c =? 224 then 160 else 128)
                     (if nat_of_ascii c =? 237 then 159 else 191) c1
            && in_range 128 191 c2 && utf8_valid t2
        | _ => false
        end
      else if in_range 240 244 c then
        match t with
        | c1 :: c2 :: c3 :: t3 =>
            in_range (if nat_of_ascii c =? 240 then 144 else 128)
                     (if nat_of_ascii c =? 244 then 143 else 191) c1
            && in_range 128 191 c2 && in_range 128 191 c3 && utf8_valid t3
        | _ => false
        end
      else false
  end.

(** The text is ASCII. *)
Definition ascii_text (s : text) : bool := forallb (in_range 0 127) s.

(** The line boundaries of [str.splitlines] outside ASCII, in UTF-8:
    U+0085, U+2028 and U+2029. *)
Definition unicode_breaks : list text :=
  map (map ascii_of_nat) [[194; 133]; [226; 128; 168]; [226; 128; 169]].

(** [s] contains none of them. *)
Definition no_unicode_break (s : text) : bool :=
  forallb (fun b => negb (is_infix b s)) unicode_breaks.

End Text.

(** ** The regular expressions of the script, and [re.sub]

    Only the constructs the script's patterns use: literal characters,
    one-character classes ([.], [\d], [[^\\]]), greedy [*] and [+] of a
    class, concatenation and numbered groups.  [\d] is read as an ASCII
    digit (on a [str], Python also accepts the other decimal digits of
    Unicode).  Matching is backtracking in
    continuation-passing style, as in Python's engine. *)
Module Re.
Import Text.

Inductive regex :=
| REps
| RChar (c : ascii)
| RClass (p : ascii -> bool)
| RStar (p : ascii -> bool)
| RPlus (p : ascii -> bool)
| RSeq (r1 r2 : regex)
| RGroup (n : nat) (r : regex).

Definition caps := list (nat * text).

(** Length of the longest prefix of [s] made of characters of class [p]. *)
Fixpoint run_len (p : ascii -> bool) (s : text) : nat :=
  match s with
  | c :: t => if p c then S (run_len p t) else 0
  | [] => 0
  end.

(** Greedy repetition: try to continue after [n], [n-1], ..., [lo]
    characters. *)
Fixpoint backtrack {R} (k : text -> option R) (s : text) (lo n : nat) : option R :=
  if n <? lo then None
  else match k (drop n s) with
       | Some x => Some x
       | None => match n with 0 => None | S m => backtrack k s lo m end
       end.

Fixpoint matcher (r : regex) (s : text) (g : caps)
         (k : text -> caps -> option (text * caps)) : option (text * caps) :=
  match r with
  | REps => k s g
  | RChar c => match s with d :: t => if Ascii.eqb c d then k t g else None | [] => None end
  | RClass p => match s with d :: t => if p d then k t g else None | [] => None end
  | RStar p => backtrack (fun s' => k s' g) s 0 (run_len p s)
  | RPlus p => backtrack (fun s' => k s' g) s 1 (run_len p s)
  | RSeq r1 r2 => matcher r1 s g (fun s' g' => matcher r2 s' g' k)
  | RGroup n r1 =>
      matcher r1 s g (fun s' g' => k s' ((n, firstn (length s - length s') s) :: g'))
  end.

(** A match anchored at the start of [s]: the rest of [s] and the groups. *)
Definition match_at (r : regex) (s : text) : option (text * caps) :=
  matcher r s [] (fun s' g => Some (s', g)).

(** A literal string followed by [r]. *)
Definition lit (l : text) (r : regex) : regex :=
  fold_right (fun c r' => RSeq (RChar c) r') r l.

Definition any_nonl (c : ascii) : bool := negb (Ascii.eqb c LF).
Definition is_digit (c : ascii) : bool :=
  let n := nat_of_ascii c in (48 <=? n) && (n <=? 57).
Definition not_backslash (c : ascii) : bool := negb (Ascii.eqb c BS).

(** The number of groups of a pattern ([pattern.groups]). *)
Fixpoint group_count (r : regex) : nat :=
  match r with
  | RSeq r1 r2 => group_count r1 + group_count r2
  | RGroup _ r1 => S (group_count r1)
  | _ => 0
  end.

(** Parsed replacement templates: literal text and group references;
    group 0 is the whole match. *)
Inductive piece := PLit (t : text) | PGroup (n : nat).

(** Parsing a replacement template ([re._parser.parse_template], Python
    3.12).  [\g<n>] with decimal ASCII digits, [\d] and [\dd] refer to
    groups, which must exist; [\0], [\0o] and [\0oo], and [\ooo] with
    three octal digits up to 0o377, are the character of that code; [\a],
    [\b], [\f], [\n], [\r], [\t], [\v] and a doubled backslash are
    escapes; a backslash before another ASCII letter, or at the end, is an
    error ([None]); before any other character both are kept.  A name in
    [\g<...>] that is not made of digits is an error as well (the patterns
    of the script have no named group).  The literal read so far is kept
    reversed in [acc]; a character of code 128 to 255 is two bytes in
    UTF-8. *)
Inductive tmode := TText | TName (digits : text).

Definition is_oct (c : ascii) : bool := in_range 48 55 c.
Definition digit_val (c : ascii) : nat := nat_of_ascii c - 48.
Definition is_ascii_letter (c : ascii) : bool := in_range 65 90 c || in_range 97 122 c.

Definition push_chr (v : nat) (acc : text) : text :=
  if v <? 128 then ascii_of_nat v :: acc
  else ascii_of_nat (128 + v mod 64) :: ascii_of_nat (192 + v / 64) :: acc.

Definition escape_char (c : ascii) : option ascii :=
  if Ascii.eqb c "a"%char then Some (ascii_of_nat 7)
  else if Ascii.eqb c "b"%char then Some (ascii_of_nat 8)
  else if Ascii.eqb c "f"%char then Some (ascii_of_nat 12)
  else if Ascii.eqb c "n"%char then Some LF
  else if Ascii.eqb c "r"%char then Some CR
  else if Ascii.eqb c "t"%char then Some (ascii_of_nat 9)
  else if Ascii.eqb c "v"%char then Some (ascii_of_nat 11)
  else if Ascii.eqb c BS then Some BS
  else None.

Fixpoint digits_N (ds : text) (acc : N) : N :=
  match ds with
  | [] => acc
  | d :: r => digits_N r (acc * 10 + N.of_nat (digit_val d))%N
  end.

Fixpoint parse_go (ng : nat) (m : tmode) (s : text) (acc : text) {struct s}
  : option (list piece) :=
  let group (i : nat) (k : option (list piece)) : option (list piece) :=
    if i <=? ng then option_map (fun r => PLit (rev acc) :: PGroup i :: r) k else None in
  match m, s with
  | TName _, [] => None
  | TName ds, c :: t =>
      if Ascii.eqb c ">"%char then
        match ds with
        | [] => None
        | _ :: _ =>
            let i := digits_N (rev ds) 0 in
            if (i <=? N.of_nat ng)%N then group (N.to_nat i) (parse_go ng TText t [])
            else None
        end
      else if is_digit c then parse_go ng (TName (c :: ds)) t acc
      else None
  | TText, [] => Some [PLit (rev acc)]
  | TText, c :: t =>
      if negb (Ascii.eqb c BS) then parse_go ng TText t (c :: acc)
      else
        match t with
        | [] => None
        | d :: t1 =>
            if Ascii.eqb d "g"%char then
              match t1 with
              | e :: t2 => if Ascii.eqb e "<"%char then parse_go ng (TName []) t2 acc else None
              | [] => None
              end
            else if Ascii.eqb d "0"%char then
              match t1 with
              | e :: t2 =>
                  if is_oct e then
                    match t2 with
                    | f :: t3 =>
                        if is_oct f then parse_go ng TText t3 (push_chr (digit_val e * 8 + digit_val f) acc)
                        else parse_go ng TText t2 (push_chr (digit_val e) acc)
                    | [] => parse_go ng TText t2 (push_chr (digit_val e) acc)
                    end
                  else parse_go ng TText t1 (push_chr 0 acc)
              | [] => parse_go ng TText t1 (push_chr 0 acc)
              end
            else if is_digit d then
              match t1 with
              | e :: t2 =>
                  if is_digit e then
                    match t2 with
                    | f :: t3 =>
                        if is_oct d && is_oct e && is_oct f then
                          let v := digit_val d * 64 + digit_val e * 8 + digit_val f in
                          if v <=? 255 then parse_go ng TText t3 (push_chr v acc) else None
                        else group (digit_val d * 10 + digit_val e) (parse_go ng TText t2 [])
                    | [] => group (digit_val d * 10 + digit_val e) (parse_go ng TText t2 [])
                    end
                  else group (digit_val d) (parse_go ng TText t1 [])
              | [] => group (digit_val d) (parse_go ng TText t1 [])
              end
            else
              match escape_char d with
              | Some x => parse_go ng TText t1 (x :: acc)
              | None => if is_ascii_letter d then None else parse_go ng TText t1 (d :: BS :: acc)
              end
        end
  end.

(** [ng] is the number of groups of the pattern. *)
Definition parse_template (ng : nat) (repl : text) : option (list piece) :=
  parse_go ng TText repl [].

Definition group_text (g : caps) (n : nat) : text :=
  match find (fun '(m, _) => m =? n) g with Some (_, t) => t | None => [] end.

(** The groups of a match of [s] that leaves [rest], with group 0. *)
Definition match_caps (s rest : text) (g : caps) : caps :=
  (0, firstn (length s - length rest) s) :: g.

Definition expand (g : caps) (tpl : list piece) : text :=
  concat (map (fun p => match p with PLit t => t | PGroup n => group_text g n end) tpl).

(** [re.sub] with a parsed template: scan left to right; at each position
    try an anchored match; replace it and continue after it; after an
    empty match one character is copied.  [cnt] is the number of
    replacements still allowed ([None]: unlimited, Python's [count=0]). *)
Fixpoint sub_go (fuel : nat) (r : regex) (tpl : list piece) (cnt : option nat)
         (s : text) : text :=
  match fuel with
  | 0 => s
  | S f =>
      match cnt with
      | Some 0 => s
      | _ =>
          let cnt' := match cnt with Some (S m) => Some m | c => c end in
          match match_at r s with
          | Some (rest, g) =>
              if length rest <? length s
              then expand (match_caps s rest g) tpl ++ sub_go f r tpl cnt' rest
              else expand (match_caps s rest g) tpl
                   ++ match s with
                      | [] => []
                      | c :: t => c :: sub_go f r tpl cnt' t
                      end
          | None =>
              match s with
              | [] => []
              | c :: t => c :: sub_go f r tpl cnt t
              end
          end
      end
  end.

Definition re_sub (r : regex) (tpl : list piece) (s : text) (count : nat) : text :=
  sub_go (S (length s)) r tpl (if count =? 0 then None else Some count) s.

End Re.

Import Text Re.

(** ** Pure cores of [get_version] and [latest_changelog] *)

(** The loop of [get_version] over the lines of Cargo.toml. *)
Fixpoint version_from_lines (ls : list text) : option text :=
  match ls with
  | [] => None
  | line :: rest =>
      if starts_with (s2l "version =") line
      then Some (strip_quotes (py_replace (s2l "version = ") [] line))
      else version_from_lines rest
  end.

(** The loop of [latest_changelog]: [header] is the flag of the source. *)
Fixpoint changelog_loop (ls : list text) (header : bool) : list text :=
  match ls with
  | [] => []
  | line :: rest =>
      if starts_with (s2l "#") line then
        if header then [] else changelog_loop rest true
      else line :: changelog_loop rest header
  end.

Definition latest_changelog_of (content : text) : text :=
  py_strip (join [LF] (changelog_loop (splitlines content) false)).

(** ** File system, process state and the task monad *)
Module Sys.
Import Text.

(** A path is its list of components; [ROOT / "a/b"] splits [a/b]. *)
Abbreviation path := (list text).

(** A directory entry: a regular file with its bytes, a directory, or a
    zip archive written by [zipfile] (its members, names and bytes). *)
Inductive node := File (content : text) | Dir | Archive (members : list (text * text)).

#[global] Instance node_eq_dec : EqDecision node.
Proof. solve_decision. Defined.

Abbreviation fsys := (gmap path node).

(** The exceptions that can leave a task: invoke's [UnexpectedExit] for an
    external command with a non-zero exit status, [RuntimeError], the
    [OSError] family for file operations, [UnicodeDecodeError] for bytes
    that are not UTF-8, [re.error] (and the [IndexError] of an unknown
    group name) for a malformed replacement template, and [SystemExit]. *)
Inductive exn :=
| UnexpectedExit (cmd : text)
| RuntimeError (msg : text)
| OSError (p : path)
| UnicodeDecodeError
| ReError
| SystemExit (code : nat).

(** [except Exception] catches everything but [SystemExit]. *)
Definition is_exception (e : exn) : bool :=
  match e with SystemExit _ => false | _ => true end.

(** The process state: the file system, what was printed (newest first)
    and the trace of external commands run with their success (newest
    first). *)
Record state := St { fs : fsys; out : list text; trace : list (text * bool) }.

Definition M (A : Type) : Type := state -> (exn + A) * state.

Definition ret {A} (x : A) : M A := fun s => (inr x, s).
Definition bind {A B} (m : M A) (k : A -> M B) : M B :=
  fun s => match m s with
           | (inl e, s') => (inl e, s')
           | (inr x, s') => k x s'
           end.
Definition raise {A} (e : exn) : M A := fun s => (inl e, s).

#[global] Instance M_ret : MRet M := @ret.
#[global] Instance M_bind : MBind M := fun A B k m => bind m k.

(** [try: m  except Exception: pass] *)
Definition try_pass {A} (m : M A) : M unit :=
  fun s => match m s with
           | (inl e, s') => if is_exception e then (inr tt, s') else (inl e, s')
           | (inr _, s') => (inr tt, s')
           end.

Definition set_fs (f : fsys) (s : state) : state := St f (out s) (trace s).

Definition modify_fs (f : fsys -> fsys) : M unit :=
  fun s => (inr tt, set_fs (f (fs s)) s).

Definition get_fs : M fsys := fun s => (inr (fs s), s).

(** [print(t)] and the prompt of [input] *)
Definition print (t : text) : M unit :=
  fun s => (inr tt, St (fs s) ((t ++ [LF]) :: out s) (trace s)).

Fixpoint for_ {A} (l : list A) (f : A -> M unit) : M unit :=
  match l with
  | [] => ret tt
  | x :: r => f x ;; for_ r f
  end.

(** Paths *)
Fixpoint split_slash (s : text) (cur : text) : list text :=
  match s with
  | [] => [rev cur]
  | c :: t => if Ascii.eqb c "/"%char then rev cur :: split_slash t [] else split_slash t (c :: cur)
  end.

(** [Path(t)] for a relative or absolute string: empty components dropped. *)
Definition path_of_string (t : text) : path :=
  filter (fun c => negb (bool_decide (c = []))) (split_slash t []).

(** [p / t] *)
Definition pjoin (p : path) (t : text) : path := p ++ path_of_string t.

(** [str(p)] of an absolute path *)
Definition path_str (p : path) : text := concat (map (fun c => "/"%char :: c) p).

Definition parent (p : path) : path := removelast p.

(** [p.name] *)
Definition name (p : path) : text := default [] (last p).

Definition is_dir (f : fsys) (p : path) : bool :=
  match p with [] => true | _ => bool_decide (f !! p = Some Dir) end.

(** [p.exists()] *)
Definition path_exists (p : path) : M bool :=
  fun s => (inr (bool_decide (is_Some (fs s !! p))), s).

(** [p.read_bytes()]: a regular file (an archive is not read by the
    script). *)
Definition read_bytes (p : path) : M text :=
  fun s => match fs s !! p with
           | Some (File c) => (inr c, s)
           | _ => (inl (OSError p), s)
           end.

(** Universal newlines of text-mode reading: \r\n and \r become \n. *)
Fixpoint nl_translate (s : text) : text :=
  match s with
  | [] => []
  | c :: t =>
      if Ascii.eqb c CR then
        match t with
        | d :: t' => if Ascii.eqb d LF then LF :: nl_translate t' else LF :: nl_translate t
        | [] => [LF]
        end
      else c :: nl_translate t
  end.

(** [b.decode("utf-8")] *)
Definition decode (c : text) : M text :=
  if utf8_valid c then ret c else raise UnicodeDecodeError.

(** [p.read_text("utf-8")]: the bytes, decoded, with universal newlines. *)
Definition read_text (p : path) : M text :=
  c ← read_bytes p; t ← decode c; ret (nl_translate t).

(** Creating or truncating [p] with a given entry: the parent must be a
    directory and [p] must not be one. *)
Definition write_node (p : path) (n : node) : M unit :=
  fun s => if is_dir (fs s) (parent p) && negb (bool_decide (fs s !! p = Some Dir))
           then (inr tt, set_fs (<[p := n]> (fs s)) s)
           else (inl (OSError p), s).

(** [p.write_bytes(c)]; [p.write_text(c)] and [open(p, "w").write(c)]
    write the same bytes on Linux. *)
Definition write_bytes (p : path) (c : text) : M unit := write_node p (File c).
Definition write_text := write_bytes.

(** [p.mkdir()] *)
Definition mkdir (p : path) : M unit :=
  fun s => if bool_decide (is_Some (fs s !! p)) then (inl (OSError p), s)
           else if is_dir (fs s) (parent p) then (inr tt, set_fs (<[p := Dir]> (fs s)) s)
           else (inl (OSError p), s).

(** The proper prefixes of [p], shortest first. *)
Definition ancestors (p : path) : list path :=
  map (fun n => firstn n p) (seq 1 (length p - 1)).

(** [p.mkdir(parents=True)]: missing ancestors are created; an ancestor
    that is not a directory fails. *)
Definition mkdir_parents (p : path) : M unit :=
  for_ (ancestors p) (fun a =>
    fun s => match fs s !! a with
             | None => (inr tt, set_fs (<[a := Dir]> (fs s)) s)
             | Some Dir => (inr tt, s)
             | Some _ => (inl (OSError a), s)
             end) ;;
  mkdir p.

(** [p.unlink()] *)
Definition unlink (p : path) : M unit :=
  fun s => match fs s !! p with
           | Some Dir | None => (inl (OSError p), s)
           | Some _ => (inr tt, set_fs (delete p (fs s)) s)
           end.

(** [shutil.copy(src, dst)] *)
Definition copy (src dst : path) : M unit :=
  c ← read_bytes src;
  f ← get_fs;
  let dst' := if bool_decide (f !! dst = Some Dir) then dst ++ [name src] else dst in
  write_bytes dst' c.

(** [shutil.rmtree(p, ignore_errors=True)]: every entry at or below [p]
    is removed except the ones that cannot be ([locked]) and the
    directories that still contain such an entry; errors are ignored.  On
    a path that is not a directory it does nothing. *)
Definition rmtree_ignore (locked : path -> bool) (p : path) : M unit :=
  fun s =>
    if bool_decide (fs s !! p = Some Dir) then
      let keys := map fst (map_to_list (fs s)) in
      let survives (q : path) : bool :=
        negb (bool_decide (p `prefix_of` q))
        || existsb (fun q' => bool_decide (q `prefix_of` q') && locked q') keys in
      (inr tt, set_fs (filter (fun kv : path * node => survives kv.1 = true) (fs s)) s)
    else (inr tt, s).

(** [d.glob("*.ftl")]: the entries directly in [d] whose name ends in
    [.ftl] (in the file system's order). *)
Definition in_dir (d q : path) : bool :=
  bool_decide (length q = S (length d)) && bool_decide (d `prefix_of` q).

Definition glob_ftl (d : path) : M (list path) :=
  fun s => (inr (filter (fun q => in_dir d q && ends_with (s2l ".ftl") (name q))
                        (map fst (map_to_list (fs s)))), s).

End Sys.

(** ** The tasks of [tasks.py] *)
Module Tasks.
Import Text Re Sys.

(** The functions decorated with [@task], with their parameters. *)
Inductive task_call :=
| TVersion
| TLegal
| TFlatpak (generator : text)
| TLang (jar : text)
| TClean
| TDocs
| TDocsCli
| TDocsSchema
| TPrerelease (new_version : text) (update_lang : bool)
| TRelease
| TReleaseFlatpak (target : text)
| TReleaseWinget (target : text).

(** The name of each task: the name of its Python function. *)
Definition task_name (t : task_call) : text :=
  s2l match t with
  | TVersion => "version"
  | TLegal => "legal"
  | TFlatpak _ => "flatpak"
  | TLang _ => "lang"
  | TClean => "clean"
  | TDocs => "docs"
  | TDocsCli => "docs_cli"
  | TDocsSchema => "docs_schema"
  | TPrerelease _ _ => "prerelease"
  | TRelease => "release"
  | TReleaseFlatpak _ => "release_flatpak"
  | TReleaseWinget _ => "release_winget"
  end.

(** invoke's [Collection.transform] with [auto_dash_names] on, its default:
    an underscore becomes a dash unless it is the first or the last
    character or is next to a dot. *)
Definition auto_dash (name : text) : text :=
  let e := length name - 1 in
  imap (fun i c =>
          if negb (i =? 0) && negb (i =? e) && Ascii.eqb c "_"%char
             && negb (Ascii.eqb (nth (i - 1) name " "%char) "."%char)
             && negb (Ascii.eqb (nth (i + 1) name " "%char) "."%char)
          then "-"%char else c) name.

(** The name under which invoke exposes a task on its command line. *)
Definition cli_name (t : task_call) : text := auto_dash (task_name t).

Definition default_generator := s2l "/opt/flatpak-cargo-generator.py".
Definition default_jar := s2l "/opt/crowdin-cli/crowdin-cli.jar".
Definition default_flatpak_target := s2l "/git/com.github.mtkennerly.ludusavi".
Definition default_winget_target := s2l "/git/_forks/winget-pkgs".

(** [f'"{t}"'] *)
Definition q (t : text) : text := [DQ] ++ t ++ [DQ].

(** Regular expressions of the script *)

(** [version = ".+"] *)
Definition re_version : regex :=
  lit (s2l "version = ") (RSeq (RChar DQ) (RSeq (RPlus any_nonl) (RChar DQ))).

(** [\d+\.\d+\.\d+] *)
Definition re_semver : regex :=
  RSeq (RPlus is_digit) (RSeq (RChar "."%char)
    (RSeq (RPlus is_digit) (RSeq (RChar "."%char) (RPlus is_digit)))).

Definition bug_indent : text := [LF] ++ s2l "        ".

(** [(options:)(\n        - v\d+\.\d+\.\d+)] *)
Definition re_options : regex :=
  RSeq (RGroup 1 (lit (s2l "options:") REps))
       (RGroup 2 (lit (bug_indent ++ s2l "- v") re_semver)).

(** [- v\d+\.\d+\.\d+\n        (- Other)] *)
Definition re_other : regex :=
  lit (s2l "- v") (RSeq re_semver (lit bug_indent (RGroup 1 (lit (s2l "- Other") REps)))).

(** [(ludusavi/v).+(/docs/sample-gui-linux.png)] (the dot before [png]
    is the any-character class) *)
Definition re_screenshot : regex :=
  RSeq (RGroup 1 (lit (s2l "ludusavi/v") REps))
       (RSeq (RPlus any_nonl)
             (RGroup 2 (lit (s2l "/docs/sample-gui-linux") (RSeq (RClass any_nonl) (lit (s2l "png") REps))))).

(** [C:\\Users\\[^\\]+] *)
Definition re_users : regex := lit (s2l "C:\Users\") (RPlus not_backslash).

(** The pattern of [release_flatpak]: group 1 is eight spaces and [tag:],
    then a space, then group 2 is the rest of the line (a star of [.]). *)
Definition re_tag : regex :=
  RSeq (RGroup 1 (lit (s2l "        tag:") REps)) (RSeq (RChar " "%char) (RGroup 2 (RStar any_nonl))).

(** [re.sub(pattern, repl, string, count=count)] with the replacement as
    the script writes it: the template is parsed before the string is
    scanned, so a malformed one raises even where nothing matches. *)
Definition py_re_sub (r : regex) (repl : text) (s : text) (count : nat) : M text :=
  match parse_template (group_count r) repl with
  | Some tpl => ret (re_sub r tpl s count)
  | None => raise ReError
  end.

Definition cli_commands : list text :=
  map s2l ["--help"; "backup --help"; "restore --help"; "complete --help";
           "backups --help"; "find --help"; "manifest --help"; "cloud --help";
           "wrap --help"; "api --help"; "schema --help"].

Definition schema_commands : list text :=
  map s2l ["api-input"; "api-output"; "config"; "general-output"].

(** The mapping of the [lang] task: contents to files, in insertion
    order (a Python dict of sets). *)
Fixpoint add_to_mapping (m : list (text * list path)) (c : text) (f : path)
  : list (text * list path) :=
  match m with
  | [] => [(c, [f])]
  | (c', g) :: r => if bool_decide (c = c') then (c', f :: g) :: r
                    else (c', g) :: add_to_mapping r c f
  end.

Section Script.

(** [ROOT]: the directory of [tasks.py]. *)
Variable ROOT : path.
(** The external commands: given the command line and the file system,
    the captured stdout ([None] for a non-zero exit status) and the file
    system afterwards. *)
Variable ext : text -> fsys -> option text * fsys.
(** What the user types at an [input] prompt. *)
Variable answer : text -> text.
(** [dt.datetime.now().strftime("%Y-%m-%d")] *)
Variable today : text.
(** Entries that [shutil.rmtree] fails to remove. *)
Variable locked : path -> bool.

Definition DIST : path := pjoin ROOT (s2l "dist").
Definition LANG : path := pjoin ROOT (s2l "lang").

(** [ctx.run(cmd)]: invoke raises [UnexpectedExit] on a non-zero exit. *)
Definition run (cmd : text) : M text :=
  fun s => let '(r, f) := ext cmd (fs s) in
           match r with
           | Some o => (inr o, St f (out s) ((cmd, true) :: trace s))
           | None => (inl (UnexpectedExit cmd), St f (out s) ((cmd, false) :: trace s))
           end.

(** [ctx.run(cmd)] inside [with ctx.cd(dir)] *)
Definition run_in (dir : path) (cmd : text) : M text :=
  run (s2l "cd " ++ path_str dir ++ s2l " && " ++ cmd).

(** [input(prompt)] *)
Definition input (prompt : text) : M text :=
  fun s => (inr (answer prompt), St (fs s) (prompt :: out s) (trace s)).

Definition get_version : M text :=
  content ← read_text (pjoin ROOT (s2l "Cargo.toml"));
  match version_from_lines (splitlines content) with
  | Some v => ret v
  | None => raise (RuntimeError (s2l "Could not determine version"))
  end.

Definition replace_pattern_in_file (file : path) (old : regex) (new : text)
           (count : nat) : M unit :=
  content ← read_text file;
  updated ← py_re_sub old new content count;
  write_text file updated.

Definition confirm (prompt : text) : M unit :=
  response ← input (s2l "Confirm by typing '" ++ prompt ++ s2l "': ");
  if bool_decide (py_lower response = py_lower prompt) then ret tt
  else raise (SystemExit 1).

Definition version : M unit :=
  v ← get_version; print v.

Definition legal_txt_name (version : text) : text :=
  s2l "ludusavi-v" ++ version ++ s2l "-legal.txt".

Definition legal_txt_path (version : text) : path :=
  pjoin (pjoin ROOT (s2l "dist")) (legal_txt_name version).

Definition legal_bundle_cmd (version : text) : text :=
  s2l "cargo lichking bundle --file " ++ q (path_str (legal_txt_path version)).

(** [legal], after the [try] block (lines 50-56). *)
Definition legal_rest (version : text) : M unit :=
  let txt_name := legal_txt_name version in
  let txt_path := legal_txt_path version in
  raw ← read_text txt_path;
  normalized ← py_re_sub re_users (s2l "~") raw 0;
  write_text txt_path normalized ;;
  let zip_path := pjoin (pjoin ROOT (s2l "dist"))
                        (s2l "ludusavi-v" ++ version ++ s2l "-legal.zip") in
  write_node zip_path (Archive []) ;;
  c ← read_bytes txt_path;
  write_node zip_path (Archive [(txt_name, c)]).

Definition legal : M unit :=
  version ← get_version;
  try_pass (run (legal_bundle_cmd version)) ;;
  legal_rest version.

Definition flatpak (generator : text) : M unit :=
  run (s2l "python " ++ q generator ++ s2l " " ++ q (path_str ROOT ++ s2l "/Cargo.lock")
       ++ s2l " -o " ++ q (path_str DIST ++ s2l "/generated-sources.json")) ;;
  ret tt.

(** The loop over the [.ftl] files of the [lang] task. *)
Fixpoint collect (files : list path) (mapping : list (text * list path))
  : M (list (text * list path)) :=
  match files with
  | [] => ret mapping
  | file :: rest =>
      if is_infix (s2l "en-US.ftl") (name file) then collect rest mapping
      else content ← read_text file; collect rest (add_to_mapping mapping content file)
  end.

(** The deduplication step of the [lang] task. *)
Definition lang_dedup : M unit :=
  files ← glob_ftl LANG;
  mapping ← collect files [];
  for_ (map snd mapping) (fun group =>
    if 1 <? length group then for_ group unlink else ret tt).

Definition lang (jar : text) : M unit :=
  run (s2l "java -jar " ++ q jar ++ s2l " pull --export-only-approved") ;;
  lang_dedup.

Definition clean : M unit :=
  bind (path_exists DIST) (fun b =>
  (if b then rmtree_ignore locked DIST else ret tt) ;;
  mkdir DIST).

(** The loop of [docs_cli] over its commands, growing [lines]. *)
Fixpoint docs_cli_loop (commands : list text) (lines : list text) : M (list text) :=
  match commands with
  | [] => ret lines
  | command :: rest =>
      print (s2l "cli.md: " ++ command) ;;
      output ← run (s2l "cargo run -- " ++ command);
      docs_cli_loop rest
        (lines ++ [[]; s2l "## `" ++ command ++ s2l "`"; s2l "```"]
               ++ map py_rstrip (splitlines output) ++ [s2l "```"])
  end.

Definition docs_cli : M unit :=
  let docs := pjoin ROOT (s2l "docs") in
  bind (path_exists docs) (fun b =>
  (if b then ret tt else mkdir_parents docs) ;;
  let doc := pjoin docs (s2l "cli.md") in
  lines ← docs_cli_loop cli_commands
            [s2l "This is the raw help text for the command line interface."];
  write_text doc (concat (map (fun line => line ++ [LF]) lines))).

Definition docs_schema : M unit :=
  let docs := pjoin (pjoin ROOT (s2l "docs")) (s2l "schema") in
  bind (path_exists docs) (fun b =>
  (if b then ret tt else mkdir_parents docs) ;;
  for_ schema_commands (fun command =>
    let doc := pjoin docs (command ++ s2l ".yaml") in
    print (s2l "schema: " ++ command) ;;
    output ← run (s2l "cargo run -- schema --format yaml " ++ command);
    write_text doc (py_strip output ++ [LF]))).

Definition docs : M unit :=
  docs_cli ;;
  docs_schema.

Definition metainfo_files : list path :=
  [pjoin ROOT (s2l "assets/linux/com.mtkennerly.ludusavi.metainfo.xml");
   pjoin ROOT (s2l "assets/flatpak/com.github.mtkennerly.ludusavi.metainfo.xml")].

Definition prerelease (new_version : text) (update_lang : bool) : M unit :=
  let date := today in
  replace_pattern_in_file (pjoin ROOT (s2l "Cargo.toml")) re_version
    (s2l "version = " ++ q new_version) 1 ;;
  replace_pattern_in_file (pjoin ROOT (s2l "CHANGELOG.md")) (lit (s2l "## Unreleased") REps)
    (s2l "## v" ++ new_version ++ s2l " (" ++ date ++ s2l ")") 1 ;;
  replace_pattern_in_file (pjoin ROOT (s2l ".github/ISSUE_TEMPLATE/bug.yaml")) re_options
    (s2l "\g<1>\n        - v" ++ new_version ++ s2l "\g<2>") 1 ;;
  replace_pattern_in_file (pjoin ROOT (s2l ".github/ISSUE_TEMPLATE/bug.yaml")) re_other
    (s2l "\g<1>") 1 ;;
  for_ metainfo_files (fun metainfo =>
    replace_pattern_in_file metainfo re_screenshot
      (s2l "\g<1>" ++ new_version ++ s2l "\g<2>") 1 ;;
    replace_pattern_in_file metainfo (lit (s2l "<releases>") REps)
      (s2l "<releases>" ++ bug_indent ++ s2l "<release version=" ++ q new_version
       ++ s2l " date=" ++ q date ++ s2l "/>") 1) ;;
  run (s2l "cargo build") ;;
  clean ;;
  legal ;;
  flatpak default_generator ;;
  docs ;;
  (if update_lang then lang default_jar else ret tt).

Definition release : M unit :=
  version ← get_version;
  confirm (s2l "release " ++ version) ;;
  run (s2l "git commit -m " ++ q (s2l "Release v" ++ version)) ;;
  run (s2l "git tag v" ++ version ++ s2l " -m " ++ q (s2l "Release")) ;;
  run (s2l "git push") ;;
  run (s2l "git push origin tag v" ++ version) ;;
  ret tt.

Definition release_flatpak (target : text) : M unit :=
  let target := path_of_string target in
  let spec := pjoin target (s2l "com.github.mtkennerly.ludusavi.yaml") in
  version ← get_version;
  run_in target (s2l "git checkout master") ;;
  run_in target (s2l "git pull") ;;
  run_in target (s2l "git checkout -b release/v" ++ version) ;;
  copy (pjoin DIST (s2l "generated-sources.json")) (pjoin target (s2l "generated-sources.json")) ;;
  spec_content ← read_bytes spec;
  spec_content ← decode spec_content;
  spec_content ← py_re_sub re_tag (s2l "\1 v" ++ version) spec_content 0;
  write_bytes spec spec_content ;;
  run_in target (s2l "git add .") ;;
  run_in target (s2l "git commit -m " ++ q (s2l "Update for v" ++ version)) ;;
  run_in target (s2l "git push origin HEAD") ;;
  ret tt.

Definition latest_changelog : M text :=
  content ← read_bytes (pjoin ROOT (s2l "CHANGELOG.md"));
  content ← decode content;
  ret (latest_changelog_of content).

Definition release_winget (target : text) : M unit :=
  let target := path_of_string target in
  version ← get_version;
  cl ← latest_changelog;
  let changelog := indent cl (s2l "  ") in
  let download := s2l "https://github.com/mtkennerly/ludusavi/releases/download/v" in
  run_in target (s2l "git checkout master") ;;
  run_in target (s2l "git pull upstream master") ;;
  run_in target (s2l "git checkout -b mtkennerly.ludusavi-" ++ version) ;;
  run_in target (s2l "wingetcreate update mtkennerly.ludusavi --version " ++ version
    ++ s2l " --urls " ++ download ++ version ++ s2l "/ludusavi-v" ++ version ++ s2l "-win64.zip "
    ++ download ++ version ++ s2l "/ludusavi-v" ++ version ++ s2l "-win32.zip") ;;
  let spec := pjoin target (s2l "manifests/m/mtkennerly/ludusavi/" ++ version
                            ++ s2l "/mtkennerly.ludusavi.locale.en-US.yaml") in
  spec_content ← read_bytes spec;
  spec_content ← decode spec_content;
  let spec_content :=
    py_replace (s2l "Moniker: ludusavi")
      (s2l "Moniker: ludusavi" ++ [LF] ++ s2l "ReleaseNotes: |-" ++ [LF] ++ changelog ++ [LF]
       ++ s2l "ReleaseNotesUrl: https://github.com/mtkennerly/ludusavi/releases/tag/v" ++ version)
      spec_content in
  write_bytes spec spec_content ;;
  run_in target (s2l "winget validate --manifest manifests/m/mtkennerly/ludusavi/" ++ version) ;;
  run_in target (s2l "git add .") ;;
  run_in target (s2l "git commit -m " ++ q (s2l "mtkennerly.ludusavi version " ++ version)) ;;
  run_in target (s2l "git push origin HEAD") ;;
  ret tt.

(** Running a task from the command line. *)
Definition run_task (t : task_call) : M unit :=
  match t with
  | TVersion => version
  | TLegal => legal
  | TFlatpak generator => flatpak generator
  | TLang jar => lang jar
  | TClean => clean
  | TDocs => docs
  | TDocsCli => docs_cli
  | TDocsSchema => docs_schema
  | TPrerelease new_version update_lang => prerelease new_version update_lang
  | TRelease => release
  | TReleaseFlatpak target => release_flatpak target
  | TReleaseWinget target => release_winget target
  end.

End Script.
End Tasks.

(** ** Properties the claims are stated with *)
Module Props.
Import Text Re Sys Tasks.

(** The license-bundling command of the [legal] task. *)
Definition lichking_cmd (c : text) : bool :=
  starts_with (s2l "cargo lichking bundle") c.

(** Every failed external command except the license bundler ends the
    computation with its [UnexpectedExit]: the commands run by [m] are the
    new entries of the trace. *)
Definition propagates {A} (m : M A) : Prop :=
  forall s, exists new,
    trace (snd (m s)) = new ++ trace s /\
    forall c, In (c, false) new -> lichking_cmd c = false ->
              fst (m s) = inl (UnexpectedExit c).

(** The same for every failed external command. *)
Definition propagates_all {A} (m : M A) : Prop :=
  forall s, exists new,
    trace (snd (m s)) = new ++ trace s /\
    forall c, In (c, false) new -> fst (m s) = inl (UnexpectedExit c).

(** A file the deduplication of [lang] considers: an entry of [lang/]
    matched by [*.ftl] whose name does not contain [en-US.ftl]. *)
Definition considered (ROOT : path) (f : fsys) (p : path) : bool :=
  in_dir (LANG ROOT) p && ends_with (s2l ".ftl") (name p)
  && negb (is_infix (s2l "en-US.ftl") (name p)) && bool_decide (is_Some (f !! p)).

(** A file system in which the parent of every entry is a directory. *)
Definition wf_fs (f : fsys) : Prop :=
  forall p n, f !! p = Some n -> is_dir f (parent p) = true.

(** [x] contains [C:\Users\<name>] with a non-empty name free of
    backslashes. *)
Definition has_user_path (x : text) : Prop :=
  exists a n b, x = a ++ s2l "C:\Users\" ++ n ++ b /\ n <> [] /\ Forall (fun c => c <> BS) n.

(** A line without any line boundary of [str.splitlines]. *)
Definition no_break (l : text) : bool := forallb (fun c => negb (is_linebreak c)) l.

(** [d] is an empty directory of [f]: an entry of [f] below [d] is [d]. *)
Definition empty_dir (f : fsys) (d : path) : Prop :=
  f !! d = Some Dir /\ forall p, d `prefix_of` p -> is_Some (f !! p) -> p = d.

(** [wf_fs] as a test. *)
Definition wf_fsb (f : fsys) : bool :=
  forallb (fun kv : path * node => is_dir f (parent kv.1)) (map_to_list f).

(** The text [p.read_text()] returns for a regular file. *)
Definition text_at (f : fsys) (p : path) : option text :=
  match f !! p with Some (File c) => Some (nl_translate c) | _ => None end.

(** [p] is a considered file whose text is also the text of another
    considered file. *)
Definition duplicated (ROOT : path) (f : fsys) (p : path) : Prop :=
  considered ROOT f p = true
  /\ exists p', p' <> p /\ considered ROOT f p' = true /\ text_at f p' = text_at f p.

(** The invariant of the mapping built by the loop of [lang] after it has
    visited the files [D]: its keys are distinct; each group is a set of
    visited, non-[en-US] files with the key as their text; every visited
    non-[en-US] file is in the group of its text. *)
Definition group_ok (f : fsys) (D : path -> Prop) (m : list (text * list path)) : Prop :=
  NoDup (map fst m)
  /\ (forall c g, In (c, g) m ->
        NoDup g /\ forall p, In p g ->
          D p /\ text_at f p = Some c /\ is_infix (s2l "en-US.ftl") (name p) = false)
  /\ (forall p, D p -> is_infix (s2l "en-US.ftl") (name p) = false ->
        exists c g, text_at f p = Some c /\ In (c, g) m /\ In p g).

(** The rewriting of line 51 of [legal]:
    [re.sub(r"C:\\Users\\[^\\]+", "~", raw)]. *)
Definition normalize_users (raw : text) : text :=
  re_sub re_users [PLit (s2l "~")] raw 0.

(** A computation that runs no external command. *)
Definition notrace {A} (m : M A) : Prop := forall s, trace (snd (m s)) = trace s.

(** The task names listed by the specification. *)
Definition spec_task_names : list text :=
  map s2l ["version"; "legal"; "flatpak"; "lang"; "clean"; "docs"; "docs_cli";
           "docs_schema"; "prerelease"; "release"; "release_flatpak"; "release_winget"].

(** The names under which invoke exposes the tasks. *)
Definition cli_task_names : list text :=
  map s2l ["version"; "legal"; "flatpak"; "lang"; "clean"; "docs"; "docs-cli";
           "docs-schema"; "prerelease"; "release"; "release-flatpak"; "release-winget"].

(** [r] matches at no position of [t] (the end of [t] included). *)
Definition no_match_in (r : regex) (t : text) : bool :=
  forallb (fun i => if match_at r (drop i t) then false else true) (seq 0 (S (length t))).

(** The last character of [l], if any, is not white space. *)
Definition no_trailing_space (l : text) : bool :=
  match rev l with c :: _ => negb (py_isspace c) | [] => true end.

(** Neither the first nor the last character of [x] is white space. *)
Definition stripped (x : text) : bool :=
  match x with c :: _ => negb (py_isspace c) | [] => true end && no_trailing_space x.

(** The prompt of [confirm] in the [release] task for version [v]. *)
Definition release_prompt (v : text) : text :=
  s2l "Confirm by typing '" ++ (s2l "release " ++ v) ++ s2l "': ".

(** The archive written by [legal] for version [v]. *)
Definition legal_zip_path (ROOT : path) (v : text) : path :=
  pjoin (pjoin ROOT (s2l "dist")) (s2l "ludusavi-v" ++ v ++ s2l "-legal.zip").

End Props.

(** ** Concrete inputs used by the witnesses and counterexamples *)
Module Fixtures.
Import Text Re Sys Tasks Props.

Definition ROOT0 : path := [s2l "repo"].

(** A checkout of the project, before [prerelease 1.0]. *)
Definition repo_fs : fsys :=
  list_to_map
    [([s2l "repo"], Dir);
     ([s2l "repo"; s2l "Cargo.toml"],
        File (s2l "[package]" ++ [LF] ++ s2l "name = " ++ q (s2l "ludusavi") ++ [LF]
              ++ s2l "version = " ++ q (s2l "0.9.0") ++ [LF]));
     ([s2l "repo"; s2l "CHANGELOG.md"], File (s2l "## Unreleased" ++ [LF] ++ s2l "* Fix" ++ [LF]));
     ([s2l "repo"; s2l ".github"], Dir);
     ([s2l "repo"; s2l ".github"; s2l "ISSUE_TEMPLATE"], Dir);
     ([s2l "repo"; s2l ".github"; s2l "ISSUE_TEMPLATE"; s2l "bug.yaml"],
        File (s2l "options:" ++ bug_indent ++ s2l "- v0.9.0" ++ bug_indent ++ s2l "- Other"));
     ([s2l "repo"; s2l "assets"], Dir);
     ([s2l "repo"; s2l "assets"; s2l "linux"], Dir);
     ([s2l "repo"; s2l "assets"; s2l "linux"; s2l "com.mtkennerly.ludusavi.metainfo.xml"],
        File (s2l "<releases>"));
     ([s2l "repo"; s2l "assets"; s2l "flatpak"], Dir);
     ([s2l "repo"; s2l "assets"; s2l "flatpak"; s2l "com.github.mtkennerly.ludusavi.metainfo.xml"],
        File (s2l "<releases>"))].

(** External commands that all succeed, except the license bundler, which
    writes its bundle and exits with an error. *)
Definition ext_bundler_fails (c : text) (f : fsys) : option text * fsys :=
  if lichking_cmd c
  then (None, <[legal_txt_path ROOT0 (s2l "1.0") := File (s2l "MIT: C:\Users\alice\src")]> f)
  else (Some [], f).

Definition answer0 (prompt : text) : text := [].
Definition today0 : text := s2l "2026-10-18".
Definition locked0 (p : path) : bool := false.

Definition st0 (f : fsys) : state := St f [] [].




(** A manifest with a version line and a line holding the byte 0xFF. *)
Definition badutf8_manifest_fs : fsys :=
  list_to_map
    [([s2l "repo"], Dir);
     ([s2l "repo"; s2l "Cargo.toml"],
        File (s2l "version = " ++ q (s2l "1.0") ++ [LF; ascii_of_nat 255; LF]))].

(** A checkout at version 1.0 with an existing [dist] directory. *)
Definition legal_fs : fsys :=
  list_to_map
    [([s2l "repo"], Dir);
     ([s2l "repo"; s2l "Cargo.toml"], File (s2l "version = " ++ q (s2l "1.0") ++ [LF]));
     ([s2l "repo"; s2l "dist"], Dir)].

(** A [lang] directory after a Crowdin pull: two translations that are
    still the English text, the English file, and one real translation. *)
Definition lang_file (n : string) : path := [s2l "repo"; s2l "lang"; s2l n].

Definition lang_fs : fsys :=
  list_to_map
    [([s2l "repo"], Dir);
     ([s2l "repo"; s2l "lang"], Dir);
     (lang_file "en-US.ftl", File (s2l "hello = Hello" ++ [LF]));
     (lang_file "de.ftl", File (s2l "hello = Hello" ++ [LF]));
     (lang_file "fr.ftl", File (s2l "hello = Hello" ++ [LF]));
     (lang_file "es.ftl", File (s2l "hello = Hola" ++ [LF]))].

(** Two translations that differ only in their line endings. *)
Definition crlf_lang_fs : fsys :=
  list_to_map
    [([s2l "repo"], Dir);
     ([s2l "repo"; s2l "lang"], Dir);
     (lang_file "de.ftl", File (s2l "hello = Hallo" ++ [CR; LF]));
     (lang_file "fr.ftl", File (s2l "hello = Hallo" ++ [LF]))].

(** A checkout where [dist] is a regular file. *)
Definition dist_file_fs : fsys :=
  list_to_map
    [([s2l "repo"], Dir);
     ([s2l "repo"; s2l "dist"], File (s2l "stale"))].

(** External commands that all succeed, print nothing and change no file. *)
Definition ext_ok (c : text) (f : fsys) : option text * fsys := (Some [], f).

(** External commands that all succeed and print help text with trailing
    blanks and a trailing blank line. *)
Definition ext_help (c : text) (f : fsys) : option text * fsys :=
  (Some (s2l "Usage: ludusavi   " ++ [LF] ++ s2l "  -h  " ++ [LF; LF]), f).

(** A user who types the confirmation in capitals. *)
Definition answer_release (prompt : text) : text := s2l "RELEASE 0.9.0".

(** A changelog with Windows line endings and no [## Unreleased] heading. *)
Definition crlf_changelog_fs : fsys :=
  list_to_map
    [([s2l "repo"], Dir);
     ([s2l "repo"; s2l "CHANGELOG.md"],
        File (s2l "## v1.0" ++ [CR; LF] ++ s2l "* Fix" ++ [CR; LF]))].

(** A Flatpak packaging checkout beside a built project: the manifest has
    its [tag:] line between two other lines. *)
Definition flatpak_fs : fsys :=
  list_to_map
    [([s2l "repo"], Dir);
     ([s2l "repo"; s2l "Cargo.toml"],
        File (s2l "[package]" ++ [LF] ++ s2l "version = " ++ q (s2l "1.0") ++ [LF]));
     ([s2l "repo"; s2l "dist"], Dir);
     ([s2l "repo"; s2l "dist"; s2l "generated-sources.json"], File (s2l "[]"));
     ([s2l "flathub"], Dir);
     ([s2l "flathub"; s2l "com.github.mtkennerly.ludusavi.yaml"],
        File (s2l "id: ludusavi" ++ [LF] ++ s2l "        tag: v0.9.0" ++ [LF]
              ++ s2l "        commit: abc" ++ [LF]))].

(** A winget fork holding the locale manifest of version 0.9.0. *)
Definition winget_fs : fsys :=
  let m := [s2l "winget"; s2l "manifests"; s2l "m"; s2l "mtkennerly"; s2l "ludusavi"; s2l "0.9.0"] in
  <[m ++ [s2l "mtkennerly.ludusavi.locale.en-US.yaml"] :=
      File (s2l "PackageIdentifier: mtkennerly.ludusavi" ++ [LF] ++ s2l "Moniker: ludusavi" ++ [LF]
            ++ s2l "License: MIT" ++ [LF])]>
  (<[m := Dir]> (<[take 5 m := Dir]> (<[take 4 m := Dir]> (<[take 3 m := Dir]>
  (<[take 2 m := Dir]> (<[take 1 m := Dir]> repo_fs)))))).

End Fixtures.

(** ** Proofs *)
Module Proofs.
Import Text Re Sys Tasks Props Fixtures.

(** *** The monad *)

Create HintDb trace_db.

Lemma notrace_ret {A} (x : A) : notrace (ret x).
Proof. intros s; reflexivity. Qed.

Lemma notrace_raise {A} e : notrace (@raise A e).
Proof. intros s; reflexivity. Qed.

Lemma notrace_mbind {A B} (m : M A) (k : A -> M B) :
  notrace m -> (forall x, notrace (k x)) -> notrace (m ≫= k).
Proof.
  intros Hm Hk s; unfold mbind, M_bind, bind; cbn.
  specialize (Hm s); destruct (m s) as [[e|x] s1]; cbn in *; [exact Hm|].
  rewrite Hk; exact Hm.
Qed.

Lemma notrace_bind {A B} (m : M A) (k : A -> M B) :
  notrace m -> (forall x, notrace (k x)) -> notrace (bind m k).
Proof. apply notrace_mbind. Qed.

Lemma notrace_for {A} (l : list A) (f : A -> M unit) :
  (forall x, notrace (f x)) -> notrace (for_ l f).
Proof.
  intros Hf; induction l as [|x l IH]; cbn; [apply notrace_ret|].
  apply notrace_mbind; auto.
Qed.

Ltac notrace_prim :=
  let s := fresh "s" in
  intros s; cbv beta delta [read_bytes write_node mkdir unlink rmtree_ignore glob_ftl
                            path_exists print get_fs modify_fs set_fs];
  cbn; repeat case_match; reflexivity.

Lemma notrace_read_bytes p : notrace (read_bytes p). Proof. notrace_prim. Qed.
Lemma notrace_write_node p n : notrace (write_node p n). Proof. notrace_prim. Qed.
Lemma notrace_mkdir p : notrace (mkdir p). Proof. notrace_prim. Qed.
Lemma notrace_unlink p : notrace (unlink p). Proof. notrace_prim. Qed.
Lemma notrace_rmtree l p : notrace (rmtree_ignore l p). Proof. notrace_prim. Qed.
Lemma notrace_glob p : notrace (glob_ftl p). Proof. notrace_prim. Qed.
Lemma notrace_exists p : notrace (path_exists p). Proof. notrace_prim. Qed.
Lemma notrace_print t : notrace (print t). Proof. notrace_prim. Qed.
Lemma notrace_get_fs : notrace get_fs. Proof. notrace_prim. Qed.
Lemma notrace_input a t : notrace (input a t). Proof. intros s; reflexivity. Qed.

Lemma notrace_write_bytes p c : notrace (write_bytes p c). Proof. apply notrace_write_node. Qed.
Lemma notrace_write_text p c : notrace (write_text p c). Proof. apply notrace_write_node. Qed.

Lemma notrace_decode c : notrace (decode c).
Proof. unfold decode; destruct (utf8_valid c); [apply notrace_ret|apply notrace_raise]. Qed.

Lemma notrace_py_re_sub r t x n : notrace (py_re_sub r t x n).
Proof. unfold py_re_sub; case_match; [apply notrace_ret|apply notrace_raise]. Qed.

Lemma notrace_read_text p : notrace (read_text p).
Proof.
  apply notrace_mbind; [apply notrace_read_bytes|intros].
  apply notrace_mbind; [apply notrace_decode|intros; apply notrace_ret].
Qed.

Lemma notrace_mkdir_parents p : notrace (mkdir_parents p).
Proof.
  unfold mkdir_parents; apply notrace_mbind; [|intros; apply notrace_mkdir].
  apply notrace_for; intros a s; cbn; repeat case_match; reflexivity.
Qed.

Lemma notrace_copy a b : notrace (copy a b).
Proof.
  unfold copy; apply notrace_mbind; [apply notrace_read_bytes|intros c].
  apply notrace_mbind; [apply notrace_get_fs|intros f].
  apply notrace_write_node.
Qed.

Lemma notrace_collect l m : notrace (collect l m).
Proof.
  revert m; induction l as [|f l IH]; intros m; cbn; [apply notrace_ret|].
  case_match; [apply IH|].
  apply notrace_mbind; [apply notrace_read_text|intros; apply IH].
Qed.

Lemma notrace_lang_dedup R : notrace (lang_dedup R).
Proof.
  unfold lang_dedup; apply notrace_mbind; [apply notrace_glob|intros files].
  apply notrace_mbind; [apply notrace_collect|intros mapping].
  apply notrace_for; intros g; case_match;
    [apply notrace_for; intros; apply notrace_unlink|apply notrace_ret].
Qed.

Lemma notrace_get_version R : notrace (get_version R).
Proof.
  unfold get_version; apply notrace_mbind; [apply notrace_read_text|intros c].
  case_match; [apply notrace_ret|apply notrace_raise].
Qed.

Lemma notrace_latest_changelog R : notrace (latest_changelog R).
Proof.
  unfold latest_changelog; apply notrace_mbind; [apply notrace_read_bytes|intros].
  apply notrace_mbind; [apply notrace_decode|intros; apply notrace_ret].
Qed.

Lemma notrace_replace a b c d : notrace (replace_pattern_in_file a b c d).
Proof.
  unfold replace_pattern_in_file; apply notrace_mbind; [apply notrace_read_text|intros].
  apply notrace_mbind; [apply notrace_py_re_sub|intros; apply notrace_write_node].
Qed.

Lemma notrace_legal_rest R v : notrace (legal_rest R v).
Proof.
  unfold legal_rest; cbv zeta.
  apply notrace_mbind; [apply notrace_read_text|intros raw].
  apply notrace_mbind; [apply notrace_py_re_sub|intros normalized].
  apply notrace_mbind; [apply notrace_write_node|intros _].
  apply notrace_mbind; [apply notrace_write_node|intros _].
  apply notrace_mbind; [apply notrace_read_bytes|intros c].
  apply notrace_write_node.
Qed.

Lemma notrace_clean R l : notrace (clean R l).
Proof.
  unfold clean; apply notrace_bind; [apply notrace_exists|intros b].
  apply notrace_mbind; [destruct b; [apply notrace_rmtree|apply notrace_ret]|intros; apply notrace_mkdir].
Qed.

Lemma notrace_confirm a p : notrace (confirm a p).
Proof.
  unfold confirm; apply notrace_mbind; [apply notrace_input|intros r].
  case_match; [apply notrace_ret|apply notrace_raise].
Qed.

(** *** Error propagation (claim C4) *)

Lemma propagates_notrace {A} (m : M A) : notrace m -> propagates m.
Proof.
  intros H s; exists []; split; [apply H|intros c []].
Qed.

Lemma propagates_mbind {A B} (m : M A) (k : A -> M B) :
  propagates m -> (forall x, propagates (k x)) -> propagates (m ≫= k).
Proof.
  intros Hm Hk s; unfold mbind, M_bind, bind.
  destruct (Hm s) as [new1 [Ht1 Hf1]].
  destruct (m s) as [[e|x] s1] eqn:E; cbn [fst snd] in *.
  - exists new1; split; [exact Ht1|].
    intros c Hin Hl; specialize (Hf1 c Hin Hl); congruence.
  - destruct (Hk x s1) as [new2 [Ht2 Hf2]].
    exists (new2 ++ new1); split.
    + rewrite Ht2, Ht1, app_assoc; reflexivity.
    + intros c Hin Hl. apply in_app_or in Hin as [Hin|Hin]; [now apply Hf2|].
      specialize (Hf1 c Hin Hl); discriminate.
Qed.

Lemma propagates_bind {A B} (m : M A) (k : A -> M B) :
  propagates m -> (forall x, propagates (k x)) -> propagates (bind m k).
Proof. apply propagates_mbind. Qed.

Lemma propagates_for {A} (l : list A) (f : A -> M unit) :
  (forall x, propagates (f x)) -> propagates (for_ l f).
Proof.
  intros Hf; induction l as [|x l IH]; cbn.
  - apply propagates_notrace, notrace_ret.
  - apply propagates_mbind; auto.
Qed.

Lemma propagates_run e c : propagates (run e c).
Proof.
  intros s; unfold run; destruct (e c (fs s)) as [[o|] f]; cbn.
  - exists [(c, true)]; split; [reflexivity|]. intros c' [H|[]]; discriminate.
  - exists [(c, false)]; split; [reflexivity|]. intros c' [H|[]] _; congruence.
Qed.

Lemma propagates_try_lichking e c :
  lichking_cmd c = true -> propagates (try_pass (run e c)).
Proof.
  intros Hl s; unfold try_pass, run; destruct (e c (fs s)) as [[o|] f]; cbn [fst snd is_exception].
  - exists [(c, true)]; split; [reflexivity|]. intros c' [H|[]]; discriminate.
  - exists [(c, false)]; split; [reflexivity|]. intros c' [H|[]] Hc; congruence.
Qed.

#[local] Hint Resolve notrace_ret notrace_raise notrace_read_bytes notrace_write_node
  notrace_write_bytes notrace_write_text
  notrace_mkdir notrace_unlink notrace_rmtree notrace_glob notrace_exists notrace_print
  notrace_get_fs notrace_input notrace_read_text notrace_mkdir_parents notrace_copy
  notrace_collect notrace_lang_dedup notrace_get_version notrace_latest_changelog
  notrace_replace notrace_legal_rest notrace_clean notrace_confirm
  notrace_decode notrace_py_re_sub : trace_db.

Create HintDb prop_db.

Ltac prop_step :=
  match goal with
  | |- propagates (_ ≫= _) => apply propagates_mbind; [|intro]
  | |- propagates (bind _ _) => apply propagates_bind; [|intro]
  | |- propagates (for_ _ _) => apply propagates_for; intro
  | |- propagates (run _ _) => apply propagates_run
  | |- propagates (run_in _ _ _) => unfold run_in; apply propagates_run
  | |- propagates (if ?b then _ else _) => destruct b
  | |- propagates (try_pass (run _ _)) => apply propagates_try_lichking; reflexivity
  | |- propagates _ => solve [auto with prop_db]
  | |- propagates _ => apply propagates_notrace; solve [auto with trace_db]
  end.

Ltac prop_solve := cbv zeta; repeat prop_step.

Lemma propagates_version R : propagates (version R).
Proof. unfold version; prop_solve. Qed.

Lemma propagates_legal R e : propagates (legal R e).
Proof. unfold legal; prop_solve. Qed.

Lemma propagates_flatpak R e g : propagates (flatpak R e g).
Proof. unfold flatpak; prop_solve. Qed.

Lemma propagates_lang R e j : propagates (lang R e j).
Proof. unfold lang; prop_solve. Qed.

Lemma propagates_clean R l : propagates (clean R l).
Proof. prop_solve. Qed.

Lemma propagates_docs_cli_loop e cmds lines : propagates (docs_cli_loop e cmds lines).
Proof.
  revert lines; induction cmds as [|c cmds IH]; intros lines; cbn; prop_solve.
Qed.

#[local] Hint Resolve propagates_docs_cli_loop : prop_db.

Lemma propagates_docs_cli R e : propagates (docs_cli R e).
Proof. unfold docs_cli; prop_solve. Qed.

Lemma propagates_docs_schema R e : propagates (docs_schema R e).
Proof. unfold docs_schema; prop_solve. Qed.

Lemma propagates_docs R e : propagates (docs R e).
Proof.
  unfold docs; apply propagates_mbind; [apply propagates_docs_cli|intros; apply propagates_docs_schema].
Qed.

#[local] Hint Resolve propagates_clean propagates_legal propagates_flatpak propagates_docs
  propagates_lang : prop_db.

Lemma propagates_prerelease R e t l v u : propagates (prerelease R e t l v u).
Proof.
  unfold prerelease; prop_solve.
Qed.

Lemma propagates_release R e a : propagates (release R e a).
Proof. unfold release; prop_solve. Qed.

Lemma propagates_release_flatpak R e t : propagates (release_flatpak R e t).
Proof. unfold release_flatpak; prop_solve. Qed.

Lemma propagates_release_winget R e t : propagates (release_winget R e t).
Proof. unfold release_winget; prop_solve. Qed.

Lemma get_version_state R s : snd (get_version R s) = s.
Proof.
  unfold get_version, read_text, read_bytes, decode, mbind, M_bind, bind, ret, raise; cbn.
  repeat case_match; simplify_eq/=; reflexivity.
Qed.

(** *** Text lemmas *)


Lemma eqb_LF_CR : Ascii.eqb LF CR = false. Proof. reflexivity. Qed.
Lemma linebreak_LF : is_linebreak LF = true. Proof. reflexivity. Qed.
Lemma linebreak_CR : is_linebreak CR = true. Proof. reflexivity. Qed.

Ltac simpl_chars := rewrite ?Ascii.eqb_refl, ?eqb_LF_CR, ?linebreak_LF, ?linebreak_CR.

Lemma splitlines_go_nl n : forall s cur, length s <= n ->
  map fst (splitlines_go (nl_translate s) cur) = map fst (splitlines_go s cur).
Proof.
  induction n as [|n IH]; intros s cur Hl.
  - destruct s; [reflexivity|cbn in Hl; lia].
  - destruct s as [|c t]; [reflexivity|].
    cbn [nl_translate]. destruct (Ascii.eqb c CR) eqn:Ec.
    + apply Ascii.eqb_eq in Ec; subst c.
      destruct t as [|d t'].
      * cbn [splitlines_go]; simpl_chars; reflexivity.
      * destruct (Ascii.eqb d LF) eqn:Ed.
        -- apply Ascii.eqb_eq in Ed; subst d. cbn [splitlines_go]; simpl_chars.
           cbn [map fst]; f_equal. apply IH; cbn in Hl; lia.
        -- cbn [splitlines_go]; simpl_chars; rewrite Ed.
           cbn [map fst]; f_equal. apply (IH (d :: t')); cbn in *; lia.
    + cbn [splitlines_go]; rewrite Ec.
      destruct (is_linebreak c); cbn [map fst]; [f_equal|]; apply IH; cbn in Hl; lia.
Qed.

Lemma splitlines_nl s : splitlines (nl_translate s) = splitlines s.
Proof. apply (splitlines_go_nl (length s)); lia. Qed.

Lemma splitlines_go_line l X cur :
  no_break l = true ->
  splitlines_go (l ++ LF :: X) cur = (rev cur ++ l, [LF]) :: splitlines_go X [].
Proof.
  revert cur; induction l as [|c l IH]; intros cur Hl.
  - cbn. rewrite app_nil_r; reflexivity.
  - cbn in Hl; apply andb_prop in Hl as [Hc Hl]; apply negb_true_iff in Hc.
    cbn [app splitlines_go].
    assert (Ascii.eqb c CR = false) as ->.
    { destruct (Ascii.eqb c CR) eqn:E; [apply Ascii.eqb_eq in E; subst; discriminate|reflexivity]. }
    rewrite Hc, IH by exact Hl. cbn; rewrite <- app_assoc; reflexivity.
Qed.

Lemma splitlines_lines before X :
  Forall (fun l => no_break l = true) before ->
  splitlines (concat (map (fun l => l ++ [LF]) before) ++ X) = before ++ splitlines X.
Proof.
  unfold splitlines; induction 1 as [|l before Hl _ IH]; [reflexivity|].
  cbn [map concat]; rewrite <- !app_assoc; cbn [app].
  rewrite splitlines_go_line by exact Hl; cbn; f_equal; exact IH.
Qed.

Lemma replace_fuel_no_occurrence f old new X :
  is_infix old X = false -> replace_fuel f old new X = X.
Proof.
  revert X; induction f as [|f IH]; intros X H; [reflexivity|].
  destruct X as [|c t]; [reflexivity|].
  cbn [replace_fuel]; cbn [is_infix] in H; apply orb_false_iff in H as [H1 H2].
  rewrite H1, IH by exact H2; reflexivity.
Qed.

Lemma starts_with_app_char p x c :
  starts_with p (x ++ [c]) = true -> starts_with p x = true \/ In c p.
Proof.
  revert x; induction p as [|a p IH]; intros x H; [left; reflexivity|].
  destruct x as [|d x]; cbn in H |- *.
  - apply andb_prop in H as [H _]; apply Ascii.eqb_eq in H; subst; right; left; reflexivity.
  - apply andb_prop in H as [Ha H]; rewrite Ha; cbn.
    destruct (IH x H) as [H'|H']; [left; exact H'|right; right; exact H'].
Qed.

Lemma is_infix_app_char p x c :
  p <> [] -> ~ In c p -> is_infix p x = false -> is_infix p (x ++ [c]) = false.
Proof.
  intros Hp Hc; induction x as [|d x IH]; intros H.
  - cbn. destruct (starts_with p [c]) eqn:E.
    + destruct (starts_with_app_char p [] c E) as [E'|E']; [|contradiction].
      destruct p; [contradiction|discriminate].
    + destruct p; [contradiction|reflexivity].
  - cbn [is_infix app] in H |- *; apply orb_false_iff in H as [H1 H2].
    rewrite IH by exact H2; rewrite orb_false_r.
    destruct (starts_with p (d :: x ++ [c])) eqn:E; [|reflexivity].
    destruct (starts_with_app_char p (d :: x) c E); [congruence|contradiction].
Qed.

Lemma lstrip_no_head p v : match v with c :: _ => p c = false | [] => True end ->
  lstrip_by p v = v.
Proof. destruct v as [|c v]; cbn; [reflexivity|]; intros ->; reflexivity. Qed.

Lemma strip_quotes_q v :
  starts_with [DQ] v = false -> ends_with [DQ] v = false -> strip_quotes (q v) = v.
Proof.
  intros Hs He; unfold strip_quotes, strip_by, rstrip_by, q; cbn [app lstrip_by].
  rewrite (Ascii.eqb_refl DQ).
  destruct v as [|c v']; [reflexivity|].
  assert (Ascii.eqb c DQ = false) as Hc.
  { cbn in Hs; rewrite andb_true_r, Ascii.eqb_sym in Hs; exact Hs. }
  cbn [app lstrip_by]; rewrite Hc.
  change (c :: v' ++ [DQ]) with ((c :: v') ++ [DQ]).
  rewrite rev_app_distr; unfold ends_with in He.
  destruct (rev (c :: v')) as [|d r] eqn:Er.
  - apply (f_equal (@length _)) in Er; rewrite length_rev in Er; discriminate.
  - assert (Ascii.eqb d DQ = false) as Hd.
    { cbn in He; rewrite andb_true_r, Ascii.eqb_sym in He; exact He. }
    change (rev [DQ] ++ d :: r) with (DQ :: d :: r).
    change (lstrip_by (fun c0 => Ascii.eqb c0 DQ) (DQ :: d :: r))
      with (if Ascii.eqb DQ DQ then lstrip_by (fun c0 => Ascii.eqb c0 DQ) (d :: r) else DQ :: d :: r).
    rewrite (Ascii.eqb_refl DQ).
    change (lstrip_by (fun c0 => Ascii.eqb c0 DQ) (d :: r))
      with (if Ascii.eqb d DQ then lstrip_by (fun c0 => Ascii.eqb c0 DQ) r else d :: r).
    rewrite Hd, <- Er, rev_involutive; reflexivity.
Qed.

Lemma version_from_lines_app before ls :
  Forall (fun l => starts_with (s2l "version =") l = false) before ->
  version_from_lines (before ++ ls) = version_from_lines ls.
Proof.
  induction 1 as [|l b Hl _ IH]; [reflexivity|]; cbn [app version_from_lines].
  rewrite Hl; exact IH.
Qed.

Lemma version_from_lines_none ls :
  version_from_lines ls = None <-> Forall (fun l => starts_with (s2l "version =") l = false) ls.
Proof.
  induction ls as [|l ls IH]; cbn [version_from_lines]; [split; auto|].
  destruct (starts_with (s2l "version =") l) eqn:E.
  - split; [discriminate|intros H; inversion H; congruence].
  - rewrite IH; split; [intros H; constructor; auto|intros H; inversion H; auto].
Qed.

Lemma get_version_file R s c :
  fs s !! pjoin R (s2l "Cargo.toml") = Some (File c) ->
  fst (get_version R s)
  = if utf8_valid c then
      match version_from_lines (splitlines c) with
      | Some v => inr v
      | None => inl (RuntimeError (s2l "Could not determine version"))
      end
    else inl UnicodeDecodeError.
Proof.
  intros H; unfold get_version, read_text, read_bytes, decode, mbind, M_bind, bind, ret, raise.
  cbv beta; rewrite H; cbv beta iota.
  destruct (utf8_valid c); [|reflexivity].
  rewrite splitlines_nl; case_match; reflexivity.
Qed.

Lemma get_version_valid R s c :
  fs s !! pjoin R (s2l "Cargo.toml") = Some (File c) -> utf8_valid c = true ->
  fst (get_version R s)
  = match version_from_lines (splitlines c) with
    | Some v => inr v
    | None => inl (RuntimeError (s2l "Could not determine version"))
    end.
Proof. intros H Hu; rewrite (get_version_file _ _ _ H), Hu; reflexivity. Qed.




(** *** Version parsing (claims C3 and C8) *)

Lemma starts_with_app_self p X : starts_with p (p ++ X) = true.
Proof. induction p as [|c p IH]; cbn; [reflexivity|]; rewrite Ascii.eqb_refl; exact IH. Qed.

Lemma replace_fuel_prefix f old new X :
  old <> [] -> replace_fuel (S f) old new (old ++ X) = new ++ replace_fuel f old new X.
Proof.
  destruct old as [|c o]; [contradiction|]; intros _.
  change (replace_fuel (S f) (c :: o) new ((c :: o) ++ X))
    with (if starts_with (c :: o) ((c :: o) ++ X)
          then new ++ replace_fuel f (c :: o) new (drop (length (c :: o)) ((c :: o) ++ X))
          else c :: replace_fuel f (c :: o) new (o ++ X)).
  rewrite starts_with_app_self, drop_app_length; reflexivity.
Qed.

Lemma no_break_app a b : no_break (a ++ b) = no_break a && no_break b.
Proof. apply forallb_app. Qed.

Lemma splitlines_line l X :
  no_break l = true -> splitlines (l ++ LF :: X) = l :: splitlines X.
Proof. intros H; unfold splitlines; rewrite splitlines_go_line by exact H; reflexivity. Qed.

Lemma DQ_not_in_version : ~ In DQ (s2l "version = ").
Proof. cbn; intuition discriminate. Qed.

Lemma py_replace_version_q v :
  is_infix (s2l "version = ") v = false ->
  py_replace (s2l "version = ") [] (s2l "version = " ++ q v) = q v.
Proof.
  intros Hv; unfold py_replace; rewrite replace_fuel_prefix by discriminate; cbn [app].
  apply replace_fuel_no_occurrence; unfold q; cbn [app].
  change (is_infix (s2l "version = ") (DQ :: v ++ [DQ]))
    with (starts_with (s2l "version = ") (DQ :: v ++ [DQ]) || is_infix (s2l "version = ") (v ++ [DQ])).
  change (starts_with (s2l "version = ") (DQ :: v ++ [DQ])) with false; cbn [orb].
  apply is_infix_app_char; [discriminate|apply DQ_not_in_version|exact Hv].
Qed.

Lemma version_line_starts x : starts_with (s2l "version =") (s2l "version = " ++ x) = true.
Proof. reflexivity. Qed.

(** *** Claim C4 *)

(** C4 (amended). In [legal], a failure of [cargo lichking bundle] is
    caught and ignored: [legal] goes on with the rest of its body in the
    state the failed command left.  In every task, a failure of any other
    external command propagates out of the task as its [UnexpectedExit]. *)
Theorem bundler_failure_ignored_other_failures_propagate :
  (forall ROOT ext s v f,
      fst (get_version ROOT s) = inr v ->
      ext (legal_bundle_cmd ROOT v) (fs s) = (None, f) ->
      legal ROOT ext s
      = legal_rest ROOT v (St f (out s) ((legal_bundle_cmd ROOT v, false) :: trace s)))
  /\ (forall ROOT ext answer today locked t,
        propagates (run_task ROOT ext answer today locked t)).
Proof.
  split.
  - intros ROOT ext s v f Hv He.
    pose proof (get_version_state ROOT s) as Hs.
    destruct (get_version ROOT s) as [r s1] eqn:E; cbn in Hv, Hs; subst r s1.
    unfold legal, mbind, M_bind, bind at 1; rewrite E.
    unfold bind, try_pass, run; rewrite He; reflexivity.
  - intros ROOT ext answer today locked t; destruct t; cbn [run_task].
    + apply propagates_version.
    + apply propagates_legal.
    + apply propagates_flatpak.
    + apply propagates_lang.
    + apply propagates_clean.
    + apply propagates_docs.
    + apply propagates_docs_cli.
    + apply propagates_docs_schema.
    + apply propagates_prerelease.
    + apply propagates_release.
    + apply propagates_release_flatpak.
    + apply propagates_release_winget.
Qed.

(** Witness: the first part of the C4 theorem, run on a checkout where the
    bundler writes its bundle and fails. *)
Lemma bundler_failure_ignored_witness :
  let s := st0 legal_fs in
  let v := s2l "1.0" in
  let f := snd (ext_bundler_fails (legal_bundle_cmd ROOT0 v) legal_fs) in
  fst (get_version ROOT0 s) = inr v
  /\ ext_bundler_fails (legal_bundle_cmd ROOT0 v) (fs s) = (None, f)
  /\ legal ROOT0 ext_bundler_fails s
     = legal_rest ROOT0 v (St f (out s) ((legal_bundle_cmd ROOT0 v, false) :: trace s)).
Proof.
  cbv zeta.
  assert (He : ext_bundler_fails (legal_bundle_cmd ROOT0 (s2l "1.0")) legal_fs
               = (None, snd (ext_bundler_fails (legal_bundle_cmd ROOT0 (s2l "1.0")) legal_fs))).
  { unfold ext_bundler_fails.
    replace (lichking_cmd (legal_bundle_cmd ROOT0 (s2l "1.0"))) with true
      by (vm_compute; reflexivity).
    reflexivity. }
  split; [vm_compute; reflexivity|].
  split; [exact He|].
  apply (proj1 bundler_failure_ignored_other_failures_propagate); [vm_compute; reflexivity|exact He].
Defined.

(** C4 counterexample: [prerelease] is a task other than [legal], and a
    failure of an external command run inside it (the license bundler,
    through its call of [legal]) is caught: [prerelease 1.0] on a checkout
    whose bundler fails completes normally. *)
Lemma bundler_failure_caught_in_prerelease :
  ~ (forall ROOT ext answer today locked t,
       task_name t <> s2l "legal" ->
       propagates_all (run_task ROOT ext answer today locked t)).
Proof.
  intros H.
  destruct (H ROOT0 ext_bundler_fails answer0 today0 locked0
              (TPrerelease (s2l "1.0") false)
              ltac:(intro Hc; vm_compute in Hc; discriminate) (st0 repo_fs))
    as [new [Ht Hf]].
  cbn [trace st0] in Ht; rewrite app_nil_r in Ht.
  assert (Hin : In (legal_bundle_cmd ROOT0 (s2l "1.0"), false) new).
  { rewrite <- Ht; vm_compute; repeat (first [left; reflexivity | right]). }
  specialize (Hf _ Hin); vm_compute in Hf; discriminate.
Qed.

(** *** Claim C5 *)

(** C5 (amended). The tasks of the script (the functions decorated with
    [@task]) are exactly version, legal, flatpak, lang, clean, docs,
    docs_cli, docs_schema, prerelease, release, release_flatpak and
    release_winget; invoke exposes them on its command line under the
    names version, legal, flatpak, lang, clean, docs, docs-cli,
    docs-schema, prerelease, release, release-flatpak and release-winget,
    and under no other name. *)
Theorem task_names_exact :
  (forall n, (exists t, task_name t = n) <-> In n spec_task_names)
  /\ (forall n, (exists t, cli_name t = n) <-> In n cli_task_names).
Proof.
  split; intros n; split.
  - intros [t <-]; destruct t; vm_compute; repeat (first [left; reflexivity | right]).
  - intros Hin; cbn [spec_task_names map In] in Hin.
    destruct Hin as [<-|[<-|[<-|[<-|[<-|[<-|[<-|[<-|[<-|[<-|[<-|[<-|[]]]]]]]]]]]]];
      [exists TVersion | exists TLegal | exists (TFlatpak []) | exists (TLang [])
      | exists TClean | exists TDocs | exists TDocsCli | exists TDocsSchema
      | exists (TPrerelease [] true) | exists TRelease | exists (TReleaseFlatpak [])
      | exists (TReleaseWinget [])]; reflexivity.
  - intros [t <-]; destruct t; vm_compute; repeat (first [left; reflexivity | right]).
  - intros Hin; cbn [cli_task_names map In] in Hin.
    destruct Hin as [<-|[<-|[<-|[<-|[<-|[<-|[<-|[<-|[<-|[<-|[<-|[<-|[]]]]]]]]]]]]];
      [exists TVersion | exists TLegal | exists (TFlatpak []) | exists (TLang [])
      | exists TClean | exists TDocs | exists TDocsCli | exists TDocsSchema
      | exists (TPrerelease [] true) | exists TRelease | exists (TReleaseFlatpak [])
      | exists (TReleaseWinget [])]; vm_compute; reflexivity.
Qed.

(** Counterexample: [docs_cli] is one of the names listed, but no task is
    exposed by invoke under that name (it is [docs-cli]). *)
Lemma task_names_underscore_counterexample :
  In (s2l "docs_cli") spec_task_names /\ ~ (exists t, cli_name t = s2l "docs_cli").
Proof.
  split.
  - cbn [spec_task_names map In]; do 6 right; left; reflexivity.
  - intros [t Ht]; destruct t; vm_compute in Ht; discriminate Ht.
Qed.

(** *** Claim C6 *)

(** C6. Running [docs] is running [docs_cli] and then [docs_schema]: same
    result, same final state (file system, output and commands run). *)
Theorem docs_is_docs_cli_then_docs_schema :
  forall ROOT ext answer today locked s,
    run_task ROOT ext answer today locked TDocs s
    = (run_task ROOT ext answer today locked TDocsCli ;;
       run_task ROOT ext answer today locked TDocsSchema) s.
Proof. reflexivity. Qed.


(** *** Claim C3 *)




(** *** Claim C8 *)

(** C8 (amended). Let the manifest [Cargo.toml] be present.  When it is
    valid UTF-8 without the line separators U+0085, U+2028 and U+2029,
    [get_version] raises [RuntimeError] exactly when no line of the
    manifest starts with [version =]; when some line does, it returns a
    value and raises nothing.  When the manifest is not valid UTF-8,
    [get_version] raises [UnicodeDecodeError]. *)
Theorem get_version_error_iff R s c :
  fs s !! pjoin R (s2l "Cargo.toml") = Some (File c) ->
  (utf8_valid c = true -> no_unicode_break c = true ->
   ((exists msg, fst (get_version R s) = inl (RuntimeError msg))
      <-> Forall (fun l => starts_with (s2l "version =") l = false) (splitlines c))
   /\ (Exists (fun l => starts_with (s2l "version =") l = true) (splitlines c) ->
       exists v, fst (get_version R s) = inr v))
  /\ (utf8_valid c = false -> fst (get_version R s) = inl UnicodeDecodeError).
Proof.
  intros Hf; split.
  - intros Hu _; rewrite (get_version_valid _ _ _ Hf Hu).
    destruct (version_from_lines (splitlines c)) as [v|] eqn:E.
    + split; [split|eauto].
      * intros [msg H]; discriminate.
      * intros H; apply version_from_lines_none in H; congruence.
    + apply version_from_lines_none in E; split; [split; eauto|].
      intros Hx; apply Exists_exists in Hx as [l [Hin Hl]].
      rewrite Forall_forall in E; specialize (E l Hin); congruence.
  - intros Hu; rewrite (get_version_file _ _ _ Hf), Hu; reflexivity.
Qed.

(** Witness: the project's manifest. *)
Lemma get_version_error_iff_witness :
  let c := s2l "[package]" ++ [LF] ++ s2l "name = " ++ q (s2l "ludusavi") ++ [LF]
           ++ s2l "version = " ++ q (s2l "0.9.0") ++ [LF] in
  fs (st0 repo_fs) !! pjoin ROOT0 (s2l "Cargo.toml") = Some (File c)
  /\ utf8_valid c = true /\ no_unicode_break c = true
  /\ ((exists msg, fst (get_version ROOT0 (st0 repo_fs)) = inl (RuntimeError msg))
       <-> Forall (fun l => starts_with (s2l "version =") l = false) (splitlines c))
  /\ (Exists (fun l => starts_with (s2l "version =") l = true) (splitlines c) ->
      exists v, fst (get_version ROOT0 (st0 repo_fs)) = inr v).
Proof.
  cbv zeta.
  assert (Hf : fs (st0 repo_fs) !! pjoin ROOT0 (s2l "Cargo.toml")
               = Some (File (s2l "[package]" ++ [LF] ++ s2l "name = " ++ q (s2l "ludusavi") ++ [LF]
                             ++ s2l "version = " ++ q (s2l "0.9.0") ++ [LF]))).
  { vm_compute; reflexivity. }
  assert (Hu : utf8_valid (s2l "[package]" ++ [LF] ++ s2l "name = " ++ q (s2l "ludusavi") ++ [LF]
                           ++ s2l "version = " ++ q (s2l "0.9.0") ++ [LF]) = true)
    by (vm_compute; reflexivity).
  assert (Hn : no_unicode_break (s2l "[package]" ++ [LF] ++ s2l "name = " ++ q (s2l "ludusavi") ++ [LF]
                                 ++ s2l "version = " ++ q (s2l "0.9.0") ++ [LF]) = true)
    by (vm_compute; reflexivity).
  split; [exact Hf|split; [exact Hu|split; [exact Hn|]]].
  exact (proj1 (get_version_error_iff _ _ _ Hf) Hu Hn).
Defined.

(** Counterexample: a manifest whose first line is [version = "1.0"] and
    whose second line is the byte 0xFF, which is not UTF-8: [get_version]
    raises [UnicodeDecodeError], although a line starts with [version =]. *)
Lemma get_version_undecodable_counterexample :
  let c := s2l "version = " ++ q (s2l "1.0") ++ [LF; ascii_of_nat 255; LF] in
  fs (st0 badutf8_manifest_fs) !! pjoin ROOT0 (s2l "Cargo.toml") = Some (File c)
  /\ Exists (fun l => starts_with (s2l "version =") l = true) (splitlines c)
  /\ fst (get_version ROOT0 (st0 badutf8_manifest_fs)) = inl UnicodeDecodeError.
Proof.
  cbv zeta; split; [vm_compute; reflexivity|split; [|vm_compute; reflexivity]].
  assert (Hs : splitlines (s2l "version = " ++ q (s2l "1.0") ++ [LF; ascii_of_nat 255; LF])
               = [s2l "version = " ++ q (s2l "1.0"); [ascii_of_nat 255]]) by (vm_compute; reflexivity).
  rewrite Hs; constructor; reflexivity.
Qed.

(** *** Claim C2 *)


Lemma ascii_utf8 c : ascii_text c = true -> utf8_valid c = true.
Proof.
  induction c as [|a c IH]; [reflexivity|]; cbn [ascii_text forallb utf8_valid].
  intros H; apply andb_prop in H as [Ha Hc]; fold (ascii_text c) in Hc.
  rewrite Ha; apply IH, Hc.
Qed.






(** *** Claim C7 *)

Lemma bind_inr {A B} (m : M A) (k : A -> M B) s r s' :
  bind m k s = (inr r, s') -> exists x s1, m s = (inr x, s1) /\ k x s1 = (inr r, s').
Proof. unfold bind; destruct (m s) as [[e|x] s1]; [discriminate|eauto]. Qed.

Lemma mkdir_inr p s s' :
  mkdir p s = (inr tt, s') ->
  fs s !! p = None /\ is_dir (fs s) (parent p) = true /\ s' = set_fs (<[p := Dir]> (fs s)) s.
Proof.
  unfold mkdir; intros H; case_bool_decide as E1; [discriminate|].
  destruct (is_dir (fs s) (parent p)) eqn:E2; [|discriminate].
  injection H as <-; split; [apply eq_None_not_Some; exact E1|auto].
Qed.

Lemma wf_fsb_wf f : wf_fsb f = true -> wf_fs f.
Proof.
  unfold wf_fsb; intros H p n Hp; apply forallb_forall with (x := (p, n)) in H; [exact H|].
  apply list_elem_of_In, elem_of_map_to_list; exact Hp.
Qed.

Lemma is_dir_cons f p : p <> [] -> is_dir f p = true -> f !! p = Some Dir.
Proof. destruct p; [contradiction|]; intros _ H; apply bool_decide_eq_true in H; exact H. Qed.

Lemma wf_absent_below f d :
  wf_fs f -> d <> [] -> f !! d = None -> forall p, d `prefix_of` p -> f !! p = None.
Proof.
  intros Hwf Hd Hn p [k ->]; induction k as [|x k IH] using rev_ind.
  - rewrite app_nil_r; exact Hn.
  - destruct (f !! (d ++ k ++ [x])) as [n|] eqn:E; [exfalso|reflexivity].
    apply Hwf in E; unfold parent in E; rewrite app_assoc, removelast_last in E.
    apply is_dir_cons in E; [congruence|].
    intros Hnil; apply app_eq_nil in Hnil as [? _]; contradiction.
Qed.

Lemma DIST_eq R : DIST R = R ++ [s2l "dist"].
Proof. reflexivity. Qed.

Lemma parent_DIST R : parent (DIST R) = R.
Proof. rewrite DIST_eq; apply removelast_last. Qed.

Lemma DIST_not_prefix R : ~ DIST R `prefix_of` R.
Proof.
  rewrite DIST_eq; intros H%prefix_length; rewrite length_app in H; cbn in H; lia.
Qed.

(** The entries left by [rmtree(DIST, ignore_errors=True)] on a directory. *)
Lemma rmtree_dir locked d s :
  fs s !! d = Some Dir ->
  rmtree_ignore locked d s
  = (inr tt, set_fs (filter (fun kv : path * node =>
        (negb (bool_decide (d `prefix_of` kv.1))
         || existsb (fun q' => bool_decide (kv.1 `prefix_of` q') && locked q')
                    (map fst (map_to_list (fs s)))) = true) (fs s)) s).
Proof. intros H; unfold rmtree_ignore; rewrite bool_decide_eq_true_2 by exact H; reflexivity. Qed.

Lemma rmtree_not_dir locked d s :
  fs s !! d <> Some Dir -> rmtree_ignore locked d s = (inr tt, s).
Proof. intros H; unfold rmtree_ignore; rewrite bool_decide_eq_false_2 by exact H; reflexivity. Qed.

Lemma clean_unfold R locked s :
  clean R locked s
  = (if bool_decide (is_Some (fs s !! DIST R))
     then bind (rmtree_ignore locked (DIST R)) (fun _ => mkdir (DIST R)) s
     else mkdir (DIST R) s).
Proof. unfold clean, bind at 1, path_exists; cbv beta iota; case_bool_decide; reflexivity. Qed.

(** C7. When [clean] completes, [dist] is a directory with nothing in it,
    whether it existed before or not.  Conversely [clean] completes when
    the checkout is a directory and [dist] is absent, or a directory none
    of whose entries is held by another process. *)
Theorem clean_leaves_empty_dist R locked s :
  wf_fs (fs s) ->
  (forall s', clean R locked s = (inr tt, s') -> empty_dir (fs s') (DIST R))
  /\ (is_dir (fs s) R = true ->
      (fs s !! DIST R = None
       \/ (fs s !! DIST R = Some Dir
           /\ forall p, DIST R `prefix_of` p -> is_Some (fs s !! p) -> locked p = false)) ->
      exists s', clean R locked s = (inr tt, s')).
Proof.
  intros Hwf; split.
  - intros s' H; rewrite clean_unfold in H; case_bool_decide as Hex.
    + apply bind_inr in H as [[] [s1 [Hr Hm]]].
      apply mkdir_inr in Hm as [Hn [_ ->]]; cbn [fs set_fs].
      split; [apply lookup_insert_eq|].
      intros p Hp [n Hn']; destruct (decide (p = DIST R)) as [->|Hne]; [reflexivity|exfalso].
      rewrite lookup_insert_ne in Hn' by congruence.
      destruct (decide (fs s !! DIST R = Some Dir)) as [Hd|Hd].
      * rewrite rmtree_dir in Hr by exact Hd; injection Hr as <-; cbn [fs set_fs] in Hn, Hn'.
        apply map_lookup_filter_Some in Hn' as [_ Hsurv]; cbn in Hsurv.
        rewrite bool_decide_eq_true_2 in Hsurv by exact Hp; cbn in Hsurv.
        apply existsb_exists in Hsurv as [q' [Hq' Hl]].
        apply andb_prop in Hl as [Hpq Hlock]; apply bool_decide_eq_true in Hpq.
        apply map_lookup_filter_None in Hn as [Hn|Hn]; [congruence|].
        apply (Hn Dir Hd); cbn.
        rewrite bool_decide_eq_true_2 by reflexivity; cbn.
        apply existsb_exists; exists q'; split; [exact Hq'|].
        rewrite Hlock, bool_decide_eq_true_2; [reflexivity|etrans; eauto].
      * rewrite rmtree_not_dir in Hr by exact Hd; injection Hr as <-.
        destruct Hex as [x Hx]; congruence.
    + apply mkdir_inr in H as [Hn [_ ->]]; cbn [fs set_fs].
      split; [apply lookup_insert_eq|].
      intros p Hp [n Hn']; destruct (decide (p = DIST R)) as [->|Hne]; [reflexivity|exfalso].
      rewrite lookup_insert_ne in Hn' by congruence.
      assert (HD : DIST R <> []).
      { rewrite DIST_eq; intros Hnil; apply app_eq_nil in Hnil as [_ ?]; discriminate. }
      rewrite (wf_absent_below (fs s) (DIST R) Hwf HD Hn p Hp) in Hn'; discriminate.
  - intros HR Hcase; rewrite clean_unfold.
    destruct Hcase as [Hn|[Hd Hfree]].
    + rewrite bool_decide_eq_false_2 by (rewrite Hn; apply is_Some_None).
      unfold mkdir; rewrite Hn, parent_DIST, HR; cbn; eauto.
    + rewrite bool_decide_eq_true_2 by (rewrite Hd; eauto).
      unfold bind; rewrite rmtree_dir by exact Hd; unfold mkdir; cbn [fs set_fs].
      set (keys := map fst (map_to_list (fs s))).
      assert (Hgone : existsb (fun q' => bool_decide (DIST R `prefix_of` q') && locked q') keys = false).
      { apply not_true_iff_false; intros Hx; apply existsb_exists in Hx as [q' [Hq' Hl]].
        apply andb_prop in Hl as [Hpq Hlock]; apply bool_decide_eq_true in Hpq.
        unfold keys in Hq'; apply in_map_iff in Hq' as [[k v] [<- Hkv]].
        apply list_elem_of_In, elem_of_map_to_list in Hkv; cbn [fst] in Hpq, Hlock.
        rewrite (Hfree k Hpq (mk_is_Some _ _ Hkv)) in Hlock; discriminate. }
      rewrite bool_decide_eq_false_2.
      2: { intros [x Hx]; apply map_lookup_filter_Some in Hx as [_ Hs]; cbn in Hs.
           rewrite bool_decide_eq_true_2 in Hs by reflexivity; cbn in Hs.
           fold keys in Hs; congruence. }
      rewrite parent_DIST.
      assert (Hdir : is_dir (filter (fun kv : path * node =>
        (negb (bool_decide (DIST R `prefix_of` kv.1))
         || existsb (fun q' => bool_decide (kv.1 `prefix_of` q') && locked q') keys) = true) (fs s)) R = true).
      { destruct R as [|r R']; [reflexivity|].
        apply bool_decide_eq_true, map_lookup_filter_Some; split.
        - apply is_dir_cons in HR; [exact HR|discriminate].
        - cbn; rewrite bool_decide_eq_false_2 by apply DIST_not_prefix; reflexivity. }
      rewrite Hdir; eauto.
Qed.

(** Witness: [clean] on a checkout with an existing [dist] directory. *)
Lemma clean_leaves_empty_dist_witness :
  wf_fs legal_fs
  /\ is_dir legal_fs ROOT0 = true
  /\ legal_fs !! DIST ROOT0 = Some Dir
  /\ (exists s', clean ROOT0 locked0 (st0 legal_fs) = (inr tt, s')
                 /\ empty_dir (fs s') (DIST ROOT0)).
Proof.
  assert (Hwf : wf_fs legal_fs) by (apply wf_fsb_wf; vm_compute; reflexivity).
  split; [exact Hwf|]; split; [vm_compute; reflexivity|]; split; [vm_compute; reflexivity|].
  destruct (proj2 (clean_leaves_empty_dist ROOT0 locked0 (st0 legal_fs) Hwf))
    as [s' Hs']; [vm_compute; reflexivity|right; split; [vm_compute; reflexivity|reflexivity]|].
  exists s'; split; [exact Hs'|].
  apply (proj1 (clean_leaves_empty_dist ROOT0 locked0 (st0 legal_fs) Hwf)); exact Hs'.
Defined.


(** *** Deduplication of [lang] (claims C1 and C9) *)

Lemma read_text_inr p s x s1 :
  read_text p s = (inr x, s1) ->
  s1 = s /\ exists c, fs s !! p = Some (File c) /\ utf8_valid c = true /\ x = nl_translate c.
Proof.
  unfold read_text, mbind, M_bind, bind, read_bytes, decode, ret, raise; cbv beta.
  destruct (fs s !! p) as [[c| |ms]|] eqn:E; intros H; try discriminate.
  destruct (utf8_valid c) eqn:Hu; [|discriminate].
  injection H as <- <-; eauto.
Qed.

Lemma unlink_inr p s s1 : unlink p s = (inr tt, s1) -> fs s1 = delete p (fs s).
Proof.
  unfold unlink; destruct (fs s !! p) as [[]|]; intros H; try discriminate;
    injection H as <-; reflexivity.
Qed.

Lemma for_cons_inr {A} (x : A) r f s s' :
  for_ (x :: r) f s = (inr tt, s') -> exists s1, f x s = (inr tt, s1) /\ for_ r f s1 = (inr tt, s').
Proof.
  cbn [for_]; unfold mbind, M_bind; intros H.
  apply bind_inr in H as [[] [s1 [H1 H2]]]; eauto.
Qed.

Lemma for_unlink l : forall s s',
  for_ l unlink s = (inr tt, s') ->
  forall p, fs s' !! p = if bool_decide (p ∈ l) then None else fs s !! p.
Proof.
  induction l as [|x r IH]; intros s s' H p.
  - cbn in H; injection H as <-; reflexivity.
  - apply for_cons_inr in H as [s1 [H1 H2]]; apply unlink_inr in H1.
    rewrite (IH _ _ H2 p), H1.
    case_bool_decide as Hr; [rewrite bool_decide_eq_true_2 by set_solver; reflexivity|].
    destruct (decide (p = x)) as [->|Hne].
    + rewrite bool_decide_eq_true_2 by set_solver; apply lookup_delete_eq.
    + rewrite bool_decide_eq_false_2 by set_solver; apply lookup_delete_ne; congruence.
Qed.

Lemma for_groups l : forall s s',
  for_ l (fun group => if 1 <? length group then for_ group unlink else ret tt) s = (inr tt, s') ->
  forall p, fs s' !! p
    = if existsb (fun g => (1 <? length g) && bool_decide (p ∈ g)) l then None else fs s !! p.
Proof.
  induction l as [|x r IH]; intros s s' H p.
  - cbn in H; injection H as <-; reflexivity.
  - apply for_cons_inr in H as [s1 [H1 H2]]; cbv beta in H1.
    rewrite (IH _ _ H2 p); cbn [existsb].
    destruct (existsb _ r); [rewrite orb_true_r; reflexivity|rewrite orb_false_r].
    destruct (1 <? length x); cbn [andb].
    + exact (for_unlink x _ _ H1 p).
    + cbn in H1; injection H1 as <-; reflexivity.
Qed.

Lemma add_in_inv m c p c' g' :
  In (c', g') (add_to_mapping m c p) ->
  In (c', g') m \/ (c' = c /\ (g' = [p] \/ exists g, In (c, g) m /\ g' = p :: g)).
Proof.
  induction m as [|[c0 g0] m IH]; cbn [add_to_mapping].
  - intros [H|[]]; injection H as <- <-; auto.
  - case_bool_decide as E; subst.
    + intros [H|H]; [injection H as <- <-; right; split; [reflexivity|right]; exists g0; cbn; auto|].
      left; right; exact H.
    + intros [H|H]; [left; left; exact H|].
      destruct (IH H) as [H'|[-> [->|[g [Hg ->]]]]]; [left; right; exact H'|auto|].
      right; split; [reflexivity|right]; exists g; cbn; auto.
Qed.

Lemma add_new m c p g :
  NoDup (map fst m) -> In (c, g) m -> In (c, p :: g) (add_to_mapping m c p).
Proof.
  induction m as [|[c0 g0] m IH]; [intros _ []|]; cbn [add_to_mapping map fst].
  intros Hnd Hin; inversion Hnd as [|? ? Hc0 Hnd']; subst.
  destruct Hin as [Heq|Hin].
  - injection Heq as -> ->; rewrite bool_decide_eq_true_2 by reflexivity; left; reflexivity.
  - case_bool_decide as E; subst.
    + exfalso; apply Hc0, list_elem_of_In, in_map_iff; exists (c0, g); auto.
    + right; apply IH; assumption.
Qed.

Lemma add_keep m c p c' g' :
  In (c', g') m -> c' <> c -> In (c', g') (add_to_mapping m c p).
Proof.
  induction m as [|[c0 g0] m IH]; [intros []|]; cbn [add_to_mapping].
  intros [Heq|Hin] Hne.
  - injection Heq as -> ->; rewrite bool_decide_eq_false_2 by congruence; left; reflexivity.
  - case_bool_decide; right; [exact Hin|apply IH; assumption].
Qed.

Lemma add_mem m c p : exists g', In (c, g') (add_to_mapping m c p) /\ In p g'.
Proof.
  induction m as [|[c0 g0] m IH]; cbn [add_to_mapping].
  - exists [p]; cbn; auto.
  - case_bool_decide; subst.
    + exists (p :: g0); cbn; auto.
    + destruct IH as [g' [H1 H2]]; exists g'; cbn; auto.
Qed.

Lemma add_keys_in m c p k :
  In k (map fst (add_to_mapping m c p)) -> In k (map fst m) \/ k = c.
Proof.
  induction m as [|[c0 g0] m IH]; cbn [add_to_mapping map fst].
  - intros [<-|[]]; auto.
  - case_bool_decide as E; cbn [map fst]; intros [<-|Hk];
      [left; left; reflexivity| |left; left; reflexivity|].
    + left; right; exact Hk.
    + destruct (IH Hk); [left; right|right]; assumption.
Qed.

Lemma add_keys m c p : NoDup (map fst m) -> NoDup (map fst (add_to_mapping m c p)).
Proof.
  induction m as [|[c0 g0] m IH]; cbn [add_to_mapping map fst].
  - intros _; apply NoDup_singleton.
  - intros Hnd; inversion Hnd as [|? ? Hc0 Hnd']; subst.
    case_bool_decide as E; cbn [map fst]; [exact Hnd|].
    constructor; [|apply IH; exact Hnd'].
    intros Hin; apply list_elem_of_In, add_keys_in in Hin as [Hin| ->];
      [apply Hc0, list_elem_of_In; exact Hin|congruence].
Qed.

Lemma keys_unique (m : list (text * list path)) c g g' :
  NoDup (map fst m) -> In (c, g) m -> In (c, g') m -> g = g'.
Proof.
  induction m as [|[c0 g0] m IH]; [intros _ []|]; cbn [map fst].
  intros Hnd; inversion Hnd as [|? ? Hc0 Hnd']; subst.
  intros [H|H] [H'|H'].
  - congruence.
  - injection H as -> ->; exfalso; apply Hc0, list_elem_of_In, in_map_iff; exists (c, g'); auto.
  - injection H' as -> ->; exfalso; apply Hc0, list_elem_of_In, in_map_iff; exists (c, g); auto.
  - apply IH; assumption.
Qed.

Lemma group_ok_ext f (D D' : path -> Prop) m :
  (forall q, D q <-> D' q) -> group_ok f D m -> group_ok f D' m.
Proof.
  intros HD [Hk [H1 H2]]; split; [exact Hk|split].
  - intros c g Hin; destruct (H1 c g Hin) as [Hnd Hm]; split; [exact Hnd|].
    intros q Hq; destruct (Hm q Hq) as (Hd & Ht & Hn); split; [apply HD; exact Hd|auto].
  - intros q Hq; apply H2, HD; exact Hq.
Qed.

Lemma group_ok_skip f D m p :
  group_ok f D m -> is_infix (s2l "en-US.ftl") (name p) = true ->
  group_ok f (fun q => q = p \/ D q) m.
Proof.
  intros [Hk [H1 H2]] Hen; split; [exact Hk|split].
  - intros c g Hin; destruct (H1 c g Hin) as [Hnd Hm]; split; [exact Hnd|].
    intros q Hq; destruct (Hm q Hq) as (Hd & Ht & Hn); auto.
  - intros q [->|Hq] Hn; [congruence|apply H2; assumption].
Qed.

Lemma group_ok_add f D m p c :
  group_ok f D m -> ~ D p -> text_at f p = Some c ->
  is_infix (s2l "en-US.ftl") (name p) = false ->
  group_ok f (fun q => q = p \/ D q) (add_to_mapping m c p).
Proof.
  intros [Hk [H1 H2]] Hp Ht Hn; split; [apply add_keys; exact Hk|split].
  - intros c' g' Hin; apply add_in_inv in Hin as [Hin|[-> [->|[g [Hg ->]]]]].
    + destruct (H1 _ _ Hin) as [Hnd Hm]; split; [exact Hnd|].
      intros q Hq; destruct (Hm q Hq) as (? & ? & ?); auto.
    + split; [apply NoDup_singleton|].
      intros q [<-|[]]; auto.
    + destruct (H1 _ _ Hg) as [Hnd Hm]; split.
      * constructor; [intros Hq%list_elem_of_In; apply Hp, (Hm p Hq)|exact Hnd].
      * intros q [<-|Hq]; [auto|destruct (Hm q Hq) as (? & ? & ?); auto].
  - intros q [->|Hq] Hqn.
    + destruct (add_mem m c p) as [g' [H H']]; exists c, g'; auto.
    + destruct (H2 q Hq Hqn) as (c' & g & Ht' & Hin & Hqg).
      destruct (decide (c' = c)) as [->|Hne].
      * exists c, (p :: g); split; [exact Ht'|split; [apply add_new; assumption|right; exact Hqg]].
      * exists c', g; split; [exact Ht'|split; [apply add_keep; assumption|exact Hqg]].
Qed.

Lemma collect_ok files : forall D m s m' s',
  collect files m s = (inr m', s') -> NoDup files ->
  (forall p, In p files -> ~ D p) -> group_ok (fs s) D m ->
  s' = s /\ group_ok (fs s) (fun q => In q files \/ D q) m'.
Proof.
  induction files as [|p rest IH]; intros D m s m' s' H Hnd Hdisj Hok.
  - cbn in H; injection H as <- <-; split; [reflexivity|].
    apply (group_ok_ext _ D); [intros q; cbn; tauto|exact Hok].
  - inversion Hnd as [|? ? Hpn Hnd']; subst.
    cbn [collect] in H; destruct (is_infix _ (name p)) eqn:En.
    + apply IH with (D := fun q => q = p \/ D q) in H as [-> Hok'].
      * split; [reflexivity|]; eapply group_ok_ext; [|exact Hok'].
        intros q; cbn; split; [intros [H0|[H0|H0]]|intros [[H0|H0]|H0]]; subst; auto.
      * exact Hnd'.
      * intros q Hq [->|Hd]; [apply Hpn, list_elem_of_In; exact Hq|].
        apply (Hdisj q); [right; exact Hq|exact Hd].
      * apply group_ok_skip; assumption.
    + unfold mbind, M_bind in H; apply bind_inr in H as [x [s1 [Hr Hc]]].
      apply read_text_inr in Hr as [-> [c [Hf [_ ->]]]].
      apply IH with (D := fun q => q = p \/ D q) in Hc as [-> Hok'].
      * split; [reflexivity|]; eapply group_ok_ext; [|exact Hok'].
        intros q; cbn; split; [intros [H0|[H0|H0]]|intros [[H0|H0]|H0]]; subst; auto.
      * exact Hnd'.
      * intros q Hq [->|Hd]; [apply Hpn, list_elem_of_In; exact Hq|].
        apply (Hdisj q); [right; exact Hq|exact Hd].
      * apply group_ok_add; [exact Hok|apply Hdisj; left; reflexivity| |exact En].
        unfold text_at; rewrite Hf; reflexivity.
Qed.


Lemma considered_glob R f p :
  considered R f p = true <->
  p ∈ filter (fun q => in_dir (LANG R) q && ends_with (s2l ".ftl") (name q)) (map fst (map_to_list f))
  /\ is_infix (s2l "en-US.ftl") (name p) = false.
Proof.
  unfold considered; rewrite list_elem_of_filter, list_elem_of_fmap.
  destruct (in_dir (LANG R) p && ends_with (s2l ".ftl") (name p)); cbn.
  - split.
    + intros H; rewrite andb_true_iff, negb_true_iff, bool_decide_eq_true in H.
      destruct H as [Hn [n Hn']]; split; [split; [exact I|]|exact Hn].
      exists (p, n); split; [reflexivity|apply elem_of_map_to_list; exact Hn'].
    + intros [[_ [[k n] [-> Hkn]]] Hn]; apply elem_of_map_to_list in Hkn.
      change ((k, n).1) with k in *; rewrite Hn; cbn [negb andb].
      apply bool_decide_eq_true; eexists; exact Hkn.
  - split; [discriminate|intros [[[] _] _]].
Qed.


Lemma two_in_length {A} (l : list A) a b : In a l -> In b l -> a <> b -> 1 < length l.
Proof.
  destruct l as [|x [|y l]]; cbn; intros Ha Hb Hne; [destruct Ha| |lia].
  destruct Ha as [<-|[]]; destruct Hb as [<-|[]]; contradiction.
Qed.

Lemma nodup_other (l : list path) a : NoDup l -> 1 < length l -> exists b, In b l /\ b <> a.
Proof.
  destruct l as [|x [|y l]]; cbn; intros Hnd Hl; try lia.
  inversion Hnd as [|? ? Hx _]; subst.
  destruct (decide (x = a)) as [->|Hne].
  - exists y; split; [right; left; reflexivity|intros ->; apply Hx; left].
  - exists x; auto.
Qed.

(** The effect of the deduplication step on the file system: exactly the
    duplicated files are deleted. *)
Lemma lang_dedup_spec R s s' :
  lang_dedup R s = (inr tt, s') ->
  forall p, exists b : bool,
    (b = true <-> duplicated R (fs s) p) /\ fs s' !! p = if b then None else fs s !! p.
Proof.
  unfold lang_dedup, mbind, M_bind; intros H.
  apply bind_inr in H as [files [s1 [Hg H]]].
  unfold glob_ftl in Hg; injection Hg as <- <-.
  apply bind_inr in H as [m [s2 [Hc H]]].
  apply collect_ok with (D := fun _ => False) in Hc as [-> [Hk [H1 H2]]].
  2: { apply NoDup_filter, NoDup_fst_map_to_list. }
  2: { intros _ _ []. }
  2: { split; [constructor|split; [intros c g []|intros q []]]. }
  set (files := filter _ _) in H1, H2.
  intros p; exists (existsb (fun g => (1 <? length g) && bool_decide (p ∈ g)) (map snd m)).
  split; [|exact (for_groups _ _ _ H p)].
  assert (Hiff : existsb (fun g => (1 <? length g) && bool_decide (p ∈ g)) (map snd m) = true
                 <-> duplicated R (fs s) p).
  { rewrite existsb_exists; split.
    - intros [g [Hg Hb]]; apply andb_prop in Hb as [Hl Hp].
      apply Nat.ltb_lt in Hl; apply bool_decide_eq_true, list_elem_of_In in Hp.
      apply in_map_iff in Hg as [[c g'] [<- Hcg]]; cbn in Hl, Hp |- *.
      destruct (H1 c g' Hcg) as [Hnd Hm].
      destruct (nodup_other g' p Hnd Hl) as [p' [Hp' Hne]].
      destruct (Hm p Hp) as ([Hf|[]] & Ht & Hn).
      destruct (Hm p' Hp') as ([Hf'|[]] & Ht' & Hn').
      split; [apply considered_glob; split; [apply list_elem_of_In; exact Hf|exact Hn]|].
      exists p'; split; [exact Hne|split; [|congruence]].
      apply considered_glob; split; [apply list_elem_of_In; exact Hf'|exact Hn'].
    - intros [Hc [p' [Hne [Hc' Ht]]]].
      apply considered_glob in Hc as [Hf Hn]; apply considered_glob in Hc' as [Hf' Hn'].
      apply list_elem_of_In in Hf, Hf'.
      destruct (H2 p (or_introl Hf) Hn) as (c & g & Htc & Hcg & Hpg).
      destruct (H2 p' (or_introl Hf') Hn') as (c' & g' & Htc' & Hcg' & Hpg').
      assert (c' = c) as -> by congruence.
      rewrite (keys_unique m c g g' Hk Hcg Hcg') in Hpg.
      exists g'; split; [apply in_map_iff; exists (c, g'); auto|].
      apply andb_true_intro; split.
      + apply Nat.ltb_lt, (two_in_length g' p p'); auto.
      + apply bool_decide_eq_true, list_elem_of_In; exact Hpg. }
  exact Hiff.
Qed.

Lemma pair_of_fst {A B} (x : A * B) a : fst x = a -> x = (a, snd x).
Proof. destruct x; cbn; intros ->; reflexivity. Qed.

(** *** Claim C1 *)

(** C1 (amended). When the deduplication step of [lang] completes, every
    considered file (an [.ftl] file of [lang/] whose name does not contain
    [en-US.ftl]) whose text is also the text of another considered file is
    deleted: of a set of two or more such files with the same content, none
    remains. *)
Theorem lang_dedup_removes_every_duplicate R s s' :
  lang_dedup R s = (inr tt, s') ->
  forall p p', p <> p' ->
    considered R (fs s) p = true -> considered R (fs s) p' = true ->
    text_at (fs s) p = text_at (fs s) p' ->
    fs s' !! p = None /\ fs s' !! p' = None.
Proof.
  intros H p p' Hne Hc Hc' Ht.
  destruct (lang_dedup_spec R s s' H p) as [b [Hb Hp]].
  destruct (lang_dedup_spec R s s' H p') as [b' [Hb' Hp']].
  assert (b = true) as Eb by (apply Hb; split; [exact Hc|exists p'; auto]).
  assert (b' = true) as Eb' by (apply Hb'; split; [exact Hc'|exists p; auto]).
  rewrite Hp, Hp', Eb, Eb'; auto.
Qed.

(** Witness: the two untranslated copies [de.ftl] and [fr.ftl]. *)
Lemma lang_dedup_removes_every_duplicate_witness :
  let s := st0 lang_fs in
  let s' := snd (lang_dedup ROOT0 s) in
  lang_dedup ROOT0 s = (inr tt, s')
  /\ lang_file "de.ftl" <> lang_file "fr.ftl"
  /\ considered ROOT0 (fs s) (lang_file "de.ftl") = true
  /\ considered ROOT0 (fs s) (lang_file "fr.ftl") = true
  /\ text_at (fs s) (lang_file "de.ftl") = text_at (fs s) (lang_file "fr.ftl")
  /\ fs s' !! lang_file "de.ftl" = None /\ fs s' !! lang_file "fr.ftl" = None.
Proof.
  cbv zeta.
  assert (Hr : lang_dedup ROOT0 (st0 lang_fs) = (inr tt, snd (lang_dedup ROOT0 (st0 lang_fs))))
    by (apply pair_of_fst; vm_compute; reflexivity).
  assert (Hne : lang_file "de.ftl" <> lang_file "fr.ftl")
    by (intros Hx; vm_compute in Hx; discriminate Hx).
  assert (Hc : considered ROOT0 (fs (st0 lang_fs)) (lang_file "de.ftl") = true)
    by (vm_compute; reflexivity).
  assert (Hc' : considered ROOT0 (fs (st0 lang_fs)) (lang_file "fr.ftl") = true)
    by (vm_compute; reflexivity).
  assert (Ht : text_at (fs (st0 lang_fs)) (lang_file "de.ftl")
               = text_at (fs (st0 lang_fs)) (lang_file "fr.ftl"))
    by (vm_compute; reflexivity).
  do 5 (split; [assumption|]).
  exact (lang_dedup_removes_every_duplicate ROOT0 (st0 lang_fs) _ Hr _ _ Hne Hc Hc' Ht).
Defined.

(** Counterexample: [de.ftl] and [fr.ftl] have identical bytes, and after
    the deduplication step neither of them is left. *)
Lemma lang_dedup_leaves_no_copy_counterexample :
  let s' := snd (lang_dedup ROOT0 (st0 lang_fs)) in
  fst (lang_dedup ROOT0 (st0 lang_fs)) = inr tt
  /\ lang_fs !! lang_file "de.ftl" = Some (File (s2l "hello = Hello" ++ [LF]))
  /\ lang_fs !! lang_file "fr.ftl" = Some (File (s2l "hello = Hello" ++ [LF]))
  /\ fs s' !! lang_file "de.ftl" = None /\ fs s' !! lang_file "fr.ftl" = None.
Proof. cbv zeta; repeat split; vm_compute; reflexivity. Qed.

(** *** Claim C9 *)

Lemma read_text_state p s : snd (read_text p s) = s.
Proof.
  unfold read_text, read_bytes, decode, mbind, M_bind, bind, ret, raise; cbn.
  repeat case_match; simplify_eq/=; reflexivity.
Qed.

(** The loop over the files reads only: whatever its outcome, it leaves
    the state as it was. *)
Lemma collect_state files : forall m s, snd (collect files m s) = s.
Proof.
  induction files as [|p rest IH]; intros m s; cbn [collect]; [reflexivity|].
  destruct (is_infix _ (name p)); [apply IH|].
  unfold mbind, M_bind, bind.
  pose proof (read_text_state p s) as Hs.
  destruct (read_text p s) as [[e|c] s1]; cbn in Hs |- *; subst s1; [reflexivity|apply IH].
Qed.

(** Whatever its outcome, [for file in group: file.unlink()] deletes only
    files of the group. *)
Lemma for_unlink_any l : forall s p,
  fs (snd (for_ l unlink s)) !! p = fs s !! p
  \/ (fs (snd (for_ l unlink s)) !! p = None /\ In p l).
Proof.
  induction l as [|x r IH]; intros s p; cbn [for_]; [left; reflexivity|].
  unfold mbind, M_bind, bind.
  destruct (unlink x s) as [[e|[]] s1] eqn:E.
  - left; unfold unlink in E; destruct (fs s !! x) as [[]|]; cbn; congruence.
  - assert (Hs1 : fs s1 = delete x (fs s)).
    { unfold unlink in E; destruct (fs s !! x) as [[]|]; try discriminate;
        injection E as <-; reflexivity. }
    destruct (IH s1 p) as [H|[H Hin]].
    + rewrite H, Hs1; destruct (decide (p = x)) as [->|Hne].
      * right; split; [apply lookup_delete_eq|left; reflexivity].
      * left; apply lookup_delete_ne; congruence.
    + right; split; [exact H|right; exact Hin].
Qed.

(** Whatever its outcome, the loop over the groups deletes only files of
    groups of two or more. *)
Lemma for_groups_any l : forall s p,
  let m := for_ l (fun group => if 1 <? length group then for_ group unlink else ret tt) in
  fs (snd (m s)) !! p = fs s !! p
  \/ (fs (snd (m s)) !! p = None /\ exists g, In g l /\ 1 < length g /\ In p g).
Proof.
  induction l as [|x r IH]; intros s p; cbv zeta; cbn [for_]; [left; reflexivity|].
  unfold mbind, M_bind, bind.
  destruct (1 <? length x) eqn:Ex.
  - pose proof (for_unlink_any x s p) as Hx.
    destruct (for_ x unlink s) as [[e|[]] s1] eqn:E; cbn [snd] in Hx |- *.
    + destruct Hx as [H|[H Hin]]; [left; exact H|right; split; [exact H|]].
      exists x; split; [left; reflexivity|split; [apply Nat.ltb_lt; exact Ex|exact Hin]].
    + destruct (IH s1 p) as [H|[H (g & Hg & Hl & Hp)]].
      * rewrite H; destruct Hx as [Hx|[Hx Hin]]; [left; exact Hx|right; split; [exact Hx|]].
        exists x; split; [left; reflexivity|split; [apply Nat.ltb_lt; exact Ex|exact Hin]].
      * right; split; [exact H|exists g; split; [right; exact Hg|split; assumption]].
  - change (ret tt s) with (@inr exn unit tt, s); cbv beta iota.
    destruct (IH s p) as [H|[H (g & Hg & Hl & Hp)]]; [left; exact H|].
    right; split; [exact H|exists g; split; [right; exact Hg|split; assumption]].
Qed.

(** A file of a group of two or more built by the loop over the files is
    duplicated and does not have [en-US.ftl] in its name. *)
Lemma collect_group_dup R s m s' g p :
  collect (filter (fun q => in_dir (LANG R) q && ends_with (s2l ".ftl") (name q))
                  (map fst (map_to_list (fs s)))) [] s = (inr m, s') ->
  In g (map snd m) -> 1 < length g -> In p g ->
  is_infix (s2l "en-US.ftl") (name p) = false /\ duplicated R (fs s) p.
Proof.
  intros Hc Hg Hl Hp.
  apply collect_ok with (D := fun _ => False) in Hc as [-> [Hk [H1 H2]]].
  2: { apply NoDup_filter, NoDup_fst_map_to_list. }
  2: { intros _ _ []. }
  2: { split; [constructor|split; [intros c g0 []|intros q []]]. }
  apply in_map_iff in Hg as [[c g'] [<- Hcg]]; cbn in Hl, Hp |- *.
  destruct (H1 c g' Hcg) as [Hnd Hm].
  destruct (nodup_other g' p Hnd Hl) as [p' [Hp' Hne]].
  destruct (Hm p Hp) as ([Hf|[]] & Ht & Hn).
  destruct (Hm p' Hp') as ([Hf'|[]] & Ht' & Hn').
  split; [exact Hn|].
  split; [apply considered_glob; split; [apply list_elem_of_In; exact Hf|exact Hn]|].
  exists p'; split; [exact Hne|split; [|congruence]].
  apply considered_glob; split; [apply list_elem_of_In; exact Hf'|exact Hn'].
Qed.

(** C9 (amended). Whatever the outcome of the deduplication step of
    [lang] (it completes, or stops on an error while reading or deleting
    a file), a file it changes is deleted, does not have [en-US.ftl] in
    its name, is considered, and has the same text as another considered
    file.  The text is what [read_text] returns, after the translation of
    line endings. *)
Theorem lang_dedup_deletes_only_duplicates R s p :
  fs (snd (lang_dedup R s)) !! p <> fs s !! p ->
  fs (snd (lang_dedup R s)) !! p = None
  /\ is_infix (s2l "en-US.ftl") (name p) = false
  /\ duplicated R (fs s) p.
Proof.
  intros Hch; unfold lang_dedup, mbind, M_bind, bind, glob_ftl in *; cbv beta iota in *.
  set (files := filter _ _) in *.
  pose proof (collect_state files [] s) as Hs.
  destruct (collect files [] s) as [[e|m] s2] eqn:Ec; cbn [snd] in Hs, Hch |- *; subst s2;
    [contradiction|].
  destruct (for_groups_any (map snd m) s p) as [H|[H (g & Hg & Hl & Hp)]]; cbv zeta in H;
    [contradiction|].
  destruct (collect_group_dup R s m s g p Ec Hg Hl Hp) as [Hn Hd].
  split; [exact H|split; [exact Hn|exact Hd]].
Qed.

(** Witness: [de.ftl] is deleted by the step. *)
Lemma lang_dedup_deletes_only_duplicates_witness :
  let s := st0 lang_fs in
  let s' := snd (lang_dedup ROOT0 s) in
  fs s' !! lang_file "de.ftl" <> fs s !! lang_file "de.ftl"
  /\ (fs s' !! lang_file "de.ftl" = None
      /\ is_infix (s2l "en-US.ftl") (name (lang_file "de.ftl")) = false
      /\ duplicated ROOT0 (fs s) (lang_file "de.ftl")).
Proof.
  cbv zeta.
  assert (Hch : fs (snd (lang_dedup ROOT0 (st0 lang_fs))) !! lang_file "de.ftl"
                <> fs (st0 lang_fs) !! lang_file "de.ftl")
    by (intros Hx; vm_compute in Hx; discriminate Hx).
  split; [exact Hch|].
  exact (lang_dedup_deletes_only_duplicates ROOT0 (st0 lang_fs) _ Hch).
Defined.

(** Counterexample: [de.ftl] ends its line with \r\n and [fr.ftl] with \n,
    so no other file has the bytes of [de.ftl]; both are deleted, because
    [read_text] turns \r\n into \n. *)
Lemma lang_dedup_crlf_counterexample :
  let s' := snd (lang_dedup ROOT0 (st0 crlf_lang_fs)) in
  fst (lang_dedup ROOT0 (st0 crlf_lang_fs)) = inr tt
  /\ crlf_lang_fs !! lang_file "de.ftl" = Some (File (s2l "hello = Hallo" ++ [CR; LF]))
  /\ crlf_lang_fs !! lang_file "fr.ftl" = Some (File (s2l "hello = Hallo" ++ [LF]))
  /\ fs s' !! lang_file "de.ftl" = None /\ fs s' !! lang_file "fr.ftl" = None.
Proof. cbv zeta; repeat split; vm_compute; reflexivity. Qed.


(** *** Claim C10 *)

Lemma matcher_lit l r s g k :
  matcher (lit l r) s g k = if starts_with l s then matcher r (drop (length l) s) g k else None.
Proof.
  revert s; induction l as [|c l IH]; intros s; [reflexivity|].
  destruct s as [|d t]; [reflexivity|].
  change (lit (c :: l) r) with (RSeq (RChar c) (lit l r)); cbn [matcher starts_with length].
  destruct (Ascii.eqb c d); cbn [andb]; [apply IH|reflexivity].
Qed.

Lemma run_len_le p s : run_len p s <= length s.
Proof. induction s as [|c s IH]; cbn; [lia|destruct (p c); cbn; lia]. Qed.

Lemma match_at_users y :
  match_at re_users y =
  if starts_with (s2l "C:\Users\") y then
    match run_len not_backslash (drop 9 y) with
    | 0 => None
    | n => Some (drop n (drop 9 y), [])
    end
  else None.
Proof.
  unfold match_at, re_users; rewrite matcher_lit.
  destruct (starts_with _ y); [|reflexivity].
  change (length (s2l "C:\Users\")) with 9.
  change (matcher (RPlus not_backslash) (drop 9 y) [] (fun s' g => Some (s', g)))
    with (backtrack (fun s' => Some (s', @nil (nat * text))) (drop 9 y) 1
                    (run_len not_backslash (drop 9 y))).
  destruct (run_len not_backslash (drop 9 y)); reflexivity.
Qed.

Lemma users_match_shape y rest g :
  match_at re_users y = Some (rest, g) ->
  starts_with (s2l "C:\Users\") y = true /\ length rest < length y.
Proof.
  rewrite match_at_users; destruct (starts_with _ y) eqn:E; [|discriminate].
  pose proof (run_len_le not_backslash (drop 9 y)) as Hle.
  destruct (run_len not_backslash (drop 9 y)) as [|n]; [discriminate|].
  intros H; injection H as <- _; split; [reflexivity|].
  rewrite !length_drop in *; lia.
Qed.

Lemma users_no_match y e t :
  starts_with (s2l "C:\Users\") y = true -> drop 9 y = e :: t -> e <> BS ->
  match_at re_users y <> None.
Proof.
  intros Hs Hd He; rewrite match_at_users, Hs, Hd; cbn [run_len].
  unfold not_backslash; destruct (Ascii.eqb e BS) eqn:E.
  - apply Ascii.eqb_eq in E; contradiction.
  - cbv beta iota; discriminate.
Qed.

Lemma sub_go_S f r tpl s :
  sub_go (S f) r tpl None s =
  match match_at r s with
  | Some (rest, g) =>
      if length rest <? length s then expand (match_caps s rest g) tpl ++ sub_go f r tpl None rest
      else expand (match_caps s rest g) tpl
           ++ match s with [] => [] | c :: t => c :: sub_go f r tpl None t end
  | None => match s with [] => [] | c :: t => c :: sub_go f r tpl None t end
  end.
Proof. reflexivity. Qed.

(** Enough fuel: every step of the scan goes forward. *)
Lemma sub_go_fuel r tpl : forall f1 f2 s,
  length s < f1 -> length s < f2 -> sub_go f1 r tpl None s = sub_go f2 r tpl None s.
Proof.
  induction f1 as [|f1 IH]; intros f2 s H1 H2; [lia|].
  destruct f2 as [|f2]; [lia|].
  rewrite !sub_go_S.
  destruct (match_at r s) as [[rest g]|].
  - destruct (length rest <? length s) eqn:E.
    + apply Nat.ltb_lt in E; f_equal; apply IH; lia.
    + destruct s as [|c t]; [reflexivity|]; cbn in H1, H2.
      f_equal; f_equal; apply IH; lia.
  - destruct s as [|c t]; [reflexivity|]; cbn in H1, H2.
    f_equal; apply IH; lia.
Qed.

Lemma normalize_users_eq s :
  normalize_users s = sub_go (S (length s)) re_users [PLit (s2l "~")] None s.
Proof. reflexivity. Qed.

Lemma normalize_nomatch c t :
  match_at re_users (c :: t) = None -> normalize_users (c :: t) = c :: normalize_users t.
Proof.
  intros H; rewrite !normalize_users_eq; cbn [length].
  rewrite sub_go_S, H; reflexivity.
Qed.

Lemma normalize_match y rest g :
  match_at re_users y = Some (rest, g) -> normalize_users y = "~"%char :: normalize_users rest.
Proof.
  intros H; destruct (users_match_shape _ _ _ H) as [_ Hl].
  rewrite !normalize_users_eq, sub_go_S, H.
  rewrite (proj2 (Nat.ltb_lt _ _) Hl).
  change (expand (match_caps y rest g) [PLit (s2l "~")]) with ["~"%char]; cbn [app].
  f_equal; apply sub_go_fuel; lia.
Qed.

Lemma starts_with_users_head x t :
  starts_with (s2l "C:\Users\") (x :: t) = true -> x = "C"%char.
Proof.
  change (s2l "C:\Users\") with ("C"%char :: s2l ":\Users\"); cbn [starts_with].
  intros H; apply andb_prop in H as [H _]; apply Ascii.eqb_eq in H; symmetry; exact H.
Qed.

Lemma BS_not_C : BS <> "C"%char.
Proof. intros H; vm_compute in H; discriminate H. Qed.

Lemma starts_with_split p s : starts_with p s = true -> s = p ++ drop (length p) s.
Proof.
  revert s; induction p as [|c p IH]; intros s H; [reflexivity|].
  destruct s as [|d t]; [discriminate|]; cbn in H |- *.
  apply andb_prop in H as [Hc H]; apply Ascii.eqb_eq in Hc; subst d.
  f_equal; apply IH; exact H.
Qed.

(** Text before the first [~] of the output is copied from the input. *)
Lemma normalize_prefix w : forall t r,
  ~ In "~"%char w -> normalize_users t = w ++ r ->
  exists t', t = w ++ t' /\ normalize_users t' = r.
Proof.
  induction w as [|c w IH]; intros t r Hw H; [exists t; auto|].
  destruct t as [|e t0]; [discriminate|].
  destruct (match_at re_users (e :: t0)) as [[rest g]|] eqn:Em.
  - rewrite (normalize_match _ _ _ Em) in H; injection H as Hc _.
    exfalso; apply Hw; left; congruence.
  - rewrite (normalize_nomatch _ _ Em) in H; injection H as -> H.
    destruct (IH t0 r (fun Hi => Hw (or_intror Hi)) H) as [t' [-> Ht']].
    exists t'; auto.
Qed.

Lemma normalize_head t d r :
  normalize_users t = d :: r -> d <> BS -> exists e t0, t = e :: t0 /\ e <> BS.
Proof.
  intros H Hd; destruct t as [|e t0]; [discriminate|]; exists e, t0; split; [reflexivity|].
  destruct (match_at re_users (e :: t0)) as [[rest g]|] eqn:Em.
  - destruct (users_match_shape _ _ _ Em) as [Hs _].
    apply starts_with_users_head in Hs as ->; intros Hc; apply BS_not_C; symmetry; exact Hc.
  - rewrite (normalize_nomatch _ _ Em) in H; injection H as -> _; exact Hd.
Qed.

(** No suffix of the output starts with [C:\Users\] and a character other
    than a backslash. *)
Lemma normalize_no_profile n : forall y a b e t,
  length y <= n -> normalize_users y = a ++ b ->
  starts_with (s2l "C:\Users\") b = true -> drop 9 b = e :: t -> e <> BS -> False.
Proof.
  induction n as [|n IH]; intros y a b e t Hy Hab Hs Hd He.
  - destruct y; [|cbn in Hy; lia].
    symmetry in Hab; apply app_eq_nil in Hab as [_ ->]; discriminate.
  - destruct y as [|c y'].
    + symmetry in Hab; apply app_eq_nil in Hab as [_ ->]; discriminate.
    + cbn in Hy; destruct (match_at re_users (c :: y')) as [[rest g]|] eqn:Em.
      * destruct (users_match_shape _ _ _ Em) as [_ Hl]; cbn in Hl.
        rewrite (normalize_match _ _ _ Em) in Hab.
        destruct a as [|x a'].
        -- cbn [app] in Hab; subst b; apply starts_with_users_head in Hs; discriminate.
        -- injection Hab as _ Hab; apply (IH rest a' b e t); auto; lia.
      * rewrite (normalize_nomatch _ _ Em) in Hab.
        destruct a as [|x a'].
        -- cbn [app] in Hab; subst b.
           pose proof (starts_with_users_head _ _ Hs) as ->.
           change (s2l "C:\Users\") with ("C"%char :: s2l ":\Users\") in Hs.
           cbn [starts_with] in Hs; rewrite Ascii.eqb_refl in Hs; cbn [andb] in Hs.
           apply starts_with_split in Hs.
           change (length (s2l ":\Users\")) with 8 in Hs.
           change (drop 9 ("C"%char :: normalize_users y')) with (drop 8 (normalize_users y')) in Hd.
           rewrite Hd in Hs.
           destruct (normalize_prefix (s2l ":\Users\") y' (e :: t)) as [t' [-> Ht']];
             [intros Hi; cbn in Hi; intuition discriminate|exact Hs|].
           destruct (normalize_head t' e t Ht' He) as [e' [t0 [-> He']]].
           apply (users_no_match ("C"%char :: s2l ":\Users\" ++ e' :: t0) e' t0); [reflexivity|reflexivity|exact He'|].
           exact Em.
        -- injection Hab as _ Hab; apply (IH y' a' b e t); auto; lia.
Qed.

Lemma normalize_no_user_path raw : ~ has_user_path (normalize_users raw).
Proof.
  intros (a & n & b & Hx & Hn & Hf).
  destruct n as [|d n']; [contradiction|].
  inversion Hf as [|? ? Hd _]; subst.
  apply (normalize_no_profile (length raw) raw a (s2l "C:\Users\" ++ d :: n' ++ b) d (n' ++ b));
    [lia|exact Hx|apply starts_with_app_self|reflexivity|exact Hd].
Qed.

Lemma write_node_inr p n s s' : write_node p n s = (inr tt, s') -> fs s' = <[p := n]> (fs s).
Proof.
  unfold write_node; destruct (_ && _); intros H; [injection H as <-; reflexivity|discriminate].
Qed.

Lemma read_bytes_inr p s c s' :
  read_bytes p s = (inr c, s') -> s' = s /\ fs s !! p = Some (File c).
Proof.
  unfold read_bytes; destruct (fs s !! p) as [[c'| |ms]|]; intros H; try discriminate.
  injection H as -> <-; auto.
Qed.

(** A template without a backslash is used literally by [re.sub]. *)
Lemma parse_go_lit ng t : forall acc,
  ~ In BS t -> parse_go ng TText t acc = Some [PLit (rev acc ++ t)].
Proof.
  induction t as [|c t IH]; intros acc H; cbn [parse_go].
  - rewrite app_nil_r; reflexivity.
  - destruct (Ascii.eqb c BS) eqn:E.
    + apply Ascii.eqb_eq in E; subst; exfalso; apply H; left; reflexivity.
    + cbn [negb]; rewrite IH by (intros Hi; apply H; right; exact Hi).
      cbn [rev]; rewrite <- app_assoc; reflexivity.
Qed.

Lemma py_re_sub_lit r t x n : ~ In BS t -> py_re_sub r t x n = ret (re_sub r [PLit t] x n).
Proof. intros H; unfold py_re_sub, parse_template; rewrite parse_go_lit by exact H; reflexivity. Qed.

Lemma tilde_no_BS : ~ In BS (s2l "~").
Proof. intros [H|[]]; vm_compute in H; discriminate H. Qed.

Lemma try_pass_run_fs ext cmd s s2 r f :
  ext cmd (fs s) = (r, f) -> try_pass (run ext cmd) s = (inr tt, s2) -> fs s2 = f.
Proof.
  intros He; unfold try_pass, run; rewrite He.
  destruct r as [o|]; intros H; [injection H as <-; reflexivity|].
  destruct (is_exception _); [injection H as <-; reflexivity|discriminate].
Qed.

(** C10. When [legal] completes, the license text it leaves in [dist] is
    the text the bundler wrote there (read as text, so with its line
    endings translated) with every [C:\Users\<name>] rewritten to [~],
    and it contains no [C:\Users\] followed by a non-empty name free of
    backslashes. *)
Theorem legal_scrubs_user_paths R ext s s' v r f raw :
  fst (get_version R s) = inr v ->
  ext (legal_bundle_cmd R v) (fs s) = (r, f) ->
  f !! legal_txt_path R v = Some (File raw) ->
  legal R ext s = (inr tt, s') ->
  fs s' !! legal_txt_path R v = Some (File (normalize_users (nl_translate raw)))
  /\ ~ has_user_path (normalize_users (nl_translate raw)).
Proof.
  intros Hv Hext Hraw H; unfold legal, mbind, M_bind in H.
  apply bind_inr in H as [v' [s1 [Hg H]]].
  pose proof (get_version_state R s) as Hs1; rewrite Hg in Hs1; cbn in Hs1; subst s1.
  rewrite Hg in Hv; injection Hv as ->.
  apply bind_inr in H as [[] [s2 [Htp H]]].
  apply (try_pass_run_fs _ _ _ _ _ _ Hext) in Htp.
  unfold legal_rest, mbind, M_bind in H; cbv zeta in H.
  apply bind_inr in H as [raw' [s3 [Hr H]]]; apply read_text_inr in Hr as [-> [c [Hc0 [_ ->]]]].
  rewrite Htp, Hraw in Hc0; injection Hc0 as <-.
  rewrite py_re_sub_lit in H by exact tilde_no_BS.
  apply bind_inr in H as [nz [s4' [Hn H]]]; injection Hn as <- <-.
  apply bind_inr in H as [[] [s4 [Hw1 H]]].
  unfold write_text, write_bytes in Hw1; apply write_node_inr in Hw1.
  apply bind_inr in H as [[] [s5 [Hw2 H]]]; apply write_node_inr in Hw2.
  apply bind_inr in H as [c [s6 [Hrb Hw3]]]; apply read_bytes_inr in Hrb as [-> Hc].
  apply write_node_inr in Hw3.
  set (zip := pjoin (pjoin R (s2l "dist")) (s2l "ludusavi-v" ++ v ++ s2l "-legal.zip")) in *.
  assert (Hne : zip <> legal_txt_path R v).
  { intros He; rewrite Hw2, He, lookup_insert_eq in Hc; discriminate. }
  split; [|apply normalize_no_user_path].
  rewrite Hw3, lookup_insert_ne by exact Hne.
  rewrite Hw2, lookup_insert_ne by exact Hne.
  rewrite Hw1, lookup_insert_eq; reflexivity.
Qed.

(** Witness: the bundler's output names the profile of [alice]; [legal]
    completes and the text it leaves has no user path. *)
Lemma legal_scrubs_user_paths_witness :
  let s := st0 legal_fs in
  let s' := snd (legal ROOT0 ext_bundler_fails s) in
  let raw := s2l "MIT: C:\Users\alice\src" in
  let f := <[legal_txt_path ROOT0 (s2l "1.0") := File raw]> legal_fs in
  has_user_path raw
  /\ fst (get_version ROOT0 s) = inr (s2l "1.0")
  /\ ext_bundler_fails (legal_bundle_cmd ROOT0 (s2l "1.0")) (fs s) = (None, f)
  /\ f !! legal_txt_path ROOT0 (s2l "1.0") = Some (File raw)
  /\ legal ROOT0 ext_bundler_fails s = (inr tt, s')
  /\ fs s' !! legal_txt_path ROOT0 (s2l "1.0") = Some (File (normalize_users (nl_translate raw)))
  /\ ~ has_user_path (normalize_users (nl_translate raw)).
Proof.
  cbv zeta.
  assert (Hv : fst (get_version ROOT0 (st0 legal_fs)) = inr (s2l "1.0"))
    by (vm_compute; reflexivity).
  assert (He : ext_bundler_fails (legal_bundle_cmd ROOT0 (s2l "1.0")) (fs (st0 legal_fs))
     = (None, <[legal_txt_path ROOT0 (s2l "1.0") := File (s2l "MIT: C:\Users\alice\src")]> legal_fs)).
  { unfold ext_bundler_fails.
    assert (Hl : lichking_cmd (legal_bundle_cmd ROOT0 (s2l "1.0")) = true) by (vm_compute; reflexivity).
    rewrite Hl; reflexivity. }
  assert (Hf : <[legal_txt_path ROOT0 (s2l "1.0") := File (s2l "MIT: C:\Users\alice\src")]> legal_fs
       !! legal_txt_path ROOT0 (s2l "1.0") = Some (File (s2l "MIT: C:\Users\alice\src")))
    by apply lookup_insert_eq.
  assert (Hr : legal ROOT0 ext_bundler_fails (st0 legal_fs)
               = (inr tt, snd (legal ROOT0 ext_bundler_fails (st0 legal_fs))))
    by (apply pair_of_fst; vm_compute; reflexivity).
  split.
  { exists (s2l "MIT: "), (s2l "alice"), (s2l "\src"); split; [reflexivity|split; [discriminate|]].
    repeat constructor; intros Hx; vm_compute in Hx; discriminate Hx. }
  do 4 (split; [assumption|]).
  exact (legal_scrubs_user_paths ROOT0 ext_bundler_fails (st0 legal_fs) _ _ _ _ _ Hv He Hf Hr).
Defined.

(** ** Further properties of the tasks *)

Lemma mkdir_other p q s : q <> p -> fs (snd (mkdir p s)) !! q = fs s !! q.
Proof.
  intros Hne; unfold mkdir; case_bool_decide; [reflexivity|].
  destruct (is_dir (fs s) (parent p)); cbn; [apply lookup_insert_ne; congruence|reflexivity].
Qed.

Lemma filter_keep (P : path * node -> bool) (f : fsys) p :
  (forall n, P (p, n) = true) -> filter (fun kv => P kv = true) f !! p = f !! p.
Proof.
  intros HP; destruct (f !! p) as [n|] eqn:E.
  - apply map_lookup_filter_Some; split; [exact E|apply HP].
  - apply map_lookup_filter_None; left; exact E.
Qed.

(** X1. [clean] touches nothing outside [dist]: every path that is not
    [dist] or below it has the same entry after the task, whether the task
    completes or fails. *)
Theorem clean_outside_dist_unchanged R locked s :
  forall p, ~ DIST R `prefix_of` p -> fs (snd (clean R locked s)) !! p = fs s !! p.
Proof.
  intros p Hp.
  assert (Hne : p <> DIST R) by (intros ->; apply Hp; reflexivity).
  rewrite clean_unfold; case_bool_decide as Hex.
  - unfold bind; destruct (decide (fs s !! DIST R = Some Dir)) as [Hd|Hd].
    + rewrite rmtree_dir by exact Hd; rewrite mkdir_other by exact Hne; cbn [fs set_fs].
      apply filter_keep; intros n; cbn; rewrite bool_decide_eq_false_2 by exact Hp; reflexivity.
    + rewrite rmtree_not_dir by exact Hd; apply mkdir_other; exact Hne.
  - apply mkdir_other; exact Hne.
Qed.

Lemma clean_outside_dist_unchanged_witness :
  ~ DIST ROOT0 `prefix_of` [s2l "repo"; s2l "Cargo.toml"]
  /\ fs (snd (clean ROOT0 locked0 (st0 repo_fs))) !! [s2l "repo"; s2l "Cargo.toml"]
     = fs (st0 repo_fs) !! [s2l "repo"; s2l "Cargo.toml"].
Proof.
  assert (Hp : ~ DIST ROOT0 `prefix_of` [s2l "repo"; s2l "Cargo.toml"])
    by (intros [k Hk]; vm_compute in Hk; congruence).
  split; [exact Hp|].
  exact (clean_outside_dist_unchanged ROOT0 locked0 (st0 repo_fs) _ Hp).
Defined.

(** X2. When [dist] exists but is not a directory, [rmtree] ignores it and
    [mkdir] fails: [clean] raises an [OSError] on [dist] and changes
    nothing. *)
Theorem clean_fails_on_dist_file R locked s n :
  fs s !! DIST R = Some n -> n <> Dir -> clean R locked s = (inl (OSError (DIST R)), s).
Proof.
  intros Hn Hnd; rewrite clean_unfold.
  rewrite bool_decide_eq_true_2 by (rewrite Hn; eauto).
  unfold bind; rewrite rmtree_not_dir by (rewrite Hn; congruence).
  unfold mkdir; rewrite bool_decide_eq_true_2 by (rewrite Hn; eauto); reflexivity.
Qed.

Lemma clean_fails_on_dist_file_witness :
  dist_file_fs !! DIST ROOT0 = Some (File (s2l "stale")) /\ File (s2l "stale") <> Dir
  /\ clean ROOT0 locked0 (st0 dist_file_fs) = (inl (OSError (DIST ROOT0)), st0 dist_file_fs).
Proof.
  assert (H : dist_file_fs !! DIST ROOT0 = Some (File (s2l "stale"))) by (vm_compute; reflexivity).
  split; [exact H|split; [discriminate|]].
  apply (clean_fails_on_dist_file ROOT0 locked0 (st0 dist_file_fs) _ H); discriminate.
Defined.

Lemma get_version_split R s v :
  fst (get_version R s) = inr v -> get_version R s = (inr v, s).
Proof.
  intros H; pose proof (get_version_state R s) as Hs.
  destruct (get_version R s); cbn in H, Hs; subst; reflexivity.
Qed.

(** X3. When the answer to the confirmation prompt and the version are
    ASCII text (on which the model's [lower] is Python's) and the answer
    differs from [release <version>] ignoring case, [release] prints the
    prompt and exits with status 1 before running any command or touching
    a file. *)
Theorem release_unconfirmed_stops R ext answer s v :
  fst (get_version R s) = inr v ->
  ascii_text (answer (release_prompt v)) = true -> ascii_text v = true ->
  py_lower (answer (release_prompt v)) <> py_lower (s2l "release " ++ v) ->
  release R ext answer s
  = (inl (SystemExit 1), St (fs s) (release_prompt v :: out s) (trace s)).
Proof.
  intros Hv _ _ Hne; apply get_version_split in Hv.
  unfold release, mbind, M_bind, bind at 1; rewrite Hv.
  unfold bind at 1, confirm, mbind, M_bind, bind at 1, input; cbv beta iota.
  unfold release_prompt in *; rewrite bool_decide_eq_false_2 by exact Hne; reflexivity.
Qed.

Lemma release_unconfirmed_stops_witness :
  fst (get_version ROOT0 (st0 repo_fs)) = inr (s2l "0.9.0")
  /\ ascii_text (answer0 (release_prompt (s2l "0.9.0"))) = true /\ ascii_text (s2l "0.9.0") = true
  /\ py_lower (answer0 (release_prompt (s2l "0.9.0"))) <> py_lower (s2l "release " ++ s2l "0.9.0")
  /\ release ROOT0 ext_ok answer0 (st0 repo_fs)
     = (inl (SystemExit 1), St repo_fs [release_prompt (s2l "0.9.0")] []).
Proof.
  assert (Hv : fst (get_version ROOT0 (st0 repo_fs)) = inr (s2l "0.9.0")) by (vm_compute; reflexivity).
  assert (Hne : py_lower (answer0 (release_prompt (s2l "0.9.0"))) <> py_lower (s2l "release " ++ s2l "0.9.0"))
    by (intros Hx; vm_compute in Hx; discriminate Hx).
  split; [exact Hv|split; [reflexivity|split; [reflexivity|split; [exact Hne|]]]].
  exact (release_unconfirmed_stops ROOT0 ext_ok answer0 (st0 repo_fs) _ Hv eq_refl eq_refl Hne).
Defined.

Lemma run_ok_step ext c s o f :
  ext c (fs s) = (Some o, f) -> run ext c s = (inr o, St f (out s) ((c, true) :: trace s)).
Proof. intros H; unfold run; rewrite H; reflexivity. Qed.

(** X4. When the answer to the confirmation prompt and the version are
    ASCII text, the answer matches [release <version>] ignoring case and
    every command succeeds, [release] completes after running exactly the
    commit, tag, push and tag push commands, in that order. *)
Theorem release_confirmed_runs_git R ext answer s v :
  fst (get_version R s) = inr v ->
  ascii_text (answer (release_prompt v)) = true -> ascii_text v = true ->
  py_lower (answer (release_prompt v)) = py_lower (s2l "release " ++ v) ->
  (forall c f, exists o, fst (ext c f) = Some o) ->
  fst (release R ext answer s) = inr tt
  /\ trace (snd (release R ext answer s))
     = [(s2l "git push origin tag v" ++ v, true); (s2l "git push", true);
        (s2l "git tag v" ++ v ++ s2l " -m " ++ q (s2l "Release"), true);
        (s2l "git commit -m " ++ q (s2l "Release v" ++ v), true)] ++ trace s.
Proof.
  intros Hv _ _ Heq Hok; apply get_version_split in Hv.
  assert (Hrun : forall c s0, exists o f, run ext c s0 = (inr o, St f (out s0) ((c, true) :: trace s0))).
  { intros c s0; destruct (Hok c (fs s0)) as [o Ho].
    destruct (ext c (fs s0)) as [r f] eqn:E; cbn in Ho; subst r.
    exists o, f; apply run_ok_step; exact E. }
  assert (Hrel : exists f, release R ext answer s
    = (inr tt, St f (release_prompt v :: out s)
                  ([(s2l "git push origin tag v" ++ v, true); (s2l "git push", true);
                    (s2l "git tag v" ++ v ++ s2l " -m " ++ q (s2l "Release"), true);
                    (s2l "git commit -m " ++ q (s2l "Release v" ++ v), true)] ++ trace s))).
  { unfold release, mbind, M_bind, bind at 1; rewrite Hv.
    unfold bind at 1, confirm, mbind, M_bind, bind at 1, input; cbv beta iota.
    unfold release_prompt in Heq; rewrite bool_decide_eq_true_2 by exact Heq.
    unfold ret; cbv beta iota.
    set (s1 := St (fs s) (_ :: out s) (trace s)).
    destruct (Hrun (s2l "git commit -m " ++ q (s2l "Release v" ++ v)) s1) as [o1 [f1 H1]].
    unfold bind at 1; rewrite H1.
    match goal with |- context [bind (run ext ?c) _ ?st] =>
      destruct (Hrun c st) as [o2 [f2 H2]]; unfold bind at 1; rewrite H2 end.
    match goal with |- context [bind (run ext ?c) _ ?st] =>
      destruct (Hrun c st) as [o3 [f3 H3]]; unfold bind at 1; rewrite H3 end.
    match goal with |- context [bind (run ext ?c) _ ?st] =>
      destruct (Hrun c st) as [o4 [f4 H4]]; unfold bind at 1; rewrite H4 end.
    exists f4; reflexivity. }
  destruct Hrel as [f Hrel]; rewrite Hrel; split; reflexivity.
Qed.

Lemma release_confirmed_runs_git_witness :
  fst (get_version ROOT0 (st0 repo_fs)) = inr (s2l "0.9.0")
  /\ ascii_text (answer_release (release_prompt (s2l "0.9.0"))) = true /\ ascii_text (s2l "0.9.0") = true
  /\ py_lower (answer_release (release_prompt (s2l "0.9.0"))) = py_lower (s2l "release " ++ s2l "0.9.0")
  /\ (fst (release ROOT0 ext_ok answer_release (st0 repo_fs)) = inr tt
      /\ trace (snd (release ROOT0 ext_ok answer_release (st0 repo_fs)))
         = [(s2l "git push origin tag v" ++ s2l "0.9.0", true); (s2l "git push", true);
            (s2l "git tag v" ++ s2l "0.9.0" ++ s2l " -m " ++ q (s2l "Release"), true);
            (s2l "git commit -m " ++ q (s2l "Release v" ++ s2l "0.9.0"), true)] ++ []).
Proof.
  assert (Hv : fst (get_version ROOT0 (st0 repo_fs)) = inr (s2l "0.9.0")) by (vm_compute; reflexivity).
  assert (Heq : py_lower (answer_release (release_prompt (s2l "0.9.0")))
                = py_lower (s2l "release " ++ s2l "0.9.0")) by (vm_compute; reflexivity).
  split; [exact Hv|split; [vm_compute; reflexivity|split; [reflexivity|split; [exact Heq|]]]].
  apply (release_confirmed_runs_git ROOT0 ext_ok answer_release (st0 repo_fs) _ Hv eq_refl eq_refl Heq).
  intros c f; exists []; reflexivity.
Defined.

(** X5. When [version] completes, it has printed the version read from
    [Cargo.toml] followed by a newline, run no command and left the files
    as they were. *)
Theorem version_prints_only R s s' :
  version R s = (inr tt, s') ->
  exists v, fst (get_version R s) = inr v /\ s' = St (fs s) ((v ++ [LF]) :: out s) (trace s).
Proof.
  unfold version, mbind, M_bind; intros H; apply bind_inr in H as [v [s1 [Hg Hp]]].
  pose proof (get_version_state R s) as Hs; rewrite Hg in Hs; cbn in Hs; subst s1.
  exists v; split; [rewrite Hg; reflexivity|].
  unfold print in Hp; injection Hp as <-; reflexivity.
Qed.

Lemma version_prints_only_witness :
  let s' := snd (version ROOT0 (st0 repo_fs)) in
  version ROOT0 (st0 repo_fs) = (inr tt, s')
  /\ exists v, fst (get_version ROOT0 (st0 repo_fs)) = inr v
               /\ s' = St repo_fs [v ++ [LF]] [].
Proof.
  cbv zeta.
  assert (H : version ROOT0 (st0 repo_fs) = (inr tt, snd (version ROOT0 (st0 repo_fs))))
    by (apply pair_of_fst; vm_compute; reflexivity).
  split; [exact H|exact (version_prints_only ROOT0 (st0 repo_fs) _ H)].
Defined.

(** X6. When [legal] completes, the zip archive it writes holds exactly one
    member, named after the text file, whose content is the text file it
    left in [dist]. *)
Theorem legal_zip_holds_text R ext s s' v :
  fst (get_version R s) = inr v ->
  legal R ext s = (inr tt, s') ->
  exists raw,
    fs s' !! legal_txt_path R v = Some (File (normalize_users raw))
    /\ fs s' !! legal_zip_path R v = Some (Archive [(legal_txt_name v, normalize_users raw)]).
Proof.
  intros Hv H; unfold legal, mbind, M_bind in H.
  apply bind_inr in H as [v' [s1 [Hg H]]].
  rewrite Hg in Hv; injection Hv as ->.
  apply bind_inr in H as [[] [s2 [_ H]]].
  unfold legal_rest, mbind, M_bind in H; cbv zeta in H.
  apply bind_inr in H as [raw [s3 [Hr H]]]; apply read_text_inr in Hr as [-> _].
  rewrite py_re_sub_lit in H by exact tilde_no_BS.
  apply bind_inr in H as [nz [s4' [Hn H]]]; injection Hn as <- <-.
  apply bind_inr in H as [[] [s4 [Hw1 H]]].
  unfold write_text, write_bytes in Hw1; apply write_node_inr in Hw1.
  apply bind_inr in H as [[] [s5 [Hw2 H]]]; apply write_node_inr in Hw2.
  apply bind_inr in H as [c [s6 [Hrb Hw3]]]; apply read_bytes_inr in Hrb as [-> Hc].
  apply write_node_inr in Hw3.
  fold (legal_zip_path R v) in Hw2, Hw3.
  assert (Hne : legal_zip_path R v <> legal_txt_path R v).
  { intros He; rewrite Hw2, He, lookup_insert_eq in Hc; discriminate. }
  rewrite Hw2, lookup_insert_ne, Hw1, lookup_insert_eq in Hc by exact Hne.
  injection Hc as <-.
  exists raw; split.
  - rewrite Hw3, lookup_insert_ne by exact Hne.
    rewrite Hw2, lookup_insert_ne by exact Hne.
    rewrite Hw1, lookup_insert_eq; reflexivity.
  - rewrite Hw3, lookup_insert_eq; reflexivity.
Qed.

Lemma legal_zip_holds_text_witness :
  let s := st0 legal_fs in
  let s' := snd (legal ROOT0 ext_bundler_fails s) in
  fst (get_version ROOT0 s) = inr (s2l "1.0")
  /\ legal ROOT0 ext_bundler_fails s = (inr tt, s')
  /\ exists raw,
       fs s' !! legal_txt_path ROOT0 (s2l "1.0") = Some (File (normalize_users raw))
       /\ fs s' !! legal_zip_path ROOT0 (s2l "1.0")
          = Some (Archive [(legal_txt_name (s2l "1.0"), normalize_users raw)]).
Proof.
  cbv zeta.
  assert (Hv : fst (get_version ROOT0 (st0 legal_fs)) = inr (s2l "1.0"))
    by (vm_compute; reflexivity).
  assert (Hr : legal ROOT0 ext_bundler_fails (st0 legal_fs)
               = (inr tt, snd (legal ROOT0 ext_bundler_fails (st0 legal_fs))))
    by (apply pair_of_fst; vm_compute; reflexivity).
  split; [exact Hv|split; [exact Hr|]].
  exact (legal_zip_holds_text ROOT0 ext_bundler_fails (st0 legal_fs) _ _ Hv Hr).
Defined.

(** X7. When the bundling command leaves no license text in [dist],
    whether it failed or not, [legal] stops with an [OSError] on that
    text file. *)
Theorem legal_fails_without_bundle R ext s v r f :
  fst (get_version R s) = inr v ->
  ext (legal_bundle_cmd R v) (fs s) = (r, f) ->
  f !! legal_txt_path R v = None ->
  fst (legal R ext s) = inl (OSError (legal_txt_path R v)).
Proof.
  intros Hv He Hn; apply get_version_split in Hv.
  unfold legal, mbind, M_bind, bind at 1; rewrite Hv.
  unfold bind at 1, try_pass, run; rewrite He.
  assert (Hrest : forall s1, fs s1 = f -> fst (legal_rest R v s1) = inl (OSError (legal_txt_path R v))).
  { intros s1 Hs1; unfold legal_rest, mbind, M_bind, bind at 1, read_text, mbind, M_bind, bind at 1,
      bind at 1, read_bytes; cbv zeta beta; rewrite Hs1, Hn; reflexivity. }
  destruct r; [apply Hrest; reflexivity|cbn [is_exception]; apply Hrest; reflexivity].
Qed.

Lemma legal_fails_without_bundle_witness :
  fst (get_version ROOT0 (st0 legal_fs)) = inr (s2l "1.0")
  /\ ext_ok (legal_bundle_cmd ROOT0 (s2l "1.0")) legal_fs = (Some [], legal_fs)
  /\ legal_fs !! legal_txt_path ROOT0 (s2l "1.0") = None
  /\ fst (legal ROOT0 ext_ok (st0 legal_fs)) = inl (OSError (legal_txt_path ROOT0 (s2l "1.0"))).
Proof.
  assert (Hv : fst (get_version ROOT0 (st0 legal_fs)) = inr (s2l "1.0"))
    by (vm_compute; reflexivity).
  assert (Hn : legal_fs !! legal_txt_path ROOT0 (s2l "1.0") = None) by (vm_compute; reflexivity).
  split; [exact Hv|split; [reflexivity|split; [exact Hn|]]].
  exact (legal_fails_without_bundle ROOT0 ext_ok (st0 legal_fs) _ _ _ Hv eq_refl Hn).
Defined.





Lemma sub_go_step f r tpl cnt s :
  cnt <> Some 0 ->
  sub_go (S f) r tpl cnt s =
  match match_at r s with
  | Some (rest, g) =>
      if length rest <? length s
      then expand (match_caps s rest g) tpl
           ++ sub_go f r tpl (match cnt with Some (S m) => Some m | c => c end) rest
      else expand (match_caps s rest g) tpl ++ match s with
                           | [] => []
                           | c :: t => c :: sub_go f r tpl (match cnt with Some (S m) => Some m | c => c end) t
                           end
  | None => match s with [] => [] | c :: t => c :: sub_go f r tpl cnt t end
  end.
Proof. destruct cnt as [[|m]|]; [contradiction|reflexivity|reflexivity]. Qed.

Lemma sub_go_done f r tpl s : sub_go f r tpl (Some 0) s = s.
Proof. destruct f; reflexivity. Qed.

Lemma sub_go_nomatch f r tpl cnt : forall t,
  (forall i, i <= length t -> match_at r (drop i t) = None) -> sub_go f r tpl cnt t = t.
Proof.
  induction f as [|f IH]; intros t H; [reflexivity|].
  destruct (decide (cnt = Some 0)) as [->|Hc]; [reflexivity|].
  pose proof (H 0 ltac:(lia)) as H0; change (drop 0 t) with t in H0.
  rewrite sub_go_step by exact Hc; rewrite H0.
  destruct t as [|c t]; [reflexivity|].
  f_equal; apply IH; intros i Hi; apply (H (S i)); cbn; lia.
Qed.

Lemma no_match_in_spec r t :
  no_match_in r t = true -> forall i, i <= length t -> match_at r (drop i t) = None.
Proof.
  unfold no_match_in; intros H i Hi.
  apply forallb_forall with (x := i) in H; [|apply in_seq; lia].
  destruct (match_at r (drop i t)); [discriminate|reflexivity].
Qed.

Lemma write_node_ok p n s :
  is_dir (fs s) (parent p) = true -> fs s !! p <> Some Dir ->
  write_node p n s = (inr tt, set_fs (<[p := n]> (fs s)) s).
Proof.
  intros Hd Hn; unfold write_node; rewrite Hd, bool_decide_eq_false_2 by exact Hn; reflexivity.
Qed.

Lemma replace_pattern_file file old new tpl count s c :
  fs s !! file = Some (File c) -> is_dir (fs s) (parent file) = true ->
  utf8_valid c = true -> parse_template (group_count old) new = Some tpl ->
  replace_pattern_in_file file old new count s
  = (inr tt, set_fs (<[file := File (re_sub old tpl (nl_translate c) count)]> (fs s)) s).
Proof.
  intros Hf Hd Hu Hp.
  unfold replace_pattern_in_file, read_text, read_bytes, decode, py_re_sub, mbind, M_bind, bind, ret, raise.
  cbv beta; rewrite Hf; cbv beta iota; rewrite Hu; cbv beta iota; rewrite Hp; cbv beta iota.
  unfold write_text, write_bytes; apply write_node_ok; [exact Hd|rewrite Hf; discriminate].
Qed.

Lemma parse_template_lit ng t : ~ In BS t -> parse_template ng t = Some [PLit t].
Proof. intros H; exact (parse_go_lit ng t [] H). Qed.

(** X9. When the text of the file is ASCII, the replacement template is
    valid for the pattern and the pattern matches nowhere,
    [replace_pattern_in_file] still rewrites the file: its content becomes
    the text read, with CR LF and CR turned into LF. *)
Theorem replace_without_match_translates_newlines file old new count s c :
  fs s !! file = Some (File c) -> is_dir (fs s) (parent file) = true ->
  ascii_text c = true -> is_Some (parse_template (group_count old) new) ->
  no_match_in old (nl_translate c) = true ->
  replace_pattern_in_file file old new count s
  = (inr tt, set_fs (<[file := File (nl_translate c)]> (fs s)) s).
Proof.
  intros Hf Hd Ha [tpl Hp] Hn.
  rewrite (replace_pattern_file _ _ _ _ _ _ _ Hf Hd (ascii_utf8 _ Ha) Hp).
  unfold re_sub; rewrite sub_go_nomatch by (apply no_match_in_spec; exact Hn); reflexivity.
Qed.

Lemma replace_without_match_translates_newlines_witness :
  let file := pjoin ROOT0 (s2l "CHANGELOG.md") in
  let c := s2l "## v1.0" ++ [CR; LF] ++ s2l "* Fix" ++ [CR; LF] in
  let s := st0 crlf_changelog_fs in
  fs s !! file = Some (File c) /\ is_dir (fs s) (parent file) = true
  /\ ascii_text c = true
  /\ is_Some (parse_template (group_count (lit (s2l "## Unreleased") REps)) (s2l "## v2.0 (2026-10-18)"))
  /\ no_match_in (lit (s2l "## Unreleased") REps) (nl_translate c) = true
  /\ replace_pattern_in_file file (lit (s2l "## Unreleased") REps)
       (s2l "## v2.0 (2026-10-18)") 1 s
     = (inr tt, set_fs (<[file := File (s2l "## v1.0" ++ [LF] ++ s2l "* Fix" ++ [LF])]> (fs s)) s).
Proof.
  cbv zeta.
  assert (Hf : fs (st0 crlf_changelog_fs) !! pjoin ROOT0 (s2l "CHANGELOG.md")
               = Some (File (s2l "## v1.0" ++ [CR; LF] ++ s2l "* Fix" ++ [CR; LF])))
    by (vm_compute; reflexivity).
  assert (Hd : is_dir (fs (st0 crlf_changelog_fs)) (parent (pjoin ROOT0 (s2l "CHANGELOG.md"))) = true)
    by (vm_compute; reflexivity).
  assert (Ha : ascii_text (s2l "## v1.0" ++ [CR; LF] ++ s2l "* Fix" ++ [CR; LF]) = true)
    by (vm_compute; reflexivity).
  assert (Hp : is_Some (parse_template (group_count (lit (s2l "## Unreleased") REps))
                          (s2l "## v2.0 (2026-10-18)")))
    by (eexists; vm_compute; reflexivity).
  assert (Hn : no_match_in (lit (s2l "## Unreleased") REps)
                 (nl_translate (s2l "## v1.0" ++ [CR; LF] ++ s2l "* Fix" ++ [CR; LF])) = true)
    by (vm_compute; reflexivity).
  do 5 (split; [assumption|]).
  exact (replace_without_match_translates_newlines _ _ _ 1 _ _ Hf Hd Ha Hp Hn).
Defined.

Lemma is_infix_cons p c s : is_infix p (c :: s) = starts_with p (c :: s) || is_infix p s.
Proof. reflexivity. Qed.

Lemma starts_with_infix p a1 a2 : starts_with p a2 = true -> is_infix p (a1 ++ a2) = true.
Proof.
  intros H; induction a1 as [|c a1 IH]; cbn [app].
  - destruct a2 as [|d a2]; [destruct p; [reflexivity|discriminate]|].
    rewrite is_infix_cons, H; reflexivity.
  - rewrite is_infix_cons, IH, orb_true_r; reflexivity.
Qed.

Lemma starts_with_cut p a c X :
  starts_with p (a ++ c :: X) = true -> ~ In c p -> starts_with p a = true.
Proof.
  revert a; induction p as [|d p IH]; intros a H Hc; [reflexivity|].
  destruct a as [|e a]; cbn [app starts_with] in H |- *.
  - apply andb_prop in H as [H _]; apply Ascii.eqb_eq in H; subst; exfalso; apply Hc; left; reflexivity.
  - apply andb_prop in H as [He H]; rewrite He; cbn [andb].
    apply IH; [exact H|intros Hi; apply Hc; right; exact Hi].
Qed.

(** No position inside lines that do not contain the line-free literal
    [p] starts with [p]. *)
Lemma lines_no_start p before Y :
  ~ In LF p -> Forall (fun l => is_infix p l = false) before ->
  forall a1 a2, concat (map (fun l => l ++ [LF]) before) = a1 ++ a2 -> a2 <> [] ->
  starts_with p (a2 ++ Y) = false.
Proof.
  intros HLF; induction 1 as [|l before Hl _ IH]; intros a1 a2 Heq Ha2.
  - symmetry in Heq; apply app_eq_nil in Heq as [_ ->]; contradiction.
  - cbn [map concat] in Heq.
    apply app_eq_app in Heq as [k [[Hl' ->]|[_ Hk]]].
    + destruct k as [|x k0].
      * cbn [app]; apply (IH [] _ eq_refl Ha2).
      * destruct (exists_last (l := x :: k0) ltac:(discriminate)) as [k' [y Hk']].
        rewrite Hk', app_assoc in Hl'; apply app_inj_tail in Hl' as [Hl1 <-].
        rewrite Hk'; destruct (starts_with p (((k' ++ [LF]) ++ _) ++ Y)) eqn:Hs; [|reflexivity].
        rewrite <- !app_assoc in Hs; cbn [app] in Hs.
        apply starts_with_cut in Hs; [|exact HLF].
        rewrite Hl1, (starts_with_infix p a1 k' Hs) in Hl; discriminate.
    + exact (IH k a2 Hk Ha2).
Qed.

Lemma sub_go_skip r tpl cnt a X f :
  cnt <> Some 0 ->
  (forall a1 a2, a = a1 ++ a2 -> a2 <> [] -> match_at r (a2 ++ X) = None) ->
  sub_go (length a + f) r tpl cnt (a ++ X) = a ++ sub_go f r tpl cnt X.
Proof.
  intros Hc; induction a as [|c a IH]; intros H; [reflexivity|].
  cbn [length plus app]; rewrite sub_go_step by exact Hc.
  pose proof (H [] (c :: a) eq_refl ltac:(discriminate)) as H0; cbn [app] in H0; rewrite H0.
  f_equal; apply IH; intros a1 a2 -> Ha2; apply (H (c :: a1) a2); [reflexivity|exact Ha2].
Qed.

Lemma lines_no_match r p before Y :
  ~ In LF p -> (forall s, match_at r s <> None -> starts_with p s = true) ->
  Forall (fun l => is_infix p l = false) before ->
  forall a1 a2, concat (map (fun l => l ++ [LF]) before) = a1 ++ a2 -> a2 <> [] ->
  match_at r (a2 ++ Y) = None.
Proof.
  intros HLF Hanc Hb a1 a2 Heq Ha2.
  destruct (match_at r (a2 ++ Y)) eqn:E; [|reflexivity]; exfalso.
  assert (Hs : starts_with p (a2 ++ Y) = true) by (apply Hanc; rewrite E; discriminate).
  rewrite (lines_no_start p before Y HLF Hb a1 a2 Heq Ha2) in Hs; discriminate.
Qed.

(** [re.sub(..., count=1)]: the first match, after lines free of the
    anchor of the pattern, is replaced; the rest is copied. *)
Lemma re_sub_first r p tpl before X rest g :
  ~ In LF p -> (forall s, match_at r s <> None -> starts_with p s = true) ->
  Forall (fun l => is_infix p l = false) before ->
  match_at r X = Some (rest, g) -> length rest < length X ->
  re_sub r tpl (concat (map (fun l => l ++ [LF]) before) ++ X) 1
  = concat (map (fun l => l ++ [LF]) before) ++ expand (match_caps X rest g) tpl ++ rest.
Proof.
  intros HLF Hanc Hb Hm Hl; unfold re_sub; cbn [Nat.eqb].
  set (B := concat _).
  replace (S (length (B ++ X))) with (length B + S (length X)) by (rewrite length_app; lia).
  rewrite sub_go_skip; [|discriminate|intros a1 a2 Heq Ha2; exact (lines_no_match r p before X HLF Hanc Hb a1 a2 Heq Ha2)].
  f_equal; rewrite sub_go_step by discriminate; rewrite Hm.
  rewrite (proj2 (Nat.ltb_lt _ _) Hl); rewrite sub_go_done; reflexivity.
Qed.

(** [re.sub(..., count=0)] with one match, after and before lines free
    of the anchor of the pattern. *)
Lemma re_sub_all_one r p tpl before X after g :
  p <> [] -> ~ In LF p -> (forall s, match_at r s <> None -> starts_with p s = true) ->
  Forall (fun l => is_infix p l = false) before ->
  Forall (fun l => is_infix p l = false) after ->
  match_at r X = Some (concat (map (fun l => l ++ [LF]) after), g) ->
  length (concat (map (fun l => l ++ [LF]) after)) < length X ->
  re_sub r tpl (concat (map (fun l => l ++ [LF]) before) ++ X) 0
  = concat (map (fun l => l ++ [LF]) before)
    ++ expand (match_caps X (concat (map (fun l => l ++ [LF]) after)) g) tpl
    ++ concat (map (fun l => l ++ [LF]) after).
Proof.
  intros Hp HLF Hanc Hb Ha Hm Hl; unfold re_sub; cbn [Nat.eqb].
  set (B := concat (map (fun l => l ++ [LF]) before)).
  set (A := concat (map (fun l => l ++ [LF]) after)) in *.
  replace (S (length (B ++ X))) with (length B + S (length X)) by (rewrite length_app; lia).
  rewrite sub_go_skip; [|discriminate|intros a1 a2 Heq Ha2; exact (lines_no_match r p before X HLF Hanc Hb a1 a2 Heq Ha2)].
  f_equal; rewrite sub_go_step by discriminate; rewrite Hm.
  rewrite (proj2 (Nat.ltb_lt _ _) Hl); f_equal.
  assert (HA : forall f, sub_go (length A + f) r tpl None (A ++ []) = A ++ sub_go f r tpl None []).
  { intros f; apply sub_go_skip; [discriminate|].
    intros a1 a2 Heq Ha2; exact (lines_no_match r p after [] HLF Hanc Ha a1 a2 Heq Ha2). }
  rewrite app_nil_r in HA.
  replace (length X) with (length A + S (length X - S (length A))) by lia.
  rewrite HA; transitivity (A ++ []); [f_equal|apply app_nil_r].
  rewrite sub_go_step by discriminate.
  destruct (match_at r []) eqn:E; [|reflexivity].
  exfalso; assert (Hs : starts_with p [] = true) by (apply Hanc; rewrite E; discriminate).
  destruct p; [contradiction|discriminate].
Qed.

Lemma anchored_lit p r0 s : match_at (lit p r0) s <> None -> starts_with p s = true.
Proof. unfold match_at; rewrite matcher_lit; destruct (starts_with p s); [reflexivity|contradiction]. Qed.

Lemma match_lit_eps p A : match_at (lit p REps) (p ++ A) = Some (A, []).
Proof. unfold match_at; rewrite matcher_lit, starts_with_app_self, drop_app_length; reflexivity. Qed.

Lemma backtrack_hit {R} (k : text -> option R) s lo n x :
  lo <= n -> k (drop n s) = Some x -> backtrack k s lo n = Some x.
Proof.
  intros Hlo Hk; destruct n; cbn [backtrack];
    rewrite (proj2 (Nat.ltb_ge _ _) Hlo), Hk; reflexivity.
Qed.

Lemma backtrack_miss {R} (k : text -> option R) s lo n :
  lo <= S n -> k (drop (S n) s) = None -> backtrack k s lo (S n) = backtrack k s lo n.
Proof. intros Hlo Hk; cbn [backtrack]; rewrite (proj2 (Nat.ltb_ge _ _) Hlo), Hk; reflexivity. Qed.

Lemma run_len_line l Y : no_break l = true -> run_len any_nonl (l ++ LF :: Y) = length l.
Proof.
  induction l as [|c l IH]; intros H; [reflexivity|].
  cbn in H; apply andb_prop in H as [Hc H]; apply negb_true_iff in Hc.
  cbn [app run_len]; unfold any_nonl at 1.
  destruct (Ascii.eqb c LF) eqn:E; [apply Ascii.eqb_eq in E; subst; discriminate|].
  cbn [negb]; rewrite IH by exact H; reflexivity.
Qed.

Lemma match_version_line old rest :
  old <> [] -> no_break old = true ->
  match_at re_version (s2l "version = " ++ q old ++ LF :: rest) = Some (LF :: rest, []).
Proof.
  intros Hne Hnb; unfold match_at, re_version; rewrite matcher_lit, starts_with_app_self, drop_app_length.
  unfold q; rewrite <- !app_assoc; cbn [app matcher]; rewrite Ascii.eqb_refl.
  change (DQ :: LF :: rest) with ([DQ] ++ LF :: rest); rewrite app_assoc.
  rewrite run_len_line by (rewrite no_break_app, Hnb; reflexivity).
  rewrite length_app; cbn [length]; rewrite Nat.add_1_r.
  rewrite backtrack_miss; [|lia|].
  2: { replace (S (length old)) with (length (old ++ [DQ])) by (rewrite length_app; cbn; lia).
       rewrite drop_app_length; reflexivity. }
  destruct old as [|o old']; [contradiction|].
  apply backtrack_hit; [cbn; lia|].
  rewrite <- app_assoc, drop_app_length; cbn; rewrite Ascii.eqb_refl; reflexivity.
Qed.

Lemma parent_pjoin_file R t : path_of_string t = [t] -> parent (pjoin R t) = R.
Proof. intros H; unfold parent, pjoin; rewrite H; apply removelast_last. Qed.

Lemma ascii_text_app a b : ascii_text (a ++ b) = ascii_text a && ascii_text b.
Proof. unfold ascii_text; apply forallb_app. Qed.

Lemma ascii_text_cons x t : ascii_text (x :: t) = in_range 0 127 x && ascii_text t.
Proof. reflexivity. Qed.

Lemma ascii_nl_translate n : forall c, length c <= n ->
  ascii_text c = true -> ascii_text (nl_translate c) = true.
Proof.
  induction n as [|n IH]; intros c Hl Ha.
  - destruct c; [reflexivity|cbn in Hl; lia].
  - destruct c as [|x t]; [reflexivity|]; cbn [nl_translate].
    rewrite ascii_text_cons in Ha; apply andb_prop in Ha as [Hx Ht]; cbn in Hl.
    destruct (Ascii.eqb x CR).
    + destruct t as [|d t']; [reflexivity|].
      pose proof Ht as Ht'; rewrite ascii_text_cons in Ht'; apply andb_prop in Ht' as [_ Ht'].
      destruct (Ascii.eqb d LF); rewrite ascii_text_cons; change (in_range 0 127 LF) with true;
        cbn [andb]; [apply IH; [cbn in Hl; lia|exact Ht']|apply IH; [lia|exact Ht]].
    + rewrite ascii_text_cons, Hx; apply IH; [lia|exact Ht].
Qed.

Lemma no_BS_app a b : ~ In BS a -> ~ In BS b -> ~ In BS (a ++ b).
Proof. intros Ha Hb Hi; apply in_app_or in Hi as [Hi|Hi]; contradiction. Qed.

Lemma expand_lit g t : expand g [PLit t] = t.
Proof. unfold expand; cbn; apply app_nil_r. Qed.

Lemma group_text_caps s rest g n : group_text (match_caps s rest g) (S n) = group_text g (S n).
Proof. reflexivity. Qed.

Ltac ascii_solve :=
  repeat rewrite ?ascii_text_app, ?ascii_text_cons in *;
  repeat match goal with H : _ && _ = true |- _ => apply andb_prop in H as [? ?] end;
  repeat (apply andb_true_intro; split); first [assumption | reflexivity].

(** X10. Let [Cargo.toml] be ASCII text and the new version ASCII text
    without a backslash (so the replacement template is taken literally).
    After the first step of [prerelease] rewrites the version line of
    [Cargo.toml], [get_version] returns the new version. *)
Theorem prerelease_version_bump_round_trip R s c before old rest new :
  fs s !! pjoin R (s2l "Cargo.toml") = Some (File c) -> is_dir (fs s) R = true ->
  ascii_text c = true -> ascii_text new = true -> ~ In BS new ->
  nl_translate c = concat (map (fun l => l ++ [LF]) before) ++ s2l "version = " ++ q old ++ LF :: rest ->
  Forall (fun l => no_break l = true /\ is_infix (s2l "version = ") l = false
                   /\ starts_with (s2l "version =") l = false) before ->
  old <> [] -> no_break old = true ->
  no_break new = true -> is_infix (s2l "version = ") new = false ->
  starts_with [DQ] new = false -> ends_with [DQ] new = false ->
  exists s', replace_pattern_in_file (pjoin R (s2l "Cargo.toml")) re_version
               (s2l "version = " ++ q new) 1 s = (inr tt, s')
             /\ fst (get_version R s') = inr new.
Proof.
  intros Hf Hd Ha Han Hbs Hc Hb Hold Hnbo Hnb Hi Hs He.
  assert (Hlit : ~ In BS (s2l "version = " ++ q new)).
  { unfold q; repeat apply no_BS_app; [cbn; intuition discriminate|cbn; intuition discriminate
    |exact Hbs|cbn; intuition discriminate]. }
  rewrite (replace_pattern_file _ _ _ _ _ _ _ Hf) by
    first [rewrite parent_pjoin_file by reflexivity; exact Hd | exact (ascii_utf8 _ Ha)
          | exact (parse_template_lit _ _ Hlit)].
  eexists; split; [reflexivity|].
  pose proof (ascii_nl_translate _ c (le_n _) Ha) as HA; rewrite Hc in HA.
  rewrite Hc, (re_sub_first re_version (s2l "version = ") _ before
                  (s2l "version = " ++ q old ++ LF :: rest) (LF :: rest) []).
  2: { cbn; intuition discriminate. }
  2: { intros x; apply anchored_lit. }
  2: { eapply Forall_impl; [exact Hb|]; intros l (_ & H & _); exact H. }
  2: { apply match_version_line; assumption. }
  2: { rewrite !length_app; cbn; lia. }
  rewrite expand_lit, <- app_assoc.
  rewrite (get_version_valid _ _ (concat (map (fun l => l ++ [LF]) before)
                                  ++ (s2l "version = " ++ q new) ++ LF :: rest)).
  2: { cbn [fs set_fs]; apply lookup_insert_eq. }
  2: { apply ascii_utf8; unfold q in *; ascii_solve. }
  rewrite splitlines_lines by (eapply Forall_impl; [exact Hb|]; intros l [H _]; exact H).
  rewrite version_from_lines_app by (eapply Forall_impl; [exact Hb|]; intros l (_ & _ & H); exact H).
  rewrite splitlines_line.
  2: { unfold q; rewrite !no_break_app, Hnb; reflexivity. }
  cbn [version_from_lines]; rewrite version_line_starts.
  rewrite py_replace_version_q by exact Hi.
  rewrite strip_quotes_q by assumption; reflexivity.
Qed.

Lemma prerelease_version_bump_round_trip_witness :
  let before := [s2l "[package]"; s2l "name = " ++ q (s2l "ludusavi")] in
  let c := s2l "[package]" ++ [LF] ++ s2l "name = " ++ q (s2l "ludusavi") ++ [LF]
           ++ s2l "version = " ++ q (s2l "0.9.0") ++ [LF] in
  fs (st0 repo_fs) !! pjoin ROOT0 (s2l "Cargo.toml") = Some (File c)
  /\ is_dir (fs (st0 repo_fs)) ROOT0 = true
  /\ ascii_text c = true
  /\ nl_translate c = concat (map (fun l => l ++ [LF]) before) ++ s2l "version = " ++ q (s2l "0.9.0") ++ LF :: []
  /\ (exists s', replace_pattern_in_file (pjoin ROOT0 (s2l "Cargo.toml")) re_version
                   (s2l "version = " ++ q (s2l "1.0")) 1 (st0 repo_fs) = (inr tt, s')
                 /\ fst (get_version ROOT0 s') = inr (s2l "1.0")).
Proof.
  cbv zeta.
  assert (Hf : fs (st0 repo_fs) !! pjoin ROOT0 (s2l "Cargo.toml")
               = Some (File (s2l "[package]" ++ [LF] ++ s2l "name = " ++ q (s2l "ludusavi") ++ [LF]
                             ++ s2l "version = " ++ q (s2l "0.9.0") ++ [LF]))) by (vm_compute; reflexivity).
  assert (Hd : is_dir (fs (st0 repo_fs)) ROOT0 = true) by (vm_compute; reflexivity).
  assert (Ha : ascii_text (s2l "[package]" ++ [LF] ++ s2l "name = " ++ q (s2l "ludusavi") ++ [LF]
                             ++ s2l "version = " ++ q (s2l "0.9.0") ++ [LF]) = true)
    by (vm_compute; reflexivity).
  assert (Hc : nl_translate (s2l "[package]" ++ [LF] ++ s2l "name = " ++ q (s2l "ludusavi") ++ [LF]
                             ++ s2l "version = " ++ q (s2l "0.9.0") ++ [LF])
               = concat (map (fun l => l ++ [LF]) [s2l "[package]"; s2l "name = " ++ q (s2l "ludusavi")])
                 ++ s2l "version = " ++ q (s2l "0.9.0") ++ LF :: []) by (vm_compute; reflexivity).
  split; [exact Hf|split; [exact Hd|split; [exact Ha|split; [exact Hc|]]]].
  apply (prerelease_version_bump_round_trip ROOT0 (st0 repo_fs) _
            [s2l "[package]"; s2l "name = " ++ q (s2l "ludusavi")] (s2l "0.9.0") [] (s2l "1.0") Hf Hd Ha);
    [reflexivity|cbn; intuition discriminate|exact Hc|repeat constructor|discriminate|reflexivity..].
Defined.

(** X11. Let the changelog be valid UTF-8 and the new version and the
    date free of backslashes (so the replacement template is taken
    literally).  The second step of [prerelease] renames only the first
    [## Unreleased] heading of the changelog and keeps every other byte. *)
Theorem prerelease_renames_first_unreleased R today new s c before A :
  fs s !! pjoin R (s2l "CHANGELOG.md") = Some (File c) -> is_dir (fs s) R = true ->
  utf8_valid c = true -> ~ In BS new -> ~ In BS today ->
  nl_translate c = concat (map (fun l => l ++ [LF]) before) ++ s2l "## Unreleased" ++ A ->
  Forall (fun l => is_infix (s2l "## Unreleased") l = false) before ->
  replace_pattern_in_file (pjoin R (s2l "CHANGELOG.md")) (lit (s2l "## Unreleased") REps)
    (s2l "## v" ++ new ++ s2l " (" ++ today ++ s2l ")") 1 s
  = (inr tt, set_fs (<[pjoin R (s2l "CHANGELOG.md") :=
       File (concat (map (fun l => l ++ [LF]) before)
             ++ (s2l "## v" ++ new ++ s2l " (" ++ today ++ s2l ")") ++ A)]> (fs s)) s).
Proof.
  intros Hf Hd Hu Hn Ht Hc Hb.
  assert (Hlit : ~ In BS (s2l "## v" ++ new ++ s2l " (" ++ today ++ s2l ")")).
  { repeat apply no_BS_app; first [assumption | cbn; intuition discriminate]. }
  rewrite (replace_pattern_file _ _ _ _ _ _ _ Hf) by
    first [rewrite parent_pjoin_file by reflexivity; exact Hd | exact Hu
          | exact (parse_template_lit _ _ Hlit)].
  rewrite Hc, (re_sub_first _ (s2l "## Unreleased") _ before (s2l "## Unreleased" ++ A) A []).
  - rewrite expand_lit; reflexivity.
  - cbn; intuition discriminate.
  - intros x; apply anchored_lit.
  - exact Hb.
  - apply match_lit_eps.
  - rewrite length_app; cbn; lia.
Qed.

(** Witness: a changelog with the heading twice; only the first is renamed. *)
Lemma prerelease_renames_first_unreleased_witness :
  let c := s2l "# Changelog" ++ [LF] ++ s2l "## Unreleased" ++ [LF] ++ s2l "## Unreleased" ++ [LF] in
  let f := <[pjoin ROOT0 (s2l "CHANGELOG.md") := File c]> repo_fs in
  f !! pjoin ROOT0 (s2l "CHANGELOG.md") = Some (File c)
  /\ is_dir f ROOT0 = true
  /\ utf8_valid c = true
  /\ nl_translate c = concat (map (fun l => l ++ [LF]) [s2l "# Changelog"]) ++ s2l "## Unreleased"
                      ++ ([LF] ++ s2l "## Unreleased" ++ [LF])
  /\ replace_pattern_in_file (pjoin ROOT0 (s2l "CHANGELOG.md")) (lit (s2l "## Unreleased") REps)
       (s2l "## v" ++ s2l "1.0" ++ s2l " (" ++ today0 ++ s2l ")") 1 (st0 f)
     = (inr tt, set_fs (<[pjoin ROOT0 (s2l "CHANGELOG.md") :=
          File (concat (map (fun l => l ++ [LF]) [s2l "# Changelog"])
                ++ (s2l "## v" ++ s2l "1.0" ++ s2l " (" ++ today0 ++ s2l ")")
                ++ ([LF] ++ s2l "## Unreleased" ++ [LF]))]> f) (st0 f)).
Proof.
  cbv zeta.
  set (c := s2l "# Changelog" ++ [LF] ++ s2l "## Unreleased" ++ [LF] ++ s2l "## Unreleased" ++ [LF]).
  set (f := <[pjoin ROOT0 (s2l "CHANGELOG.md") := File c]> repo_fs).
  assert (Hf : f !! pjoin ROOT0 (s2l "CHANGELOG.md") = Some (File c)) by apply lookup_insert_eq.
  assert (Hd : is_dir f ROOT0 = true) by (vm_compute; reflexivity).
  assert (Hu : utf8_valid c = true) by (vm_compute; reflexivity).
  assert (Hc : nl_translate c = concat (map (fun l => l ++ [LF]) [s2l "# Changelog"]) ++ s2l "## Unreleased"
                                ++ ([LF] ++ s2l "## Unreleased" ++ [LF])) by (vm_compute; reflexivity).
  split; [exact Hf|split; [exact Hd|split; [exact Hu|split; [exact Hc|]]]].
  apply (prerelease_renames_first_unreleased ROOT0 today0 (s2l "1.0") (st0 f) c _ _ Hf Hd Hu);
    [cbn; intuition discriminate|cbn; intuition discriminate|exact Hc|repeat constructor].
Defined.

Lemma match_tag_line old Y :
  no_break old = true ->
  exists g, match_at re_tag (s2l "        tag: " ++ old ++ LF :: Y) = Some (LF :: Y, g)
            /\ group_text g 1 = s2l "        tag:".
Proof.
  intros Hnb.
  change (s2l "        tag: " ++ old ++ LF :: Y) with (s2l "        tag:" ++ (" "%char :: old ++ LF :: Y)).
  unfold match_at, re_tag; cbn [matcher]; rewrite matcher_lit, starts_with_app_self, drop_app_length.
  cbn [matcher]; rewrite Ascii.eqb_refl.
  rewrite run_len_line by exact Hnb.
  erewrite (backtrack_hit _ _ 0 (length old)); [|lia|rewrite drop_app_length; cbn; reflexivity].
  eexists; split; [reflexivity|].
  unfold group_text; cbn [find]; cbn -[length].
  replace (S (S (S (S (S (S (S (S (S (S (S (S (length (old ++ LF :: Y))))))))))))) - length (old ++ LF :: Y)) with 12 by lia.
  reflexivity.
Qed.

Lemma re_tag_anchored s : match_at re_tag s <> None -> starts_with (s2l "        tag:") s = true.
Proof.
  unfold match_at, re_tag; cbn [matcher]; rewrite matcher_lit.
  destruct (starts_with _ s); [reflexivity|contradiction].
Qed.

Lemma run_keeps_fs ext c s o s' :
  (forall c f, snd (ext c f) = f) -> run ext c s = (inr o, s') -> fs s' = fs s.
Proof.
  intros Hx; unfold run; specialize (Hx c (fs s)).
  destruct (ext c (fs s)) as [[o'|] f]; cbn in Hx; subst f; intros H; injection H as _ <-; reflexivity.
Qed.

Lemma copy_inr src dst s s' :
  copy src dst s = (inr tt, s') ->
  exists c d, (d = dst \/ d = dst ++ [name src]) /\ fs s' = <[d := File c]> (fs s).
Proof.
  unfold copy, mbind, M_bind; intros H.
  apply bind_inr in H as [c [s1 [Hr H]]]; apply read_bytes_inr in Hr as [-> _].
  apply bind_inr in H as [f [s2 [Hg H]]]; unfold get_fs in Hg; injection Hg as <- <-.
  apply write_node_inr in H; exists c; eexists; split; [|exact H].
  case_bool_decide; [right|left]; reflexivity.
Qed.

Ltac run_step H Hx :=
  let o := fresh "o" in let s1 := fresh "s" in let Hr := fresh "Hr" in
  apply bind_inr in H as [o [s1 [Hr H]]]; unfold run_in in Hr; apply (run_keeps_fs _ _ _ _ _ Hx) in Hr.

Lemma parse_tag_tpl v : ~ In BS v ->
  parse_template (group_count re_tag) (s2l "\1 v" ++ v) = Some [PLit []; PGroup 1; PLit (s2l " v" ++ v)].
Proof.
  intros H; unfold parse_template.
  change (s2l "\1 v" ++ v) with (BS :: "1"%char :: " "%char :: "v"%char :: v).
  cbn [parse_go]; cbv -[parse_go].
  rewrite parse_go_lit by exact H; reflexivity.
Qed.

(** X12. When the commands leave the files alone, the version has no
    backslash (so the template [\1 v<version>] refers to group 1 only),
    the Flatpak manifest is valid UTF-8 and [release_flatpak] completes,
    the [tag:] line of the manifest reads [v<version>] and every other
    line is kept. *)
Theorem release_flatpak_sets_tag R ext target s s' v sc before old after :
  (forall c f, snd (ext c f) = f) ->
  fst (get_version R s) = inr v ->
  ~ In BS v ->
  fs s !! pjoin (path_of_string target) (s2l "com.github.mtkennerly.ludusavi.yaml") = Some (File sc) ->
  utf8_valid sc = true ->
  sc = concat (map (fun l => l ++ [LF]) before) ++ s2l "        tag: " ++ old
       ++ LF :: concat (map (fun l => l ++ [LF]) after) ->
  Forall (fun l => is_infix (s2l "        tag:") l = false) before ->
  Forall (fun l => is_infix (s2l "        tag:") l = false) after ->
  no_break old = true ->
  release_flatpak R ext target s = (inr tt, s') ->
  fs s' !! pjoin (path_of_string target) (s2l "com.github.mtkennerly.ludusavi.yaml")
  = Some (File (concat (map (fun l => l ++ [LF]) before) ++ s2l "        tag: v" ++ v
                ++ LF :: concat (map (fun l => l ++ [LF]) after))).
Proof.
  intros Hx Hv Hbs Hs Hu Hsc Hb Ha Hnb H.
  set (T := path_of_string target) in *.
  set (spec := pjoin T (s2l "com.github.mtkennerly.ludusavi.yaml")) in *.
  unfold release_flatpak, mbind, M_bind in H; cbv zeta in H; fold T spec in H.
  apply bind_inr in H as [v' [s1 [Hg H]]].
  pose proof (get_version_state R s) as Hst; rewrite Hg in Hst, Hv; cbn in Hst, Hv.
  injection Hv as ->; subst s1.
  run_step H Hx. run_step H Hx. run_step H Hx.
  apply bind_inr in H as [[] [s5 [Hc H]]]; apply copy_inr in Hc as [c [d [Hd Hc]]].
  apply bind_inr in H as [sc1 [s6 [Hrb H]]]; apply read_bytes_inr in Hrb as [-> Hsc1].
  apply bind_inr in H as [sc2 [s6' [Hdec H]]].
  unfold decode, ret, raise in Hdec; cbv beta in Hdec.
  destruct (utf8_valid sc1); [injection Hdec as <- <-|discriminate Hdec].
  unfold py_re_sub in H; rewrite (parse_tag_tpl v Hbs) in H.
  apply bind_inr in H as [sc3 [s6'' [Hre H]]]; unfold ret in Hre; injection Hre as <- <-.
  apply bind_inr in H as [[] [s7 [Hw H]]]; apply write_node_inr in Hw.
  run_step H Hx. run_step H Hx. run_step H Hx.
  unfold ret in H; injection H as <-.
  assert (Hne : spec <> d).
  { unfold spec, pjoin; intros E.
    change (path_of_string (s2l "com.github.mtkennerly.ludusavi.yaml"))
      with [s2l "com.github.mtkennerly.ludusavi.yaml"] in E.
    destruct Hd as [-> | ->]; unfold pjoin in E;
      change (path_of_string (s2l "generated-sources.json")) with [s2l "generated-sources.json"] in E;
      [|rewrite <- app_assoc in E]; apply app_inv_head in E; discriminate. }
  rewrite Hc, lookup_insert_ne, Hr1, Hr0, Hr in Hsc1 by (intros E; apply Hne; symmetry; exact E).
  rewrite Hs in Hsc1; injection Hsc1 as <-; subst sc.
  rewrite Hr4, Hr3, Hr2, Hw, lookup_insert_eq.
  do 2 f_equal.
  change (s2l "        tag: " ++ old ++ LF :: concat (map (fun l => l ++ [LF]) after))
    with (s2l "        tag: " ++ old ++ concat (map (fun l => l ++ [LF]) ([] :: after))).
  destruct (match_tag_line old (concat (map (fun l => l ++ [LF]) after)) Hnb) as [g [Hm Hg1]].
  rewrite (re_sub_all_one _ (s2l "        tag:") _ before _ ([] :: after) g).
  - unfold expand; cbn [map concat]; rewrite group_text_caps, Hg1, !app_nil_r; cbn; reflexivity.
  - discriminate.
  - cbn; intros E; repeat (destruct E as [E|E]; [discriminate E|]); exact E.
  - exact re_tag_anchored.
  - exact Hb.
  - constructor; [reflexivity|exact Ha].
  - exact Hm.
  - cbn [map concat]; rewrite !length_app; cbn [length app]; rewrite ?length_app; change (length (s2l "        tag: ")) with 13; lia.
Qed.

Lemma release_flatpak_sets_tag_witness :
  let s := st0 flatpak_fs in
  let spec := pjoin (path_of_string (s2l "/flathub")) (s2l "com.github.mtkennerly.ludusavi.yaml") in
  let sc := concat (map (fun l => l ++ [LF]) [s2l "id: ludusavi"]) ++ s2l "        tag: "
            ++ s2l "v0.9.0" ++ LF :: concat (map (fun l => l ++ [LF]) [s2l "        commit: abc"]) in
  (forall c f, snd (ext_ok c f) = f)
  /\ fst (get_version ROOT0 s) = inr (s2l "1.0")
  /\ fs s !! spec = Some (File sc)
  /\ utf8_valid sc = true
  /\ release_flatpak ROOT0 ext_ok (s2l "/flathub") s
     = (inr tt, snd (release_flatpak ROOT0 ext_ok (s2l "/flathub") s))
  /\ fs (snd (release_flatpak ROOT0 ext_ok (s2l "/flathub") s)) !! spec
     = Some (File (concat (map (fun l => l ++ [LF]) [s2l "id: ludusavi"]) ++ s2l "        tag: v"
                   ++ s2l "1.0" ++ LF :: concat (map (fun l => l ++ [LF]) [s2l "        commit: abc"]))).
Proof.
  cbv zeta.
  assert (Hx : forall c f, snd (ext_ok c f) = f) by reflexivity.
  assert (Hv : fst (get_version ROOT0 (st0 flatpak_fs)) = inr (s2l "1.0")) by (vm_compute; reflexivity).
  assert (Hs : fs (st0 flatpak_fs) !! pjoin (path_of_string (s2l "/flathub")) (s2l "com.github.mtkennerly.ludusavi.yaml")
     = Some (File (concat (map (fun l => l ++ [LF]) [s2l "id: ludusavi"]) ++ s2l "        tag: "
                   ++ s2l "v0.9.0" ++ LF :: concat (map (fun l => l ++ [LF]) [s2l "        commit: abc"]))))
    by (vm_compute; reflexivity).
  assert (Hu : utf8_valid (concat (map (fun l => l ++ [LF]) [s2l "id: ludusavi"]) ++ s2l "        tag: "
                   ++ s2l "v0.9.0" ++ LF :: concat (map (fun l => l ++ [LF]) [s2l "        commit: abc"])) = true)
    by (vm_compute; reflexivity).
  assert (Hr : release_flatpak ROOT0 ext_ok (s2l "/flathub") (st0 flatpak_fs)
     = (inr tt, snd (release_flatpak ROOT0 ext_ok (s2l "/flathub") (st0 flatpak_fs))))
    by (apply pair_of_fst; vm_compute; reflexivity).
  split; [exact Hx|split; [exact Hv|split; [exact Hs|split; [exact Hu|split; [exact Hr|]]]]].
  exact (release_flatpak_sets_tag ROOT0 ext_ok (s2l "/flathub") _ _ _ _ [s2l "id: ludusavi"] (s2l "v0.9.0")
           [s2l "        commit: abc"] Hx Hv ltac:(cbn; intuition discriminate) Hs Hu eq_refl
           ltac:(repeat constructor) ltac:(repeat constructor) eq_refl Hr).
Defined.

Lemma no_break_in l : no_break l = true <-> forall c, In c l -> is_linebreak c = false.
Proof.
  unfold no_break; rewrite forallb_forall; split; intros H c Hc; specialize (H c Hc);
    apply negb_true_iff; exact H.
Qed.

Lemma no_break_rev l : no_break (rev l) = no_break l.
Proof.
  apply eq_iff_eq_true; rewrite !no_break_in; split; intros H c Hc; apply H;
    [rewrite <- in_rev; exact Hc|rewrite <- in_rev in Hc; exact Hc].
Qed.

Lemma splitlines_go_no_break n : forall s cur, length s <= n ->
  no_break cur = true -> Forall (fun l => no_break l = true) (map fst (splitlines_go s cur)).
Proof.
  induction n as [|n IH]; intros s cur Hn Hcur.
  - destruct s; [|cbn in Hn; lia].
    destruct cur; repeat constructor; cbn [fst]; rewrite no_break_rev; exact Hcur.
  - destruct s as [|c t]; cbn [splitlines_go].
    { destruct cur; repeat constructor; cbn [fst]; rewrite no_break_rev; exact Hcur. }
    cbn [length] in Hn.
    assert (Hr : no_break (rev cur) = true) by (rewrite no_break_rev; exact Hcur).
    destruct (Ascii.eqb c CR).
    + destruct t as [|d t']; [repeat constructor; exact Hr|].
      cbn [length] in Hn.
      destruct (Ascii.eqb d LF); cbn [map]; constructor; try exact Hr;
        apply IH; first [reflexivity|cbn [length]; lia].
    + destruct (is_linebreak c) eqn:E.
      * cbn [map]; constructor; [exact Hr|apply IH; [lia|reflexivity]].
      * apply IH; [lia|unfold no_break; cbn [forallb]; rewrite E; exact Hcur].
Qed.

Lemma splitlines_no_break s : Forall (fun l => no_break l = true) (splitlines s).
Proof. apply (splitlines_go_no_break (length s)); [lia|reflexivity]. Qed.

Lemma lstrip_by_in p s c : In c (lstrip_by p s) -> In c s.
Proof.
  induction s as [|d s IH]; cbn [lstrip_by]; [tauto|].
  destruct (p d); [intros H; right; apply IH, H|tauto].
Qed.

Lemma lstrip_by_head p s : match lstrip_by p s with c :: _ => p c = false | [] => True end.
Proof.
  induction s as [|d s IH]; cbn [lstrip_by]; [exact I|].
  destruct (p d) eqn:E; [exact IH|exact E].
Qed.

Lemma py_rstrip_clean l :
  no_break l = true -> no_break (py_rstrip l) = true /\ no_trailing_space (py_rstrip l) = true.
Proof.
  intros H; unfold py_rstrip, rstrip_by; split.
  - rewrite no_break_rev; rewrite no_break_in in H |- *; intros c Hc.
    apply H; rewrite in_rev; apply (lstrip_by_in py_isspace), Hc.
  - unfold no_trailing_space; rewrite rev_involutive.
    pose proof (lstrip_by_head py_isspace (rev l)) as Hh.
    destruct (lstrip_by py_isspace (rev l)); [reflexivity|rewrite Hh; reflexivity].
Qed.

Lemma heading_clean c :
  no_break c = true ->
  no_break (s2l "## `" ++ c ++ s2l "`") = true /\ no_trailing_space (s2l "## `" ++ c ++ s2l "`") = true.
Proof.
  intros H; split.
  - unfold no_break; rewrite !forallb_app; fold (no_break c); rewrite H; reflexivity.
  - unfold no_trailing_space; rewrite app_assoc; change (s2l "`") with ["`"%char].
    rewrite rev_unit; reflexivity.
Qed.

Lemma docs_cli_loop_lines ext cmds : forall lines s ls s',
  Forall (fun c => no_break c = true) cmds ->
  docs_cli_loop ext cmds lines s = (inr ls, s') ->
  exists more, ls = lines ++ more
    /\ Forall (fun l => no_break l = true /\ no_trailing_space l = true) more.
Proof.
  induction cmds as [|c cmds IH]; intros lines s ls s' Hc H.
  - cbn [docs_cli_loop] in H; unfold ret in H; injection H as <- _.
    exists []; rewrite app_nil_r; split; [reflexivity|constructor].
  - inversion Hc as [|? ? Hc0 Hcs]; subst.
    cbn [docs_cli_loop] in H; unfold mbind, M_bind in H.
    apply bind_inr in H as [[] [s1 [_ H]]].
    apply bind_inr in H as [o [s2 [_ H]]].
    apply IH in H as [more [-> Hm]]; [|exact Hcs].
    eexists; split; [rewrite <- app_assoc; reflexivity|].
    apply Forall_app; split; [|exact Hm].
    apply Forall_app; split; [|apply Forall_app; split].
    + destruct (heading_clean c Hc0) as [H1 H2].
      repeat constructor; assumption.
    + apply Forall_map; eapply Forall_impl; [apply splitlines_no_break|].
      intros l Hl; apply py_rstrip_clean, Hl.
    + repeat constructor.
Qed.

(** X13. When [docs_cli] completes, [cli.md] is a sequence of
    newline-terminated lines: the header first, then lines without a line
    break or trailing white space. *)
Theorem docs_cli_writes_clean_lines R ext s s' :
  docs_cli R ext s = (inr tt, s') ->
  exists lines,
    fs s' !! pjoin (pjoin R (s2l "docs")) (s2l "cli.md")
    = Some (File (concat (map (fun l => l ++ [LF])
                   (s2l "This is the raw help text for the command line interface." :: lines))))
    /\ Forall (fun l => no_break l = true /\ no_trailing_space l = true) lines.
Proof.
  intros H; unfold docs_cli, mbind, M_bind in H; cbv zeta in H.
  apply bind_inr in H as [b [s1 [_ H]]].
  apply bind_inr in H as [[] [s2 [_ H]]].
  apply bind_inr in H as [ls [s3 [Hl Hw]]].
  apply docs_cli_loop_lines in Hl as [more [-> Hm]].
  2: { unfold cli_commands; cbn [map]; repeat constructor. }
  unfold write_text, write_bytes in Hw; apply write_node_inr in Hw.
  exists more; rewrite Hw, lookup_insert_eq; split; [reflexivity|exact Hm].
Qed.

Lemma docs_cli_writes_clean_lines_witness :
  docs_cli ROOT0 ext_help (st0 repo_fs) = (inr tt, snd (docs_cli ROOT0 ext_help (st0 repo_fs)))
  /\ exists lines,
    fs (snd (docs_cli ROOT0 ext_help (st0 repo_fs))) !! pjoin (pjoin ROOT0 (s2l "docs")) (s2l "cli.md")
    = Some (File (concat (map (fun l => l ++ [LF])
                   (s2l "This is the raw help text for the command line interface." :: lines))))
    /\ Forall (fun l => no_break l = true /\ no_trailing_space l = true) lines.
Proof.
  assert (H : docs_cli ROOT0 ext_help (st0 repo_fs) = (inr tt, snd (docs_cli ROOT0 ext_help (st0 repo_fs))))
    by (apply pair_of_fst; vm_compute; reflexivity).
  split; [exact H|exact (docs_cli_writes_clean_lines ROOT0 ext_help _ _ H)].
Defined.

Lemma lstrip_by_suffix p s : exists a, s = a ++ lstrip_by p s.
Proof.
  induction s as [|d s [a IH]]; cbn [lstrip_by]; [exists []; reflexivity|].
  destruct (p d); [exists (d :: a); cbn; f_equal; exact IH|exists []; reflexivity].
Qed.

Lemma py_strip_stripped x : stripped (py_strip x) = true.
Proof.
  unfold stripped, py_strip, strip_by, rstrip_by; apply andb_true_intro; split.
  - set (y := lstrip_by py_isspace x).
    destruct (lstrip_by_suffix py_isspace (rev y)) as [a Ha].
    assert (Hy : y = rev (lstrip_by py_isspace (rev y)) ++ rev a)
      by (rewrite <- rev_app_distr, <- Ha, rev_involutive; reflexivity).
    pose proof (lstrip_by_head py_isspace x) as Hh; fold y in Hh.
    destruct (rev (lstrip_by py_isspace (rev y))) as [|c z]; [reflexivity|].
    rewrite Hy in Hh; cbn [app] in Hh; rewrite Hh; reflexivity.
  - unfold no_trailing_space; rewrite rev_involutive.
    pose proof (lstrip_by_head py_isspace (rev (lstrip_by py_isspace x))) as Hh.
    destruct (lstrip_by py_isspace _); [reflexivity|rewrite Hh; reflexivity].
Qed.

Lemma for_writes_lines {A} (doc : A -> path) (f : A -> M unit) :
  (forall c s s', f c s = (inr tt, s') ->
     exists x, stripped x = true /\ fs s' = <[doc c := File (x ++ [LF])]> (fs s)) ->
  forall l s s', NoDup (map doc l) -> for_ l f s = (inr tt, s') ->
  (forall c, In c l -> exists x, stripped x = true /\ fs s' !! doc c = Some (File (x ++ [LF])))
  /\ (forall p, ~ In p (map doc l) -> fs s' !! p = fs s !! p).
Proof.
  intros Hf; induction l as [|c r IH]; intros s s' Hnd H.
  - cbn in H; injection H as <-; split; [intros c []|reflexivity].
  - apply for_cons_inr in H as [s1 [H1 H2]].
    inversion Hnd as [|? ? Hni Hnd']; subst; rewrite list_elem_of_In in Hni.
    apply Hf in H1 as [x [Hx H1]].
    destruct (IH s1 s' Hnd' H2) as [IH1 IH2]; split.
    + intros c' [<-|Hc'].
      * exists x; split; [exact Hx|rewrite IH2 by exact Hni; rewrite H1, lookup_insert_eq; reflexivity].
      * apply IH1, Hc'.
    + intros p Hp; rewrite IH2 by (intros Hin; apply Hp; right; exact Hin).
      rewrite H1, lookup_insert_ne; [reflexivity|].
      intros E; apply Hp; left; exact E.
Qed.

Lemma NoDup_map_app (D : path) (l : list path) : NoDup l -> NoDup (map (app D) l).
Proof.
  induction 1 as [|x l Hx _ IH]; cbn [map]; constructor; [|exact IH]; rewrite list_elem_of_In in Hx |- *.
  intros Hin; apply in_map_iff in Hin as [y [E Hy]]; apply app_inv_head in E; subst; contradiction.
Qed.

(** X14. When the commands leave the files alone and [docs_schema]
    completes, each schema file holds a text without leading or trailing
    white space followed by one newline. *)
Theorem docs_schema_writes_stripped R ext s s' :
  (forall c f, snd (ext c f) = f) ->
  docs_schema R ext s = (inr tt, s') ->
  forall command, In command schema_commands ->
  exists x, stripped x = true
    /\ fs s' !! pjoin (pjoin (pjoin R (s2l "docs")) (s2l "schema")) (command ++ s2l ".yaml")
       = Some (File (x ++ [LF])).
Proof.
  intros Hx H; unfold docs_schema, mbind, M_bind in H; cbv zeta in H.
  apply bind_inr in H as [b [s1 [_ H]]].
  apply bind_inr in H as [[] [s2 [_ H]]].
  apply (for_writes_lines (fun command => pjoin (pjoin (pjoin R (s2l "docs")) (s2l "schema")) (command ++ s2l ".yaml")))
    in H as [H _].
  - exact H.
  - intros c s3 s4 Hc; cbv beta in Hc.
    apply bind_inr in Hc as [[] [s5 [Hp Hc]]]; unfold print in Hp; injection Hp as <-.
    apply bind_inr in Hc as [o [s6 [Hr Hc]]]; apply (run_keeps_fs _ _ _ _ _ Hx) in Hr.
    unfold write_text, write_bytes in Hc; apply write_node_inr in Hc.
    exists (py_strip o); split; [apply py_strip_stripped|].
    rewrite Hc, Hr; reflexivity.
  - set (D := pjoin (pjoin R (s2l "docs")) (s2l "schema")).
    replace (map (fun command => pjoin D (command ++ s2l ".yaml")) schema_commands)
      with (map (app D) (map (fun command => path_of_string (command ++ s2l ".yaml")) schema_commands))
      by (rewrite map_map; reflexivity).
    apply NoDup_map_app.
    apply (bool_decide_unpack _); vm_compute; reflexivity.
Qed.

Lemma docs_schema_writes_stripped_witness :
  let s' := snd (docs_schema ROOT0 ext_help (st0 repo_fs)) in
  (forall c f, snd (ext_help c f) = f)
  /\ docs_schema ROOT0 ext_help (st0 repo_fs) = (inr tt, s')
  /\ In (s2l "config") schema_commands
  /\ exists x, stripped x = true
    /\ fs s' !! pjoin (pjoin (pjoin ROOT0 (s2l "docs")) (s2l "schema")) (s2l "config" ++ s2l ".yaml")
       = Some (File (x ++ [LF])).
Proof.
  cbv zeta.
  assert (Hx : forall c f, snd (ext_help c f) = f) by reflexivity.
  assert (H : docs_schema ROOT0 ext_help (st0 repo_fs) = (inr tt, snd (docs_schema ROOT0 ext_help (st0 repo_fs))))
    by (apply pair_of_fst; vm_compute; reflexivity).
  assert (Hin : In (s2l "config") schema_commands) by (right; right; left; reflexivity).
  split; [exact Hx|split; [exact H|split; [exact Hin|]]].
  exact (docs_schema_writes_stripped ROOT0 ext_help _ _ Hx H _ Hin).
Defined.

Lemma replace_skip old new a X f :
  (forall a1 a2, a = a1 ++ a2 -> a2 <> [] -> starts_with old (a2 ++ X) = false) ->
  replace_fuel (length a + f) old new (a ++ X) = a ++ replace_fuel f old new X.
Proof.
  induction a as [|c a IH]; intros H; [reflexivity|].
  cbn [length plus app replace_fuel].
  pose proof (H [] (c :: a) eq_refl ltac:(discriminate)) as H0; cbn [app] in H0; rewrite H0.
  f_equal; apply IH; intros a1 a2 -> Ha2; apply (H (c :: a1) a2); [reflexivity|exact Ha2].
Qed.

Lemma replace_fuel_nil f old new : replace_fuel f old new [] = [].
Proof. destruct f; reflexivity. Qed.

(** [s.replace(old, new)] on a text whose only occurrence of the
    line-free [old] is the start of one line. *)
Lemma py_replace_line old new before after :
  old <> [] -> ~ In LF old ->
  Forall (fun l => is_infix old l = false) before ->
  Forall (fun l => is_infix old l = false) after ->
  py_replace old new (concat (map (fun l => l ++ [LF]) before) ++ old ++ LF :: concat (map (fun l => l ++ [LF]) after))
  = concat (map (fun l => l ++ [LF]) before) ++ new ++ LF :: concat (map (fun l => l ++ [LF]) after).
Proof.
  intros Hne HLF Hb Ha; unfold py_replace.
  set (B := concat (map (fun l => l ++ [LF]) before)).
  set (A := concat (map (fun l => l ++ [LF]) ([] :: after))).
  change (LF :: concat (map (fun l => l ++ [LF]) after)) with A.
  replace (S (length (B ++ old ++ A))) with (length B + S (length old + length A))
    by (rewrite !length_app; lia).
  rewrite replace_skip.
  2: { intros a1 a2 Heq Ha2; exact (lines_no_start old before _ HLF Hb a1 a2 Heq Ha2). }
  destruct old as [|c o]; [contradiction|].
  rewrite replace_fuel_prefix by discriminate.
  assert (HA : replace_fuel (length A + length (c :: o)) (c :: o) new (A ++ [])
                = A ++ replace_fuel (length (c :: o)) (c :: o) new []).
  { assert (Ha' : Forall (fun l => is_infix (c :: o) l = false) ([] :: after))
      by (constructor; [reflexivity|exact Ha]).
    apply replace_skip; intros a1 a2 Heq Ha2.
    exact (lines_no_start (c :: o) ([] :: after) [] HLF Ha' a1 a2 Heq Ha2). }
  rewrite app_nil_r, replace_fuel_nil, app_nil_r in HA.
  rewrite Nat.add_comm, HA; reflexivity.
Qed.

Lemma decode_inr c s x s' : decode c s = (inr x, s') -> s' = s /\ x = c.
Proof.
  unfold decode, ret, raise; destruct (utf8_valid c); intros H; [injection H as <- <-; auto|discriminate].
Qed.

Lemma latest_changelog_inr R s cl s' :
  latest_changelog R s = (inr cl, s') -> s' = s.
Proof.
  unfold latest_changelog, mbind, M_bind; intros H.
  apply bind_inr in H as [c [s1 [Hr H]]]; apply read_bytes_inr in Hr as [-> _].
  apply bind_inr in H as [c' [s2 [Hd H]]]; apply decode_inr in Hd as [-> _].
  unfold ret in H; injection H as _ <-; reflexivity.
Qed.

(** X15. When the commands leave the files alone and [release_winget]
    completes, the [Moniker: ludusavi] line of the locale manifest is
    followed by the release notes (the latest changelog section indented by
    two spaces) and the release URL, and the rest is kept. *)
Theorem release_winget_inserts_notes R ext target s s' v before after :
  (forall c f, snd (ext c f) = f) ->
  fst (get_version R s) = inr v ->
  Forall (fun l => is_infix (s2l "Moniker: ludusavi") l = false) before ->
  Forall (fun l => is_infix (s2l "Moniker: ludusavi") l = false) after ->
  fs s !! pjoin (path_of_string target) (s2l "manifests/m/mtkennerly/ludusavi/" ++ v
                                         ++ s2l "/mtkennerly.ludusavi.locale.en-US.yaml")
  = Some (File (concat (map (fun l => l ++ [LF]) before) ++ s2l "Moniker: ludusavi"
                ++ LF :: concat (map (fun l => l ++ [LF]) after))) ->
  release_winget R ext target s = (inr tt, s') ->
  exists cl, fst (latest_changelog R s) = inr cl
    /\ fs s' !! pjoin (path_of_string target) (s2l "manifests/m/mtkennerly/ludusavi/" ++ v
                                              ++ s2l "/mtkennerly.ludusavi.locale.en-US.yaml")
       = Some (File (concat (map (fun l => l ++ [LF]) before) ++ s2l "Moniker: ludusavi" ++ [LF]
                     ++ s2l "ReleaseNotes: |-" ++ [LF] ++ indent cl (s2l "  ") ++ [LF]
                     ++ s2l "ReleaseNotesUrl: https://github.com/mtkennerly/ludusavi/releases/tag/v" ++ v
                     ++ LF :: concat (map (fun l => l ++ [LF]) after))).
Proof.
  intros Hx Hv Hb Ha Hs H.
  unfold release_winget, mbind, M_bind in H; cbv zeta in H.
  apply bind_inr in H as [v' [s1 [Hg H]]].
  pose proof (get_version_state R s) as Hst; rewrite Hg in Hst, Hv; cbn in Hst, Hv.
  injection Hv as ->; subst s1.
  apply bind_inr in H as [cl [s2 [Hl H]]].
  pose proof Hl as Hl'; apply latest_changelog_inr in Hl'; subst s2.
  exists cl; split; [rewrite Hl; reflexivity|].
  run_step H Hx. run_step H Hx. run_step H Hx. run_step H Hx.
  apply bind_inr in H as [sc [s6 [Hrb H]]]; apply read_bytes_inr in Hrb as [-> Hsc].
  apply bind_inr in H as [sc' [s6' [Hd H]]]; apply decode_inr in Hd as [-> ->].
  apply bind_inr in H as [[] [s7 [Hw H]]]; apply write_node_inr in Hw.
  run_step H Hx. run_step H Hx. run_step H Hx. run_step H Hx.
  unfold ret in H; injection H as <-.
  rewrite Hr2, Hr1, Hr0, Hr, Hs in Hsc.
  assert (Hfile : forall a b, File a = File b -> a = b) by congruence.
  apply (inj Some), Hfile in Hsc; subst sc.
  rewrite Hr6, Hr5, Hr4, Hr3, Hw, lookup_insert_eq.
  do 2 f_equal.
  rewrite py_replace_line; [| discriminate | cbn; intros E; repeat (destruct E as [E|E]; [discriminate E|]); exact E
                            | exact Hb | exact Ha].
  rewrite <- !app_assoc; reflexivity.
Qed.

Lemma release_winget_inserts_notes_witness :
  let s := st0 winget_fs in
  let spec := pjoin (path_of_string (s2l "/winget")) (s2l "manifests/m/mtkennerly/ludusavi/" ++ s2l "0.9.0"
                                         ++ s2l "/mtkennerly.ludusavi.locale.en-US.yaml") in
  (forall c f, snd (ext_ok c f) = f)
  /\ fst (get_version ROOT0 s) = inr (s2l "0.9.0")
  /\ fs s !! spec
     = Some (File (concat (map (fun l => l ++ [LF]) [s2l "PackageIdentifier: mtkennerly.ludusavi"])
                   ++ s2l "Moniker: ludusavi" ++ LF :: concat (map (fun l => l ++ [LF]) [s2l "License: MIT"])))
  /\ release_winget ROOT0 ext_ok (s2l "/winget") s = (inr tt, snd (release_winget ROOT0 ext_ok (s2l "/winget") s))
  /\ exists cl, fst (latest_changelog ROOT0 s) = inr cl
    /\ fs (snd (release_winget ROOT0 ext_ok (s2l "/winget") s)) !! spec
       = Some (File (concat (map (fun l => l ++ [LF]) [s2l "PackageIdentifier: mtkennerly.ludusavi"])
                     ++ s2l "Moniker: ludusavi" ++ [LF]
                     ++ s2l "ReleaseNotes: |-" ++ [LF] ++ indent cl (s2l "  ") ++ [LF]
                     ++ s2l "ReleaseNotesUrl: https://github.com/mtkennerly/ludusavi/releases/tag/v" ++ s2l "0.9.0"
                     ++ LF :: concat (map (fun l => l ++ [LF]) [s2l "License: MIT"]))).
Proof.
  cbv zeta.
  assert (Hx : forall c f, snd (ext_ok c f) = f) by reflexivity.
  assert (Hv : fst (get_version ROOT0 (st0 winget_fs)) = inr (s2l "0.9.0")) by (vm_compute; reflexivity).
  assert (Hs : fs (st0 winget_fs) !! pjoin (path_of_string (s2l "/winget"))
                 (s2l "manifests/m/mtkennerly/ludusavi/" ++ s2l "0.9.0" ++ s2l "/mtkennerly.ludusavi.locale.en-US.yaml")
     = Some (File (concat (map (fun l => l ++ [LF]) [s2l "PackageIdentifier: mtkennerly.ludusavi"])
                   ++ s2l "Moniker: ludusavi" ++ LF :: concat (map (fun l => l ++ [LF]) [s2l "License: MIT"]))))
    by (vm_compute; reflexivity).
  assert (Hr : release_winget ROOT0 ext_ok (s2l "/winget") (st0 winget_fs)
     = (inr tt, snd (release_winget ROOT0 ext_ok (s2l "/winget") (st0 winget_fs))))
    by (apply pair_of_fst; vm_compute; reflexivity).
  split; [exact Hx|split; [exact Hv|split; [exact Hs|split; [exact Hr|]]]].
  apply (release_winget_inserts_notes ROOT0 ext_ok (s2l "/winget") _ _ _
           [s2l "PackageIdentifier: mtkennerly.ludusavi"] [s2l "License: MIT"] Hx Hv);
    [repeat constructor|repeat constructor|exact Hs|exact Hr].
Defined.

End Proofs.
